(** * Arkanoid (itcpp2015, p11.cpp): entity manager, collision resolver
      and game state machine.

    The development follows the layout of [src/code/p11.cpp]:
    vector utilities, the intersection test, [Manager], the shapes,
    [Ball] / [Paddle] / [Brick], the two collision resolvers and [Game].

    The C++ code computes on [float].  Every definition below is written
    once, over an abstract carrier with the operations the code uses
    ([Arith]); it is then run on two carriers:
    - [f32]: IEEE-754 binary32 from [SpecFloat] (what the program runs on);
    - [R]: exact real arithmetic (used for quantitative bounds). *)

From Stdlib Require Import ZArith Reals Lra Lia Bool.
From Stdlib Require Import Floats.SpecFloat.
From stdpp Require Import base option list gmap.

(* ===================================================================== *)
(** * Numbers *)
(* ===================================================================== *)

(** The operations [p11.cpp] performs on [float] values.  [wide] is the
    type [std::pow] and [std::sqrt] compute in ([double]): [getLength]
    returns it and [getNormalized] casts it back with [static_cast<T>]. *)
Class Arith (F : Type) := {
  wide : Type;
  fadd : F -> F -> F;
  fsub : F -> F -> F;
  fmul : F -> F -> F;
  fdiv : F -> F -> F;
  fneg : F -> F;
  fabs : F -> F;                 (* std::abs *)
  flt : F -> F -> bool;          (* a < b  *)
  fle : F -> F -> bool;          (* a <= b *)
  fgt : F -> F -> bool;          (* a > b  *)
  fge : F -> F -> bool;          (* a >= b *)
  of_int : Z -> F;               (* 2.f, 800u converted to float, ... *)
  lit_0_05 : F;                  (* 0.05f *)
  pow2 : F -> wide;              (* std::pow(x, 2) *)
  wadd : wide -> wide -> wide;
  wsqrt : wide -> wide;          (* std::sqrt *)
  narrow : wide -> F;            (* static_cast<float> *)
}.

Declare Scope arith_scope.
Delimit Scope arith_scope with A.
Infix "+" := fadd : arith_scope.
Infix "-" := fsub : arith_scope.
Infix "*" := fmul : arith_scope.
Infix "/" := fdiv : arith_scope.
Infix "<?" := flt : arith_scope.
Infix "<=?" := fle : arith_scope.
Infix ">?" := fgt : arith_scope.
Infix ">=?" := fge : arith_scope.

(** The laws of the comparisons the proofs below rely on: [a >= b] and
    [b <= a] are the same test (also on NaN, where both are false), and
    nothing is below itself. *)
Class ArithLaws (F : Type) `{Arith F} : Prop := {
  fge_fle : forall a b : F, fge a b = fle b a;
  flt_irrefl : forall a : F, flt a a = false;
}.

(** ** binary32 *)

Module F32.
Definition prec : Z := 24.
Definition emax : Z := 128.
Definition dprec : Z := 53.
Definition demax : Z := 1024.

Definition t := spec_float.

Definition gtb (a b : t) : bool :=
  match SFcompare a b with Some Gt => true | _ => false end.
Definition geb (a b : t) : bool :=
  match SFcompare a b with Some (Gt | Eq) => true | _ => false end.

Definition of_Z (z : Z) : t := binary_normalize prec emax z 0 false.

(** [static_cast<float>] of a [double]: round to nearest even. *)
Definition of_double (d : spec_float) : t :=
  match d with
  | S754_finite s m e => binary_round prec emax s m e
  | _ => d
  end.

(** The decimal literal [0.05f] is the binary32 nearest to 1/20,
    13421773 * 2^-28; this is also what the rounded division returns. *)
Definition c0_05 : t := S754_finite false 13421773 (-28).

(** [x] is NaN or carries the sign bit [s]. *)
Definition has_sign (s : bool) (x : t) : Prop :=
  match x with
  | S754_zero s' | S754_infinity s' | S754_finite s' _ _ => s' = s
  | S754_nan => True
  end.
End F32.

#[export] Instance f32_arith : Arith F32.t := {|
  wide := spec_float;
  fadd := SFadd F32.prec F32.emax;
  fsub := SFsub F32.prec F32.emax;
  fmul := SFmul F32.prec F32.emax;
  fdiv := SFdiv F32.prec F32.emax;
  fneg := SFopp;
  fabs := SFabs;
  flt := SFltb;
  fle := SFleb;
  fgt := F32.gtb;
  fge := F32.geb;
  of_int := F32.of_Z;
  lit_0_05 := F32.c0_05;
  pow2 := fun x => SFmul F32.dprec F32.demax x x;
  wadd := SFadd F32.dprec F32.demax;
  wsqrt := SFsqrt F32.dprec F32.demax;
  narrow := F32.of_double;
|}.


(** ** Exact reals *)

Module Exact.
Definition ltb (a b : R) : bool := if Rlt_dec a b then true else false.
Definition leb (a b : R) : bool := if Rle_dec a b then true else false.

End Exact.

#[export] Instance real_arith : Arith R := {|
  wide := R;
  fadd := Rplus;
  fsub := Rminus;
  fmul := Rmult;
  fdiv := Rdiv;
  fneg := Ropp;
  fabs := Rabs;
  flt := Exact.ltb;
  fle := Exact.leb;
  fgt := fun a b => Exact.ltb b a;
  fge := fun a b => Exact.leb b a;
  of_int := IZR;
  lit_0_05 := (5 / 100)%R;
  pow2 := fun x => (x * x)%R;
  wadd := Rplus;
  wsqrt := sqrt;
  narrow := fun x => x;
|}.

(* ===================================================================== *)
(** * Vectors, shapes and the intersection test *)
(* ===================================================================== *)

(** [constexpr unsigned int wndWidth{800}, wndHeight{600};] *)
Definition wndWidth : Z := 800.
Definition wndHeight : Z := 600.

(** [int] is 32 bits wide; [--n] on it is modelled with two's-complement
    wrap-around (the standard leaves the overflow undefined). *)
Definition int_min : Z := - 2 ^ 31.
Definition int_max : Z := 2 ^ 31 - 1.
Definition int_wrap (z : Z) : Z := (z + 2 ^ 31) mod 2 ^ 32 - 2 ^ 31.
Definition int_pred (n : Z) : Z := int_wrap (n - 1).

Section Geometry.
Context {F : Type} `{Arith F}.
Local Open Scope arith_scope.

(** [sf::Vector2f] with the operators the code uses. *)
Record Vector2 := mkVec { vec_x : F; vec_y : F }.

Definition vec_add (a b : Vector2) : Vector2 :=
  mkVec (vec_x a + vec_x b) (vec_y a + vec_y b).
Definition vec_sub (a b : Vector2) : Vector2 :=
  mkVec (vec_x a - vec_x b) (vec_y a - vec_y b).
Definition vec_scale (a : Vector2) (k : F) : Vector2 :=
  mkVec (vec_x a * k) (vec_y a * k).
Definition vec_div (a : Vector2) (k : F) : Vector2 :=
  mkVec (vec_x a / k) (vec_y a / k).

Definition getLength (mVec : Vector2) : wide :=
  wsqrt (wadd (pow2 (vec_x mVec)) (pow2 (vec_y mVec))).

Definition getNormalized (mVec : Vector2) : Vector2 :=
  vec_div mVec (narrow (getLength mVec)).

Definition getDotProduct (mVec1 mVec2 : Vector2) : F :=
  vec_x mVec1 * vec_x mVec2 + vec_y mVec1 * vec_y mVec2.

Definition getReflected (mVec mNormal : Vector2) : Vector2 :=
  vec_sub mVec (vec_scale mNormal (of_int 2 * getDotProduct mVec mNormal)).

(** What [isIntersecting] asks of its template arguments. *)
Class Bounded (T : Type) := {
  left : T -> F;
  right : T -> F;
  top : T -> F;
  bottom : T -> F;
}.

Definition isIntersecting {T1 T2 : Type} `{Bounded T1} `{Bounded T2}
    (mA : T1) (mB : T2) : bool :=
  (right mA >=? left mB) && (left mA <=? right mB)
  && (bottom mA >=? top mB) && (top mA <=? bottom mB).

(** [struct Rectangle]: the position and size of its [sf::RectangleShape]
    (origin and fill colour only matter to rendering). *)
Record Rectangle := mkRectangle { rect_position : Vector2; rect_size : Vector2 }.

Definition rect_x (r : Rectangle) : F := vec_x (rect_position r).
Definition rect_y (r : Rectangle) : F := vec_y (rect_position r).
Definition rect_width (r : Rectangle) : F := vec_x (rect_size r).
Definition rect_height (r : Rectangle) : F := vec_y (rect_size r).

#[export] Instance Rectangle_bounded : Bounded Rectangle := {|
  left r := rect_x r - rect_width r / of_int 2;
  right r := rect_x r + rect_width r / of_int 2;
  top r := rect_y r - rect_height r / of_int 2;
  bottom r := rect_y r + rect_height r / of_int 2;
|}.

(** [struct Circle]: the position and radius of its [sf::CircleShape]. *)
Record Circle := mkCircle { circ_position : Vector2; circ_radius : F }.

Definition circ_x (c : Circle) : F := vec_x (circ_position c).
Definition circ_y (c : Circle) : F := vec_y (circ_position c).

#[export] Instance Circle_bounded : Bounded Circle := {|
  left c := circ_x c - circ_radius c;
  right c := circ_x c + circ_radius c;
  top c := circ_y c - circ_radius c;
  bottom c := circ_y c + circ_radius c;
|}.

(** Either kind of shape. *)
Inductive Shape := SRectangle (r : Rectangle) | SCircle (c : Circle).

#[export] Instance Shape_bounded : Bounded Shape := {|
  left s := match s with SRectangle r => left r | SCircle c => left c end;
  right s := match s with SRectangle r => right r | SCircle c => right c end;
  top s := match s with SRectangle r => top r | SCircle c => top c end;
  bottom s := match s with SRectangle r => bottom r | SCircle c => bottom c end;
|}.

(* ===================================================================== *)
(** * Entities *)
(* ===================================================================== *)

(** ** Ball *)

Record Ball := mkBall {
  ball_destroyed : bool;
  ball_circle : Circle;
  ball_velocity : Vector2;
}.

Definition Ball_defRadius : F := of_int 10.
Definition Ball_defVelocity : F := of_int 8.

Definition Ball_new (mX mY : F) : Ball :=
  mkBall false (mkCircle (mkVec mX mY) Ball_defRadius)
         (mkVec (fneg Ball_defVelocity) (fneg Ball_defVelocity)).

#[export] Instance Ball_bounded : Bounded Ball := {|
  left b := left (ball_circle b);
  right b := right (ball_circle b);
  top b := top (ball_circle b);
  bottom b := bottom (ball_circle b);
|}.

Definition Ball_move (b : Ball) (offset : Vector2) : Ball :=
  mkBall (ball_destroyed b)
         (mkCircle (vec_add (circ_position (ball_circle b)) offset)
                   (circ_radius (ball_circle b)))
         (ball_velocity b).

Definition Ball_setPosition (b : Ball) (x y : F) : Ball :=
  mkBall (ball_destroyed b)
         (mkCircle (mkVec x y) (circ_radius (ball_circle b)))
         (ball_velocity b).

Definition Ball_set_velocity (b : Ball) (v : Vector2) : Ball :=
  mkBall (ball_destroyed b) (ball_circle b) v.

Definition Ball_set_destroyed (b : Ball) (d : bool) : Ball :=
  mkBall d (ball_circle b) (ball_velocity b).

Definition Ball_solveBoundCollisions (b : Ball) : Ball :=
  let b1 :=
    if (left b <? of_int 0) || (right b >? of_int wndWidth)
    then Ball_set_velocity b
           (mkVec (vec_x (ball_velocity b) * fneg (of_int 1))
                  (vec_y (ball_velocity b)))
    else b in
  if top b1 <? of_int 0
  then Ball_set_velocity b1
         (mkVec (vec_x (ball_velocity b1))
                (vec_y (ball_velocity b1) * fneg (of_int 1)))
  else if bottom b1 >? of_int wndHeight
       then Ball_set_destroyed b1 true
       else b1.

Definition Ball_update (b : Ball) : Ball :=
  Ball_solveBoundCollisions (Ball_move b (ball_velocity b)).

(** ** Paddle *)

Record Paddle := mkPaddle {
  paddle_destroyed : bool;
  paddle_rect : Rectangle;
  paddle_velocity : Vector2;
}.

Definition Paddle_defWidth : F := of_int 75.
Definition Paddle_defHeight : F := of_int 20.
Definition Paddle_defVelocity : F := of_int 8.

(** [sf::Vector2f velocity;] is value-initialised to (0, 0). *)
Definition Paddle_new (mX mY : F) : Paddle :=
  mkPaddle false
           (mkRectangle (mkVec mX mY) (mkVec Paddle_defWidth Paddle_defHeight))
           (mkVec (of_int 0) (of_int 0)).

#[export] Instance Paddle_bounded : Bounded Paddle := {|
  left p := left (paddle_rect p);
  right p := right (paddle_rect p);
  top p := top (paddle_rect p);
  bottom p := bottom (paddle_rect p);
|}.

Definition Paddle_set_velocity_x (p : Paddle) (v : F) : Paddle :=
  mkPaddle (paddle_destroyed p) (paddle_rect p)
           (mkVec v (vec_y (paddle_velocity p))).

Definition Paddle_move (p : Paddle) (offset : Vector2) : Paddle :=
  mkPaddle (paddle_destroyed p)
           (mkRectangle (vec_add (rect_position (paddle_rect p)) offset)
                        (rect_size (paddle_rect p)))
           (paddle_velocity p).

(** [keyLeft], [keyRight]: what [sf::Keyboard::isKeyPressed] answers for
    the two arrow keys. *)
Definition Paddle_processPlayerInput (keyLeft keyRight : bool) (p : Paddle)
    : Paddle :=
  if keyLeft && (left p >? of_int 0)
  then Paddle_set_velocity_x p (fneg Paddle_defVelocity)
  else if keyRight && (right p <? of_int wndWidth)
       then Paddle_set_velocity_x p Paddle_defVelocity
       else Paddle_set_velocity_x p (of_int 0).

Definition Paddle_update (keyLeft keyRight : bool) (p : Paddle) : Paddle :=
  let p1 := Paddle_processPlayerInput keyLeft keyRight p in
  Paddle_move p1 (paddle_velocity p1).

(** ** Brick *)

(** The three fill colours, by their alpha tier. *)
Inductive BrickColor := defColorHits1 | defColorHits2 | defColorHits3.

Record Brick := mkBrick {
  brick_destroyed : bool;
  brick_rect : Rectangle;
  brick_fill : option BrickColor;     (* unset until the first update *)
  requiredHits : Z;
}.

Definition Brick_defWidth : F := of_int 60.
Definition Brick_defHeight : F := of_int 20.

Definition Brick_new (mX mY : F) : Brick :=
  mkBrick false
          (mkRectangle (mkVec mX mY) (mkVec Brick_defWidth Brick_defHeight))
          None 1.

#[export] Instance Brick_bounded : Bounded Brick := {|
  left b := left (brick_rect b);
  right b := right (brick_rect b);
  top b := top (brick_rect b);
  bottom b := bottom (brick_rect b);
|}.

Definition Brick_set_requiredHits (b : Brick) (n : Z) : Brick :=
  mkBrick (brick_destroyed b) (brick_rect b) (brick_fill b) n.

Definition Brick_set_destroyed (b : Brick) (d : bool) : Brick :=
  mkBrick d (brick_rect b) (brick_fill b) (requiredHits b).

Definition Brick_update (b : Brick) : Brick :=
  mkBrick (brick_destroyed b) (brick_rect b)
          (Some (if (requiredHits b =? 1)%Z then defColorHits1
                 else if (requiredHits b =? 2)%Z then defColorHits2
                 else defColorHits3))
          (requiredHits b).

(* ===================================================================== *)
(** * Collision resolution *)
(* ===================================================================== *)

(** The two locals of [solvePaddleBallCollision] that steer the bounce. *)
Definition posFactor (mPaddle : Paddle) (mBall : Ball) : F :=
  let paddleBallDiff := circ_x (ball_circle mBall) - rect_x (paddle_rect mPaddle) in
  paddleBallDiff / rect_width (paddle_rect mPaddle).

Definition velFactor (mPaddle : Paddle) : F :=
  vec_x (paddle_velocity mPaddle) * lit_0_05.

Definition solvePaddleBallCollision (mPaddle : Paddle) (mBall : Ball) : Ball :=
  if negb (isIntersecting mPaddle mBall) then mBall
  else
    let newY := top mPaddle - circ_radius (ball_circle mBall) * of_int 2 in
    let mBall1 := Ball_setPosition mBall (circ_x (ball_circle mBall)) newY in
    let collisionVec :=
      mkVec (posFactor mPaddle mBall1 + velFactor mPaddle) (fneg (of_int 2)) in
    Ball_set_velocity mBall1
      (getReflected (ball_velocity mBall1) (getNormalized collisionVec)).

(** The four directional overlaps and the two minimal ones. *)
Definition overlapLeft (mBrick : Brick) (mBall : Ball) : F := right mBall - left mBrick.
Definition overlapRight (mBrick : Brick) (mBall : Ball) : F := right mBrick - left mBall.
Definition overlapTop (mBrick : Brick) (mBall : Ball) : F := bottom mBall - top mBrick.
Definition overlapBottom (mBrick : Brick) (mBall : Ball) : F := bottom mBrick - top mBall.

Definition bFromLeft (mBrick : Brick) (mBall : Ball) : bool :=
  fabs (overlapLeft mBrick mBall) <? fabs (overlapRight mBrick mBall).
Definition bFromTop (mBrick : Brick) (mBall : Ball) : bool :=
  fabs (overlapTop mBrick mBall) <? fabs (overlapBottom mBrick mBall).

Definition minOverlapX (mBrick : Brick) (mBall : Ball) : F :=
  if bFromLeft mBrick mBall then overlapLeft mBrick mBall
  else overlapRight mBrick mBall.
Definition minOverlapY (mBrick : Brick) (mBall : Ball) : F :=
  if bFromTop mBrick mBall then overlapTop mBrick mBall
  else overlapBottom mBrick mBall.

Definition solveBrickBallCollision (mBrick : Brick) (mBall : Ball)
    : Brick * Ball :=
  if negb (isIntersecting mBrick mBall) then (mBrick, mBall)
  else
    let mBrick1 := Brick_set_requiredHits mBrick (int_pred (requiredHits mBrick)) in
    let mBrick2 :=
      if (requiredHits mBrick1 <=? 0)%Z then Brick_set_destroyed mBrick1 true
      else mBrick1 in
    let v := ball_velocity mBall in
    let mBall' :=
      if fabs (minOverlapX mBrick2 mBall) <? fabs (minOverlapY mBrick2 mBall)
      then Ball_set_velocity mBall
             (mkVec (fabs (vec_x v)
                     * (if bFromLeft mBrick2 mBall then fneg (of_int 1) else of_int 1))
                    (vec_y v))
      else Ball_set_velocity mBall
             (mkVec (vec_x v)
                    (fabs (vec_y v)
                     * (if bFromTop mBrick2 mBall then fneg (of_int 1) else of_int 1)))
    in (mBrick2, mBall').

End Geometry.

Arguments Vector2 F : clear implicits.
Arguments Rectangle F : clear implicits.
Arguments Circle F : clear implicits.
Arguments Shape F : clear implicits.
Arguments Ball F : clear implicits.
Arguments Paddle F : clear implicits.
Arguments Brick F : clear implicits.

(* ===================================================================== *)
(** * Manager *)
(* ===================================================================== *)

(** Addresses of heap-allocated entities ([Entity*]); never null. *)
Definition ptr : Type := positive.

(** The three classes deriving from [Entity]. *)
Inductive EntityType := TBall | TPaddle | TBrick.

(** What the keyboard answers during one frame. *)
Record Keys := mkKeys {
  key_Escape : bool;
  key_P : bool;
  key_R : bool;
  key_Left : bool;
  key_Right : bool;
}.

(** ** The erase-remove idiom

    [std::remove_if] as the library implements it: find the first element
    to remove, then walk the rest and move every element to keep down to
    [result].  It returns the vector with the kept elements compacted at
    the front (what follows is unspecified leftovers) and the new logical
    end.  The predicate dereferences a pointer, so it may be undefined
    ([None]).  [erase(it, end)] then cuts the vector at that index. *)
Section EraseRemove.
Context {A : Type}.
Variable pred : A -> option bool.

Fixpoint find_if (v : list A) : option nat :=
  match v with
  | [] => Some 0%nat
  | x :: v' =>
      b ← pred x;
      if (b : bool) then Some 0%nat else S <$> find_if v'
  end.

(** [n] is [last - first], the number of elements still to visit. *)
Fixpoint remove_if_loop (v : list A) (result first n : nat)
    : option (list A * nat) :=
  match n with
  | O => Some (v, result)
  | S n' =>
      x ← v !! first;
      b ← pred x;
      if (b : bool) then remove_if_loop v result (S first) n'
      else remove_if_loop (<[result := x]> v) (S result) (S first) n'
  end.

Definition remove_if (v : list A) : option (list A * nat) :=
  first ← find_if v;
  if decide (first = length v) then Some (v, first)
  else remove_if_loop v first (S first) (length v - S first).

Definition erase_to_end (v : list A) (first : nat) : list A := take first v.

Definition erase_remove_if (v : list A) : option (list A) :=
  '(v', new_end) ← remove_if v;
  Some (erase_to_end v' new_end).

End EraseRemove.

Section Manager.
Context {F : Type} `{Arith F}.

(** [typeid(T).hash_code()]: implementation-defined, and not promised to
    tell two types apart. *)
Variable hash_code : EntityType -> N.

(** An object of a class derived from [Entity], with its dynamic type. *)
Inductive Entity :=
  | EBall (b : Ball F)
  | EPaddle (p : Paddle F)
  | EBrick (b : Brick F).

Definition entity_type (e : Entity) : EntityType :=
  match e with EBall _ => TBall | EPaddle _ => TPaddle | EBrick _ => TBrick end.

(** [Entity::destroyed]. *)
Definition destroyed (e : Entity) : bool :=
  match e with
  | EBall b => ball_destroyed b
  | EPaddle p => paddle_destroyed p
  | EBrick b => brick_destroyed b
  end.

Definition Entity_set_destroyed (d : bool) (e : Entity) : Entity :=
  match e with
  | EBall b => EBall (Ball_set_destroyed b d)
  | EPaddle p => EPaddle (mkPaddle d (paddle_rect p) (paddle_velocity p))
  | EBrick b => EBrick (Brick_set_destroyed b d)
  end.

(** The virtual [update()]. *)
Definition Entity_update (k : Keys) (e : Entity) : Entity :=
  match e with
  | EBall b => EBall (Ball_update b)
  | EPaddle p => EPaddle (Paddle_update (key_Left k) (key_Right k) p)
  | EBrick b => EBrick (Brick_update b)
  end.

(** [entities] is the [std::vector<std::unique_ptr<Entity>>]: the addresses
    it owns, in order; [store] holds the objects at those addresses (an
    address that is not in [store] has been released).  [groupedEntities]
    is the [std::map<std::size_t, std::vector<Entity*>>]. *)
Record Manager := mkManager {
  entities : list ptr;
  groupedEntities : gmap N (list ptr);
  store : gmap ptr Entity;
}.

Definition Manager_empty : Manager := mkManager [] ∅ ∅.

(** [mPtr->destroyed]; undefined on a released address. *)
Definition ptr_destroyed (m : Manager) (p : ptr) : option bool :=
  destroyed <$> store m !! p.

(** [e.destroyed = true] through a reference to the entity at [p]. *)
Definition mark_destroyed (p : ptr) (m : Manager) : Manager :=
  mkManager (entities m) (groupedEntities m)
            (alter (Entity_set_destroyed true) p (store m)).

(** [*p = e]: assignment to the object at address [p]. *)
Definition store_set (p : ptr) (e : Entity) (m : Manager) : Manager :=
  mkManager (entities m) (groupedEntities m) (<[p := e]> (store m)).

(** [create<T>(args...)], with [e] the object [T(args...)] constructs. *)
Definition Manager_create (e : Entity) (m : Manager) : ptr * Manager :=
  let p : ptr := fresh (dom (store m)) in
  let key := hash_code (entity_type e) in
  let bucket := default [] (groupedEntities m !! key) in
  (p, mkManager (entities m ++ [p])
                (<[key := bucket ++ [p]]> (groupedEntities m))
                (<[p := e]> (store m))).

(** The objects whose owning pointer did not survive in [kept] are deleted
    (by the move-assignment that overwrites them or by [erase]). *)
Definition release (owned kept : list ptr) (s : gmap ptr Entity)
    : gmap ptr Entity :=
  foldr (fun p s => if decide (p ∈ kept) then s else delete p s) s owned.

Definition refresh_groups (m : Manager) : option (gmap N (list ptr)) :=
  kvs ← mapM (fun kv : N * list ptr =>
                v ← erase_remove_if (ptr_destroyed m) kv.2;
                Some (kv.1, v))
             (map_to_list (groupedEntities m));
  Some (list_to_map kvs).

Definition Manager_refresh (m : Manager) : option Manager :=
  g ← refresh_groups m;
  es ← erase_remove_if (ptr_destroyed m) (entities m);
  Some (mkManager es g (release (entities m) es (store m))).

Definition Manager_clear (m : Manager) : Manager := Manager_empty.

(** [getAll<T>()]: [operator[]] of the map, which adds an empty vector
    under the key when there is none. *)
Definition Manager_getAll (T : EntityType) (m : Manager) : list ptr * Manager :=
  let key := hash_code T in
  match groupedEntities m !! key with
  | Some v => (v, m)
  | None => ([], mkManager (entities m) (<[key := []]> (groupedEntities m)) (store m))
  end.

(** The invariant of section 3 of the design: the owned addresses are
    distinct and exactly the allocated ones, and every address in a bucket
    is an owned one. *)
Record Manager_wf (m : Manager) : Prop := {
  wf_nodup : NoDup (entities m);
  wf_owned : forall p, p ∈ entities m <-> is_Some (store m !! p);
  wf_grouped : forall key v p,
    groupedEntities m !! key = Some v -> p ∈ v -> p ∈ entities m;
}.

(** The owned entities that are not marked, in order: what the design
    calls the survivors of a refresh. *)
Definition alive (m : Manager) (p : ptr) : bool :=
  match store m !! p with Some e => negb (destroyed e) | None => false end.

Definition survivors (m : Manager) (v : list ptr) : list ptr :=
  filter (fun p => alive m p = true) v.

End Manager.

Arguments Entity F : clear implicits.
Arguments Manager F : clear implicits.

(* ===================================================================== *)
(** * Game *)
(* ===================================================================== *)

(** [enum class State{Paused, GameOver, InProgress, Victory};] *)
Inductive State := Paused | GameOver | InProgress | Victory.

#[export] Instance State_eq_dec : EqDecision State.
Proof. solve_decision. Defined.

(** What a frame does to the entities, in the order it does it: a virtual
    [update()] call, and a call of one of the two resolvers with whether
    the pair intersected (so that the call went past its early return).
    For a brick the record keeps [requiredHits] as it was at the call. *)
Inductive Event :=
  | EvUpdate (p : ptr)
  | EvBrickBall (brick ball : ptr) (hits : Z) (hit : bool)
  | EvPaddleBall (paddle ball : ptr) (hit : bool).

(** Whether the event is an update of an entity. *)
Definition is_update (e : Event) : bool :=
  match e with EvUpdate _ => true | _ => false end.

(** How an iteration of the [while(true)] of [run] ends. *)
Inductive Flow := Break | Continue.

(** A computation over a state that may be undefined ([None]). *)
Definition SE (S A : Type) : Type := S -> option (A * S).

#[export] Instance SE_ret {S} : MRet (SE S) := fun A x s => Some (x, s).
#[export] Instance SE_bind {S} : MBind (SE S) := fun A B f c s =>
  match c s with
  | Some (a, s') => f a s'
  | None => None
  end.

Definition gets {S A} (f : S -> A) : SE S A := fun s => Some (f s, s).
Definition modify {S} (f : S -> S) : SE S unit := fun s => Some (tt, f s).
Definition try_modify {S} (f : S -> option S) : SE S unit :=
  fun s => match f s with Some s' => Some (tt, s') | None => None end.
Definition lift_option {S A} (o : option A) : SE S A :=
  fun s => match o with Some a => Some (a, s) | None => None end.

(** [for (auto x : l) body(x);] *)
Fixpoint for_each {S A} (l : list A) (body : A -> SE S unit) : SE S unit :=
  match l with
  | [] => mret tt
  | x :: l' => body x ;; for_each l' body
  end.

Section Game.
Context {F : Type} `{Arith F}.
Variable hash_code : EntityType -> N.
Local Open Scope arith_scope.

Definition brkCountX : Z := 11.
Definition brkCountY : Z := 4.
Definition brkStartCol : Z := 1.
Definition brkStartRow : Z := 2.
Definition brkSpacing : F := of_int 3.
Definition brkOffsetX : F := of_int 22.

(** The fields of [Game] that are not rendering, and the record of what
    the frames did. *)
Record Game := mkGame {
  manager : Manager F;
  state : State;
  pausePressedLastFrame : bool;
  remainingLives : Z;
  history : list Event;
}.

(** [Game()]: the member initialisers. *)
Definition Game_new : Game := mkGame Manager_empty GameOver false 0 [].

Definition set_manager (m : Manager F) (g : Game) : Game :=
  mkGame m (state g) (pausePressedLastFrame g) (remainingLives g) (history g).
Definition set_state (st : State) (g : Game) : Game :=
  mkGame (manager g) st (pausePressedLastFrame g) (remainingLives g) (history g).
Definition set_pausePressedLastFrame (b : bool) (g : Game) : Game :=
  mkGame (manager g) (state g) b (remainingLives g) (history g).
Definition set_remainingLives (n : Z) (g : Game) : Game :=
  mkGame (manager g) (state g) (pausePressedLastFrame g) n (history g).
Definition record (e : Event) (g : Game) : Game :=
  mkGame (manager g) (state g) (pausePressedLastFrame g) (remainingLives g)
         (history g ++ [e]).

(** ** Access to the entities through their addresses *)

Definition deref (p : ptr) : SE Game (Entity F) :=
  fun g => match store (manager g) !! p with
           | Some e => Some (e, g)
           | None => None
           end.

(** [*reinterpret_cast<T*>(ptr)], used as a [T]: defined only when the
    object at [ptr] is one. *)
Definition deref_ball (p : ptr) : SE Game (Ball F) :=
  e ← deref p; match e with EBall b => mret b | _ => lift_option None end.
Definition deref_paddle (p : ptr) : SE Game (Paddle F) :=
  e ← deref p; match e with EPaddle b => mret b | _ => lift_option None end.
Definition deref_brick (p : ptr) : SE Game (Brick F) :=
  e ← deref p; match e with EBrick b => mret b | _ => lift_option None end.

(** Assignment through a reference to the live object at [p]. *)
Definition assign (p : ptr) (e : Entity F) : SE Game unit :=
  modify (fun g => set_manager (store_set p e (manager g)) g).

Definition create (e : Entity F) : SE Game ptr :=
  fun g => let '(p, m) := Manager_create hash_code e (manager g) in
           Some (p, set_manager m g).

Definition getAll (T : EntityType) : SE Game (list ptr) :=
  fun g => let '(v, m) := Manager_getAll hash_code T (manager g) in
           Some (v, set_manager m g).

Definition forEach (T : EntityType) (mFunc : ptr -> SE Game unit)
    : SE Game unit :=
  v ← getAll T; for_each v mFunc.

(** [e->update()] on the entity at [p]. *)
Definition update_entity (k : Keys) (p : ptr) : SE Game unit :=
  e ← deref p;
  modify (record (EvUpdate p)) ;;
  assign p (Entity_update k e).

(** [Manager::update()]: every owned entity, in order. *)
Definition update (k : Keys) : SE Game unit :=
  ps ← gets (fun g => entities (manager g));
  for_each ps (update_entity k).

Definition refresh : SE Game unit :=
  try_modify (fun g => m ← Manager_refresh (manager g); Some (set_manager m g)).

(** ** The calls of the two resolvers from the loops of [run] *)

Definition resolveBrickBall (ball brick : ptr) : SE Game unit :=
  mBrick ← deref_brick brick;
  mBall ← deref_ball ball;
  modify (record (EvBrickBall brick ball (requiredHits mBrick)
                              (isIntersecting mBrick mBall))) ;;
  let '(mBrick', mBall') := solveBrickBallCollision mBrick mBall in
  assign brick (EBrick mBrick') ;;
  assign ball (EBall mBall').

Definition resolvePaddleBall (ball paddle : ptr) : SE Game unit :=
  mPaddle ← deref_paddle paddle;
  mBall ← deref_ball ball;
  modify (record (EvPaddleBall paddle ball (isIntersecting mPaddle mBall))) ;;
  assign ball (EBall (solvePaddleBallCollision mPaddle mBall)).

(** ** [Game::restart] *)

Definition restart : SE Game unit :=
  modify (set_remainingLives 3) ;;
  modify (set_state Paused) ;;
  modify (fun g => set_manager (Manager_clear (manager g)) g) ;;
  for_each (seqZ 0 brkCountX) (fun iX =>
    for_each (seqZ 0 brkCountY) (fun iY =>
      let x := of_int (iX + brkStartCol) * (Brick_defWidth + brkSpacing) in
      let y := of_int (iY + brkStartRow) * (Brick_defHeight + brkSpacing) in
      brick ← create (EBrick (Brick_new (brkOffsetX + x) y));
      b ← deref_brick brick;
      assign brick (EBrick (Brick_set_requiredHits b (1 + Z.rem (iX * iY) 3))))) ;;
  create (EBall (Ball_new (of_int wndWidth / of_int 2)
                          (of_int wndHeight / of_int 2))) ;;
  create (EPaddle (Paddle_new (of_int (wndWidth / 2)) (of_int (wndHeight - 50)))) ;;
  mret tt.

(** ** One iteration of the loop of [Game::run] *)

(** The pause toggle and the restart key (lines 398-412). *)
Definition handle_input (k : Keys) : SE Game unit :=
  (if key_P k then
     pressed ← gets pausePressedLastFrame;
     (if negb pressed then
        st ← gets state;
        match st with
        | Paused => modify (set_state InProgress)
        | InProgress => modify (set_state Paused)
        | _ => mret tt
        end
      else mret tt) ;;
     modify (set_pausePressedLastFrame true)
   else modify (set_pausePressedLastFrame false)) ;;
  (if key_R k then restart else mret tt).

(** The [else] branch of the test on [state] (lines 428-474). *)
Definition simulate (k : Keys) : SE Game unit :=
  balls ← getAll TBall;
  (if decide (balls = []) then
     create (EBall (Ball_new (of_int wndWidth / of_int 2)
                             (of_int wndHeight / of_int 2))) ;;
     modify (fun g => set_remainingLives (int_pred (remainingLives g)) g)
   else mret tt) ;;
  bricks ← getAll TBrick;
  (if decide (bricks = []) then modify (set_state Victory) else mret tt) ;;
  lives ← gets remainingLives;
  (if (lives <=? 0)%Z then modify (set_state GameOver) else mret tt) ;;
  update k ;;
  forEach TBall (fun mBall =>
    forEach TBrick (fun mBrick => resolveBrickBall mBall mBrick) ;;
    forEach TPaddle (fun mPaddle => resolvePaddleBall mBall mPaddle)) ;;
  refresh.

Definition frame (k : Keys) : SE Game Flow :=
  if key_Escape k then mret Break
  else
    handle_input k ;;
    st ← gets state;
    if decide (st ≠ InProgress) then mret Continue
    else simulate k ;; mret Continue.

(** [int main()]: [Game game; game.restart(); game.run();] with the
    keyboard readings of the successive frames, up to the first [Break]. *)
Fixpoint run (ks : list Keys) : SE Game unit :=
  match ks with
  | [] => mret tt
  | k :: ks' =>
      flow ← frame k;
      match flow with Break => mret tt | Continue => run ks' end
  end.

Definition main (ks : list Keys) : option Game :=
  snd <$> (restart ;; run ks) Game_new.

(** The states the program can be in at the top of the loop. *)
Inductive reachable : Game -> Prop :=
  | reachable_restart g : restart Game_new = Some (tt, g) -> reachable g
  | reachable_frame k g g' :
      reachable g -> frame k g = Some (Continue, g') -> reachable g'.

End Game.

Arguments Game F : clear implicits.

(* ===================================================================== *)
(** * Vocabulary of the statements *)
(* ===================================================================== *)

Section Vocabulary.
Context {F : Type} `{Arith F}.

(** The brick that comes out of a resolved collision. *)
Definition hit_brick (mBrick : Brick F) : Brick F :=
  let b := Brick_set_requiredHits mBrick (int_pred (requiredHits mBrick)) in
  if (requiredHits b <=? 0)%Z then Brick_set_destroyed b true else b.

End Vocabulary.

(** The predicate [pred] is defined on every element of [v], with value
    [flag]. *)
Definition defined_on {A : Type} (pred : A -> option bool) (flag : A -> bool)
    (v : list A) : Prop :=
  Forall (fun x => pred x = Some (flag x)) v.

(* ===================================================================== *)
(** * Concrete situations *)
(* ===================================================================== *)

(** Situations of the actual game, on binary32 unless said otherwise: the
    field is 800 by 600, the paddle is 75 by 20 at height 550, the ball has
    radius 10 and the first brick of the grid sits at (85, 46). *)
Module Fixtures.

Definition f32 (z : Z) : F32.t := of_int z.

Definition ball_at (x y vx vy : Z) : Ball F32.t :=
  mkBall false (mkCircle (mkVec (f32 x) (f32 y)) Ball_defRadius)
         (mkVec (f32 vx) (f32 vy)).

Definition paddle_at (x : Z) (vx : Z) : Paddle F32.t :=
  Paddle_set_velocity_x (Paddle_new (f32 x) (f32 550)) (f32 vx).

(** The first brick, and a ball reaching it from below. *)
Definition first_brick : Brick F32.t := Brick_new (f32 85) (f32 46).
Definition ball_under_first_brick : Ball F32.t := ball_at 85 60 (-8) (-8).

(** A ball going down and left, one step before it leaves through the
    bottom left corner. *)
Definition ball_near_corner : Ball F32.t := ball_at 16 596 (-8) 8.

(** A ball going straight down through the bottom. *)
Definition ball_near_bottom : Ball F32.t := ball_at 400 596 (-8) 8.

(** The paddle after 45 frames of "left" from the middle: its left edge
    is 2.5 away from the border. *)
Definition paddle_near_left_edge : Paddle F32.t := paddle_at 40 (-8).

(** The paddle in the middle, at rest. *)
Definition paddle_at_rest : Paddle F32.t := paddle_at 400 0.

(** The paddle at 144, moving right, and the ball coming down and right on
    its right end: the centre of the ball (184) is past the paddle's edge
    (181.5) but its bounding box (from 174) is still over it. *)
Definition paddle_moving_right : Paddle F32.t := paddle_at 144 8.
Definition ball_on_right_end : Ball F32.t := ball_at 184 532 8 8.

(** The same paddle on the reals. *)
Definition real_paddle : Paddle R := Paddle_new 400%R 550%R.

(** A hash of the three types that tells them apart. *)
Definition type_hash (T : EntityType) : N :=
  match T with TBall => 1 | TPaddle => 2 | TBrick => 3 end%N.

Definition no_keys : Keys := mkKeys false false false false false.
Definition press_P : Keys := mkKeys false true false false false.

(** The game as [main] has it when it enters [run]. *)
Definition initial_game : Game F32.t :=
  match restart type_hash Game_new with
  | Some (_, g) => g
  | None => Game_new
  end.

(** Whether a frame ran to its end and recorded an update of an entity. *)
Definition frame_updated (r : option (Flow * Game F32.t)) : bool :=
  match r with
  | Some (Continue, g) => existsb is_update (history g)
  | _ => false
  end.

(** A manager with the first brick and a ball, the brick marked. *)
Definition manager_with_marked_brick : Manager F32.t :=
  let '(brick, m1) := Manager_create type_hash (EBrick first_brick) Manager_empty in
  let '(_, m2) := Manager_create type_hash (EBall ball_under_first_brick) m1 in
  mark_destroyed brick m2.

(** The game after the pause key and forty more frames without keys: the
    ball has gone up, has come back from the top border and has hit a
    brick. *)
Definition played_game : Game F32.t :=
  match main type_hash (press_P :: repeat no_keys 40) with
  | Some g => g
  | None => Game_new
  end.

(** The event is a call of the brick resolver that went past its test. *)
Definition is_brick_hit (ev : Event) : bool :=
  match ev with EvBrickBall _ _ _ hit => hit | _ => false end.

(** A game in which the ball is caught on the right end of the paddle:
    the paddle goes left for 33 frames (the pause is lifted on the first),
    waits for 37, and goes right on the 71st, when the ball arrives. *)
Definition press_P_left : Keys := mkKeys false true false true false.
Definition press_left : Keys := mkKeys false false false true false.
Definition press_right : Keys := mkKeys false false false false true.

Definition edge_hit_keys : list Keys :=
  press_P_left :: repeat press_left 32 ++ repeat no_keys 37 ++ [press_right].

Definition edge_hit_game : Game F32.t :=
  match main type_hash edge_hit_keys with
  | Some g => g
  | None => Game_new
  end.

(** A game in which the left key is held for 46 frames. *)
Definition hold_left_game : Game F32.t :=
  match main type_hash (press_P_left :: repeat press_left 45) with
  | Some g => g
  | None => Game_new
  end.

End Fixtures.

(** What [refresh] returns on a well-formed manager. *)
Definition refreshed {F : Type} (m : Manager F) : Manager F :=
  mkManager (survivors m (entities m))
            (survivors m <$> groupedEntities m)
            (release (entities m) (survivors m (entities m)) (store m)).

(** Total correctness of a computation: from a state where [P] holds it
    is defined, and [Q] holds of its result and final state. *)
Definition hoare {S A : Type} (P : S -> Prop) (c : SE S A)
    (Q : A -> S -> Prop) : Prop :=
  forall s, P s -> exists a s', c s = Some (a, s') /\ Q a s'.

Section GameVocabulary.
Context {F : Type} `{Arith F}.
Variable hash_code : EntityType -> N.

(** The vector [getAll<T>()] returns. *)
Definition bucket (T : EntityType) (m : Manager F) : list ptr :=
  default [] (groupedEntities m !! hash_code T).

(** Every address in a bucket points at a live object whose type hashes
    to the key of the bucket, and no address is there twice. *)
Record Manager_typed (m : Manager F) : Prop := {
  typed_elem : forall key v p,
    groupedEntities m !! key = Some v -> p ∈ v ->
    exists e, store m !! p = Some e /\ hash_code (entity_type e) = key;
  typed_nodup : forall key v,
    groupedEntities m !! key = Some v -> NoDup v;
}.

Definition brick_sound (b : Brick F) : Prop :=
  (1 <= requiredHits b <= int_max)%Z.

(** What holds of an entity at any point of a frame: the paddle is never
    marked, and a brick that is not marked still needs a hit. *)
Definition entity_mid (e : Entity F) : Prop :=
  match e with
  | EBall _ => True
  | EPaddle pd => paddle_destroyed pd = false
  | EBrick b => brick_destroyed b = false -> brick_sound b
  end.

(** A resolved brick collision found the brick still needing a hit. *)
Definition event_ok (ev : Event) : Prop :=
  match ev with
  | EvBrickBall _ _ hits true => (1 <= hits)%Z
  | _ => True
  end.

Record Base_inv (g : Game F) : Prop := {
  bi_wf : Manager_wf (manager g);
  bi_typed : Manager_typed (manager g);
  bi_mid : forall p e, store (manager g) !! p = Some e -> entity_mid e;
}.

(** Throughout a frame there is at most one ball and there is a paddle. *)
Record Frame_inv (g : Game F) : Prop := {
  fi_base : Base_inv g;
  fi_one_ball : (length (bucket TBall (manager g)) <= 1)%nat;
  fi_paddle : exists p, p ∈ bucket TPaddle (manager g);
}.

(** At the top of the loop, moreover, no entity is marked. *)
Record Game_inv (g : Game F) : Prop := {
  gi_frame : Frame_inv g;
  gi_alive : forall p e, store (manager g) !! p = Some e -> destroyed e = false;
}.

(** No brick is marked (between the updates and the collisions). *)
Definition bricks_alive (g : Game F) : Prop :=
  forall p b, store (manager g) !! p = Some (EBrick b) -> brick_destroyed b = false.

(** Since the history was [h], an event with property [phi] was added. *)
Definition since (h : list Event) (phi : Event -> Prop) (g : Game F) : Prop :=
  exists evs ev, history g = h ++ evs /\ ev ∈ evs /\ phi ev.

(** The state the test of [run] on [state] sees, from the state and the
    [pausePressedLastFrame] the frame starts with. *)
Definition toggled (k : Keys) (pressed : bool) (st : State) : State :=
  if key_P k && negb pressed
  then match st with
       | Paused => InProgress
       | InProgress => Paused
       | _ => st
       end
  else st.

Definition gate_state (k : Keys) (pressed : bool) (st : State) : State :=
  if key_R k then Paused else toggled k pressed st.

(** The brick and the ball after [n] calls of the resolver on them. *)
Definition repeated_hits (n : nat) (mBrick : Brick F) (mBall : Ball F)
    : Brick F * Ball F :=
  Nat.iter n (fun bp => solveBrickBallCollision bp.1 bp.2) (mBrick, mBall).

(** The event is a call of the paddle resolver. *)
Definition is_paddle_call (ev : Event) : Prop :=
  exists paddle ball hit, ev = EvPaddleBall paddle ball hit.

(** The states the steps of a frame lead to. *)
Definition updated_entity (k : Keys) (p : ptr) (e : Entity F) (g : Game F)
    : Game F :=
  set_manager (store_set p (Entity_update k e) (manager g)) (record (EvUpdate p) g).

Definition brick_ball_resolved (ball brick : ptr) (br : Brick F) (ba : Ball F)
    (g : Game F) : Game F :=
  let g1 := record (EvBrickBall brick ball (requiredHits br)
                                (isIntersecting br ba)) g in
  set_manager
    (store_set ball (EBall (solveBrickBallCollision br ba).2)
       (store_set brick (EBrick (solveBrickBallCollision br ba).1) (manager g1)))
    g1.

Definition paddle_ball_resolved (ball paddle : ptr) (pd : Paddle F) (ba : Ball F)
    (g : Game F) : Game F :=
  let g1 := record (EvPaddleBall paddle ball (isIntersecting pd ba)) g in
  set_manager
    (store_set ball (EBall (solvePaddleBallCollision pd ba)) (manager g1)) g1.

(** The assertion at the top of a frame whose history is [h]; [b] tells
    whether a ball is known to exist. *)
Definition at_top (h : list Event) (b : bool) (g : Game F) : Prop :=
  Game_inv g /\ Forall event_ok (history g) /\ history g = h
  /\ (b = true -> bucket TBall (manager g) <> []).

(** What holds while [restart] rebuilds the entities: nothing is marked,
    the fields of the game are set, and there is no ball yet. *)
Definition rebuilding (h : list Event) (g : Game F) : Prop :=
  Base_inv g
  /\ (forall p e, store (manager g) !! p = Some e -> destroyed e = false)
  /\ bucket TBall (manager g) = []
  /\ state g = Paused /\ remainingLives g = 3%Z /\ history g = h.

(** The brick [restart] constructs at column [iX] and row [iY]. *)
Definition new_brick (iX iY : Z) : Brick F :=
  Brick_new
    (fadd (brkOffsetX (F:=F))
          (fmul (of_int (iX + brkStartCol)) (fadd Brick_defWidth brkSpacing)))
    (fmul (of_int (iY + brkStartRow)) (fadd Brick_defHeight brkSpacing)).

End GameVocabulary.

(* ===================================================================== *)
(** * Vocabulary of the properties of whole games *)
(* ===================================================================== *)

(** Partial correctness: when [c] is defined from a state in [P], [Q]
    holds of its result and final state. *)
Definition partial {S A : Type} (P : S -> Prop) (c : SE S A)
    (Q : A -> S -> Prop) : Prop :=
  forall s a s', P s -> c s = Some (a, s') -> Q a s'.

(** The objects a manager owns, in the order of [entities] ([None] for an
    address that does not resolve). *)
Definition objects {F : Type} (m : Manager F) : list (option (Entity F)) :=
  (fun p => store m !! p) <$> entities m.

(** Every object in storage satisfies [phi]. *)
Definition store_all {F : Type} (phi : Entity F -> Prop) (g : Game F) : Prop :=
  forall p e, store (manager g) !! p = Some e -> phi e.

(** The fields of the game outside the manager and the record. *)
Definition scalars {F : Type} (g : Game F) : State * bool * Z :=
  (state g, pausePressedLastFrame g, remainingLives g).

(** A paddle is never marked. *)
Definition paddle_alive {F : Type} (e : Entity F) : Prop :=
  match e with EPaddle pd => paddle_destroyed pd = false | _ => True end.

#[export] Instance EntityType_eq_dec : EqDecision EntityType.
Proof. solve_decision. Defined.
#[export] Instance spec_float_eq_dec : EqDecision spec_float.
Proof. solve_decision. Defined.
#[export] Instance Vector2_eq_dec {F : Type} `{EqDecision F} : EqDecision (Vector2 F).
Proof. solve_decision. Defined.
#[export] Instance Rectangle_eq_dec {F : Type} `{EqDecision F} :
  EqDecision (Rectangle F).
Proof. solve_decision. Defined.
#[export] Instance Paddle_eq_dec {F : Type} `{EqDecision F} : EqDecision (Paddle F).
Proof. solve_decision. Defined.

Section PlayVocabulary.
Context {F : Type} `{Arith F}.
Variable hash_code : EntityType -> N.

(** ** The steps of a frame, as functions *)

(** The game after the pause handling of a frame (lines 398-409). *)
Definition input_toggled (k : Keys) (g : Game F) : Game F :=
  mkGame (manager g) (toggled k (pausePressedLastFrame g) (state g)) (key_P k)
         (remainingLives g) (history g).

(** The ball a frame creates when there is none (lines 433-439). *)
Definition spare_ball : Entity F :=
  EBall (Ball_new (fdiv (of_int wndWidth) (of_int 2))
                  (fdiv (of_int wndHeight) (of_int 2))).

Definition spawned (g : Game F) : Game F :=
  let g1 := set_manager (Manager_getAll hash_code TBall (manager g)).2 g in
  if decide (bucket hash_code TBall (manager g) = []) then
    let g2 := set_manager (Manager_create hash_code spare_ball (manager g1)).2 g1 in
    set_remainingLives (int_pred (remainingLives g2)) g2
  else g1.

(** The game after the tests for victory and game over (lines 443-448). *)
Definition judged (g : Game F) : Game F :=
  let g1 := set_manager (Manager_getAll hash_code TBrick (manager g)).2 g in
  let g2 := if decide (bucket hash_code TBrick (manager g) = [])
            then set_state Victory g1 else g1 in
  if (remainingLives g2 <=? 0)%Z then set_state GameOver g2 else g2.

(** The part of [simulate] from [manager.update()] on (lines 450-464). *)
Definition physics (k : Keys) : SE (Game F) unit :=
  update k ;;
  forEach hash_code TBall (fun mBall =>
    forEach hash_code TBrick (fun mBrick => resolveBrickBall mBall mBrick) ;;
    forEach hash_code TPaddle (fun mPaddle => resolvePaddleBall mBall mPaddle)) ;;
  refresh.

(** ** The index of the manager *)

(** The key [create] files the object at [p] under. *)
Definition key_at (m : Manager F) (p : ptr) : option N :=
  (fun e => hash_code (entity_type e)) <$> store m !! p.

(** [groupedEntities] is an index of [entities]: the vector under a key
    holds the owned addresses whose class hashes to the key, in the order
    of [entities]. *)
Definition grouped_by_type (m : Manager F) : Prop :=
  forall key, default [] (groupedEntities m !! key)
              = filter (fun p => key_at m p = Some key) (entities m).

(** The manager of the game is well formed and its index is right. *)
Definition indexed (g : Game F) : Prop :=
  Manager_wf (manager g) /\ grouped_by_type (manager g).

(** The class of the object at [p], if there is one. *)
Definition type_at (g : Game F) (p : ptr) : option EntityType :=
  entity_type <$> store (manager g) !! p.

(** The two games have the same vectors of addresses. *)
Definition same_vectors (g g' : Game F) : Prop :=
  entities (manager g') = entities (manager g)
  /\ forall T, bucket hash_code T (manager g') = bucket hash_code T (manager g).

(** The two games have the same vectors and the same classes of objects. *)
Definition alike (g g' : Game F) : Prop :=
  (forall p, type_at g' p = type_at g p) /\ same_vectors g g'.

(** One paddle, never marked, and no more bricks than [restart] makes. *)
Definition census (g : Game F) : Prop :=
  indexed g /\ store_all paddle_alive g
  /\ (exists paddle, bucket hash_code TPaddle (manager g) = [paddle])
  /\ (length (bucket hash_code TBrick (manager g)) <= 44)%nat.

(** ** What [restart] builds *)

(** The brick [restart] leaves at column [iX] and row [iY]. *)
Definition grid_brick (iX iY : Z) : Brick F :=
  Brick_set_requiredHits (new_brick iX iY) (1 + Z.rem (iX * iY) 3).

Definition grid_column (iX : Z) (rows : list Z) : list (Entity F) :=
  (fun iY => EBrick (grid_brick iX iY)) <$> rows.

Definition grid (columns : list Z) : list (Entity F) :=
  columns ≫= (fun iX => grid_column iX (seqZ 0 brkCountY)).

Definition start_paddle : Entity F :=
  EPaddle (Paddle_new (of_int (wndWidth / 2)) (of_int (wndHeight - 50))).

(** What [restart] creates, in the order it creates it. *)
Definition start_objects : list (Entity F) :=
  grid (seqZ 0 brkCountX) ++ [spare_ball; start_paddle].

(** While [restart] creates the entities: the ones created so far are [l]. *)
Definition built (h : list Event) (pressed : bool) (l : list (Entity F))
    (g : Game F) : Prop :=
  Manager_wf (manager g) /\ grouped_by_type (manager g)
  /\ objects (manager g) = Some <$> l
  /\ state g = Paused /\ remainingLives g = 3%Z
  /\ pausePressedLastFrame g = pressed /\ history g = h.

End PlayVocabulary.

(** ** The track of the paddle, on binary32 *)

Module Track.

(** The paddle of the game with its centre at [400 + 8 j] and the
    horizontal velocity [v]. *)
Definition paddle_on_grid (j v : Z) : Paddle F32.t :=
  mkPaddle false
    (mkRectangle (mkVec (Fixtures.f32 (400 + 8 * j)) (Fixtures.f32 550))
                 (mkVec (Fixtures.f32 75) (Fixtures.f32 20)))
    (mkVec (Fixtures.f32 v) (Fixtures.f32 0)).

(** Where one update takes it: one step of 8 to the left or to the right,
    unless its edge is already past the border on that side. *)
Definition grid_next (kl kr : bool) (j : Z) : Z :=
  if kl && (-46 <? j)%Z then j - 1
  else if kr && (j <? 46)%Z then j + 1
  else j.

Definition paddle_step_ok (kl kr : bool) (j : Z) : bool :=
  bool_decide
    (Paddle_update kl kr (paddle_on_grid j 0)
     = paddle_on_grid (grid_next kl kr j) (8 * (grid_next kl kr j - j))).

(** Its edges are at most 5.5 outside the field. *)
Definition paddle_edges_ok (j : Z) : bool :=
  fge (left (paddle_on_grid j 0)) (fdiv (of_int (-11)) (of_int 2))
  && fle (right (paddle_on_grid j 0)) (fdiv (of_int 1611) (of_int 2)).

Definition track_ok (j : Z) : bool :=
  paddle_step_ok true true j && paddle_step_ok true false j
  && paddle_step_ok false true j && paddle_step_ok false false j
  && paddle_edges_ok j.

End Track.

(** What holds of every entity of the game on binary32, at any time. *)
Definition in_play (e : Entity F32.t) : Prop :=
  match e with
  | EBall b => circ_radius (ball_circle b) = Ball_defRadius
  | EPaddle pd =>
      exists j v, (-46 <= j <= 46)%Z /\ (v = -8 \/ v = 0 \/ v = 8)%Z
                  /\ pd = Track.paddle_on_grid j v
  | EBrick b =>
      exists iX iY, (0 <= iX < brkCountX)%Z /\ (0 <= iY < brkCountY)%Z
        /\ brick_rect b = brick_rect (grid_brick iX iY)
        /\ (brick_destroyed b = false ->
            (1 <= requiredHits b <= requiredHits (grid_brick (F:=F32.t) iX iY))%Z)
  end.

(** ** More situations *)

Module Scenes.
Import Fixtures.

(** On the reals: the unit vector pointing up and the velocity (8, 8). *)
Definition up : Vector2 R := mkVec 0%R (-1)%R.
Definition down_right : Vector2 R := mkVec 8%R 8%R.

(** On the reals: a ball coming down on the middle of the paddle at rest. *)
Definition real_ball_on_paddle : Ball R :=
  mkBall false (mkCircle (mkVec 400%R 535%R) 10%R) down_right.

(** On the reals: a ball two pixels from the left wall, going left. *)
Definition real_ball_near_wall : Ball R :=
  mkBall false (mkCircle (mkVec 12%R 300%R) 10%R) (mkVec (-8)%R (-8)%R).

(** A manager with the first brick and a ball, after a refresh removed
    the marked brick. *)
Definition manager_after_refresh : Manager F32.t :=
  refreshed manager_with_marked_brick.

(** The first frame of a game, with the pause key down. *)
Definition first_frame : Game F32.t :=
  match frame type_hash press_P initial_game with
  | Some (_, g) => g
  | None => Game_new
  end.

Definition press_Escape : Keys := mkKeys true false false false false.

(** The game two frames in: the pause was lifted in the first frame and
    no key is down in the second; the state is [InProgress]. *)
Definition running_game : Game F32.t :=
  match main type_hash [press_P; no_keys] with
  | Some g => g
  | None => Game_new
  end.

(** A hash that does not tell the classes apart. *)
Definition constant_hash (T : EntityType) : N := 0%N.

End Scenes.

(* ##################################################################### *)
(** * Part II: proofs *)
(* ##################################################################### *)

(* ===================================================================== *)
(** * Facts about the two carriers *)
(* ===================================================================== *)

Module F32Facts.
Import F32.

Lemma SFcompare_antisym (a b : t) :
  SFcompare b a = option_map CompOpp (SFcompare a b).
Proof.
  destruct a as [sa|sa| |sa ma ea], b as [sb|sb| |sb mb eb]; simpl;
    try reflexivity;
    try (destruct sa; reflexivity); try (destruct sb; reflexivity);
    try (destruct sa, sb; reflexivity).
  destruct sa, sb; simpl; try reflexivity;
    rewrite (Z.compare_antisym ea eb);
    destruct (ea ?= eb)%Z; simpl; try reflexivity;
    rewrite (Pos.compare_cont_antisym ma mb Eq); simpl;
    try rewrite CompOpp_involutive; reflexivity.
Qed.

Lemma geb_leb (a b : t) : geb a b = SFleb b a.
Proof.
  unfold geb, SFleb. rewrite (SFcompare_antisym a b).
  destruct (SFcompare a b) as [[]|]; reflexivity.
Qed.

Lemma gtb_ltb (a b : t) : gtb a b = SFltb b a.
Proof.
  unfold gtb, SFltb. rewrite (SFcompare_antisym a b).
  destruct (SFcompare a b) as [[]|]; reflexivity.
Qed.

Lemma ltb_irrefl (a : t) : SFltb a a = false.
Proof.
  unfold SFltb. pose proof (SFcompare_antisym a a) as E.
  destruct (SFcompare a a) as [[]|]; try reflexivity. discriminate E.
Qed.

Lemma ltb_asym (a b : t) : SFltb a b = true -> SFltb b a = false.
Proof.
  unfold SFltb. rewrite (SFcompare_antisym a b).
  destruct (SFcompare a b) as [[]|]; intros; try discriminate; reflexivity.
Qed.

(** Rounding never changes the sign it is given. *)

Lemma binary_round_aux_sign p e s mx ex lx :
  has_sign s (binary_round_aux p e s mx ex lx).
Proof.
  unfold binary_round_aux.
  destruct (shr_fexp p e mx ex lx) as [mrs' e'].
  destruct (shr_fexp p e _ e' loc_Exact) as [mrs'' e''].
  destruct (shr_m mrs''); simpl; auto.
  destruct (_ <=? _)%Z; simpl; auto.
Qed.

Lemma SFmul_sign p e (x y : t) sx sy :
  has_sign sx x -> has_sign sy y -> has_sign (xorb sx sy) (SFmul p e x y).
Proof.
  destruct x as [s1|s1| |s1 m1 e1], y as [s2|s2| |s2 m2 e2]; simpl;
    intros; subst; auto.
  apply binary_round_aux_sign.
Qed.

Lemma SFabs_sign (x : t) : has_sign false (SFabs x).
Proof. destruct x; simpl; auto. Qed.

Lemma negative_not_above_zero (x : t) :
  has_sign true x -> SFltb (of_Z 0) x = false.
Proof. destruct x as [s|s| |s m e]; simpl; intros; subst; reflexivity. Qed.

Lemma positive_not_below_zero (x : t) :
  has_sign false x -> SFltb x (of_Z 0) = false.
Proof. destruct x as [s|s| |s m e]; simpl; intros; subst; reflexivity. Qed.
End F32Facts.

#[export] Instance f32_laws : ArithLaws F32.t.
Proof. constructor; [exact F32Facts.geb_leb | exact F32Facts.ltb_irrefl]. Qed.

Module ExactFacts.
Import Exact.

Lemma real_ltb_true a b : ltb a b = true <-> (a < b)%R.
Proof. unfold ltb. destruct (Rlt_dec a b); split; intros; auto; discriminate. Qed.
Lemma real_ltb_false a b : ltb a b = false <-> (b <= a)%R.
Proof.
  unfold ltb. destruct (Rlt_dec a b); split; intros; auto; try discriminate; lra.
Qed.
Lemma real_leb_true a b : leb a b = true <-> (a <= b)%R.
Proof. unfold leb. destruct (Rle_dec a b); split; intros; auto; discriminate. Qed.
Lemma real_leb_false a b : leb a b = false <-> (b < a)%R.
Proof.
  unfold leb. destruct (Rle_dec a b); split; intros; auto; try discriminate; lra.
Qed.

Lemma real_ltb_irrefl a : ltb a a = false.
Proof. apply real_ltb_false. lra. Qed.
End ExactFacts.

#[export] Instance real_laws : ArithLaws R.
Proof. constructor; [reflexivity | exact ExactFacts.real_ltb_irrefl]. Qed.

(** Turns the comparisons of a goal or hypothesis on [R] into
    propositions, for [lra]. *)
Ltac real_cmp :=
  repeat match goal with
  | H : Exact.ltb _ _ = true |- _ => apply ExactFacts.real_ltb_true in H
  | H : Exact.ltb _ _ = false |- _ => apply ExactFacts.real_ltb_false in H
  | H : Exact.leb _ _ = true |- _ => apply ExactFacts.real_leb_true in H
  | H : Exact.leb _ _ = false |- _ => apply ExactFacts.real_leb_false in H
  | |- Exact.ltb _ _ = true => apply ExactFacts.real_ltb_true
  | |- Exact.ltb _ _ = false => apply ExactFacts.real_ltb_false
  | |- Exact.leb _ _ = true => apply ExactFacts.real_leb_true
  | |- Exact.leb _ _ = false => apply ExactFacts.real_leb_false
  end.

(* ===================================================================== *)
(** * The intersection test *)
(* ===================================================================== *)

Section IntersectionFacts.
Context {F : Type} `{ArithLaws F}.

Lemma isIntersecting_sym {T1 T2 : Type} `{!Bounded T1} `{!Bounded T2}
    (mA : T1) (mB : T2) :
  isIntersecting mA mB = isIntersecting mB mA.
Proof.
  unfold isIntersecting. rewrite !fge_fle.
  destruct (fle (left mB) (right mA)), (fle (left mA) (right mB)),
           (fle (top mB) (bottom mA)), (fle (top mA) (bottom mB)); reflexivity.
Qed.

End IntersectionFacts.

(** C9. On binary32 the intersection test gives the same answer whichever
    way round the two shapes are passed, for every pair of shapes, each a
    rectangle or a circle (and whatever their coordinates, NaN and
    infinities included). *)
Theorem intersects_symmetric (A B : Shape F32.t) :
  isIntersecting A B = isIntersecting B A.
Proof. apply isIntersecting_sym. Qed.

(* ===================================================================== *)
(** * Brick against ball: which component bounces *)
(* ===================================================================== *)

Section BrickBallFacts.
Context {F : Type} `{ArithLaws F}.
Local Open Scope arith_scope.

Lemma hit_brick_rect (b : Brick F) : brick_rect (hit_brick b) = brick_rect b.
Proof. unfold hit_brick. destruct (_ <=? _)%Z; reflexivity. Qed.

Lemma overlaps_hit_brick (b : Brick F) (a : Ball F) :
  overlapLeft (hit_brick b) a = overlapLeft b a
  /\ overlapRight (hit_brick b) a = overlapRight b a
  /\ overlapTop (hit_brick b) a = overlapTop b a
  /\ overlapBottom (hit_brick b) a = overlapBottom b a.
Proof.
  unfold overlapLeft, overlapRight, overlapTop, overlapBottom; simpl.
  rewrite hit_brick_rect. auto.
Qed.

Lemma bFromLeft_hit_brick (b : Brick F) a : bFromLeft (hit_brick b) a = bFromLeft b a.
Proof.
  unfold bFromLeft. destruct (overlaps_hit_brick b a) as (-> & -> & _). reflexivity.
Qed.

Lemma bFromTop_hit_brick (b : Brick F) a : bFromTop (hit_brick b) a = bFromTop b a.
Proof.
  unfold bFromTop. destruct (overlaps_hit_brick b a) as (_ & _ & -> & ->). reflexivity.
Qed.

Lemma minOverlapX_hit_brick (b : Brick F) a : minOverlapX (hit_brick b) a = minOverlapX b a.
Proof.
  unfold minOverlapX. rewrite bFromLeft_hit_brick.
  destruct (overlaps_hit_brick b a) as (-> & -> & _). reflexivity.
Qed.

Lemma minOverlapY_hit_brick (b : Brick F) a : minOverlapY (hit_brick b) a = minOverlapY b a.
Proof.
  unfold minOverlapY. rewrite bFromTop_hit_brick.
  destruct (overlaps_hit_brick b a) as (_ & _ & -> & ->). reflexivity.
Qed.

(** The resolver on an intersecting pair, branch by branch. *)
Lemma solveBrickBallCollision_hit (b : Brick F) (a : Ball F) :
  isIntersecting b a = true ->
  solveBrickBallCollision b a =
    (hit_brick b,
     Ball_set_velocity a
       (if fabs (minOverlapX b a) <? fabs (minOverlapY b a)
        then mkVec (fabs (vec_x (ball_velocity a))
                    * (if bFromLeft b a then fneg (of_int 1) else of_int 1))
                   (vec_y (ball_velocity a))
        else mkVec (vec_x (ball_velocity a))
                   (fabs (vec_y (ball_velocity a))
                    * (if bFromTop b a then fneg (of_int 1) else of_int 1)))).
Proof.
  intros Hi. unfold solveBrickBallCollision. rewrite Hi. simpl negb. cbv iota.
  fold (hit_brick b). cbv zeta.
  rewrite minOverlapX_hit_brick, minOverlapY_hit_brick,
          bFromLeft_hit_brick, bFromTop_hit_brick.
  destruct (fabs (minOverlapX b a) <? fabs (minOverlapY b a)); reflexivity.
Qed.

Lemma solveBrickBallCollision_miss (b : Brick F) (a : Ball F) :
  isIntersecting b a = false -> solveBrickBallCollision b a = (b, a).
Proof. intros Hi. unfold solveBrickBallCollision. rewrite Hi. reflexivity. Qed.

End BrickBallFacts.

(** C5. On an intersecting brick-ball pair the resolver assigns exactly one
    component of the ball's velocity and nothing else of the ball.  The
    four overlaps are, in magnitude, [fromLeft = |ball.right - brick.left|],
    [fromRight = |brick.right - ball.left|],
    [fromTop = |ball.bottom - brick.top|] and
    [fromBottom = |brick.bottom - ball.top|].  The minimal horizontal
    overlap is [fromLeft] when it is strictly below [fromRight] (the ball
    hit the left side of the brick) and [fromRight] otherwise; neither of
    the two is below it.  Likewise the minimal vertical overlap, of
    [fromTop] and [fromBottom].  When the minimal horizontal overlap is
    strictly below the minimal vertical one, [velocity.x] becomes
    [|velocity.x|] times -1 if the left side was hit, and then it is not
    positive, or times +1 if the right side was, and then it is not
    negative: it points away from the side that was hit; [velocity.y] is
    kept.  Otherwise [velocity.y] becomes [|velocity.y|] times -1 if the
    top was hit, or +1 if the bottom was, and [velocity.x] is kept.  Equal
    magnitudes take the vertical branch. *)
Theorem brick_bounce_one_axis (mBrick : Brick F32.t) (mBall : Ball F32.t) :
  isIntersecting mBrick mBall = true ->
  let mBall' := (solveBrickBallCollision mBrick mBall).2 in
  let v := ball_velocity mBall in
  let v' := ball_velocity mBall' in
  let fromLeft := fabs (fsub (right mBall) (left mBrick)) in
  let fromRight := fabs (fsub (right mBrick) (left mBall)) in
  let fromTop := fabs (fsub (bottom mBall) (top mBrick)) in
  let fromBottom := fabs (fsub (bottom mBrick) (top mBall)) in
  let horizontal := if flt fromLeft fromRight then fromLeft else fromRight in
  let vertical := if flt fromTop fromBottom then fromTop else fromBottom in
  ball_circle mBall' = ball_circle mBall
  /\ ball_destroyed mBall' = ball_destroyed mBall
  /\ (flt fromLeft horizontal = false /\ flt fromRight horizontal = false
      /\ flt fromTop vertical = false /\ flt fromBottom vertical = false)
  /\ (flt horizontal vertical = true ->
        vec_y v' = vec_y v
        /\ vec_x v' = fmul (fabs (vec_x v))
                        (if flt fromLeft fromRight then fneg (of_int 1) else of_int 1)
        /\ (if flt fromLeft fromRight
            then flt (of_int 0) (vec_x v') = false
            else flt (vec_x v') (of_int 0) = false))
  /\ (flt horizontal vertical = false ->
        vec_x v' = vec_x v
        /\ vec_y v' = fmul (fabs (vec_y v))
                        (if flt fromTop fromBottom then fneg (of_int 1) else of_int 1)
        /\ (if flt fromTop fromBottom
            then flt (of_int 0) (vec_y v') = false
            else flt (vec_y v') (of_int 0) = false))
  /\ (horizontal = vertical -> flt horizontal vertical = false).
Proof.
  intros Hi. cbv zeta. rewrite (solveBrickBallCollision_hit _ _ Hi). cbn [snd].
  unfold minOverlapX, minOverlapY, bFromLeft, bFromTop,
    overlapLeft, overlapRight, overlapTop, overlapBottom.
  set (L := fabs (fsub (right mBall) (left mBrick))).
  set (R := fabs (fsub (right mBrick) (left mBall))).
  set (T := fabs (fsub (bottom mBall) (top mBrick))).
  set (B := fabs (fsub (bottom mBrick) (top mBall))).
  assert (Hmin : forall a b : F32.t,
            flt a (if flt a b then a else b) = false
            /\ flt b (if flt a b then a else b) = false).
  { intros a b. destruct (flt a b) eqn:E.
    - split; [apply flt_irrefl|apply F32Facts.ltb_asym, E].
    - split; [exact E|apply flt_irrefl]. }
  assert (EX : fabs (if flt L R then fsub (right mBall) (left mBrick)
                     else fsub (right mBrick) (left mBall))
               = if flt L R then L else R) by (destruct (flt L R); reflexivity).
  assert (EY : fabs (if flt T B then fsub (bottom mBall) (top mBrick)
                     else fsub (bottom mBrick) (top mBall))
               = if flt T B then T else B) by (destruct (flt T B); reflexivity).
  rewrite EX, EY.
  split; [reflexivity|]. split; [reflexivity|].
  split.
  { destruct (Hmin L R), (Hmin T B). auto. }
  split; [|split].
  - intros ->. cbn [ball_velocity Ball_set_velocity vec_x vec_y].
    split; [reflexivity|]. split; [reflexivity|].
    destruct (flt L R).
    + apply F32Facts.negative_not_above_zero.
      apply (F32Facts.SFmul_sign _ _ _ _ false true);
        [apply F32Facts.SFabs_sign | reflexivity].
    + apply F32Facts.positive_not_below_zero.
      apply (F32Facts.SFmul_sign _ _ _ _ false false);
        [apply F32Facts.SFabs_sign | reflexivity].
  - intros ->. cbn [ball_velocity Ball_set_velocity vec_x vec_y].
    split; [reflexivity|]. split; [reflexivity|].
    destruct (flt T B).
    + apply F32Facts.negative_not_above_zero.
      apply (F32Facts.SFmul_sign _ _ _ _ false true);
        [apply F32Facts.SFabs_sign | reflexivity].
    + apply F32Facts.positive_not_below_zero.
      apply (F32Facts.SFmul_sign _ _ _ _ false false);
        [apply F32Facts.SFabs_sign | reflexivity].
  - intros ->. apply flt_irrefl.
Qed.

Lemma brick_bounce_one_axis_witness :
  isIntersecting Fixtures.first_brick Fixtures.ball_under_first_brick = true
  /\ vec_x (ball_velocity (solveBrickBallCollision Fixtures.first_brick
                             Fixtures.ball_under_first_brick).2)
     = vec_x (ball_velocity Fixtures.ball_under_first_brick).
Proof.
  assert (Hi : isIntersecting Fixtures.first_brick
                 Fixtures.ball_under_first_brick = true)
    by (vm_compute; reflexivity).
  split; [exact Hi|].
  pose proof (brick_bounce_one_axis Fixtures.first_brick
                Fixtures.ball_under_first_brick Hi) as (_ & _ & _ & _ & Hv & _).
  refine (proj1 (Hv _)). vm_compute. reflexivity.
Defined.

(** In exact arithmetic the side is the one the centre of the ball is on:
    on an intersecting pair the four overlaps are not negative, and the
    overlap from the left is the smaller one exactly when the centre of
    the ball is to the left of the centre of the brick; likewise from the
    top when it is above. *)
Lemma brick_impact_side_exact (mBrick : Brick R) (mBall : Ball R) :
  isIntersecting mBrick mBall = true ->
  (0 <= overlapLeft mBrick mBall)%R /\ (0 <= overlapRight mBrick mBall)%R
  /\ (0 <= overlapTop mBrick mBall)%R /\ (0 <= overlapBottom mBrick mBall)%R
  /\ (bFromLeft mBrick mBall = true
      <-> (circ_x (ball_circle mBall) < rect_x (brick_rect mBrick))%R)
  /\ (bFromTop mBrick mBall = true
      <-> (circ_y (ball_circle mBall) < rect_y (brick_rect mBrick))%R).
Proof.
  unfold isIntersecting, bFromLeft, bFromTop, overlapLeft, overlapRight,
    overlapTop, overlapBottom.
  cbn [left right top bottom Brick_bounded Ball_bounded Rectangle_bounded
       Circle_bounded fge fle flt fabs fadd fsub fdiv of_int real_arith].
  intros Hi. repeat (apply andb_prop in Hi; destruct Hi as [Hi ?]).
  real_cmp.
  set (bx := circ_x (ball_circle mBall)) in *.
  set (by_ := circ_y (ball_circle mBall)) in *.
  set (r := circ_radius (ball_circle mBall)) in *.
  set (kx := rect_x (brick_rect mBrick)) in *.
  set (ky := rect_y (brick_rect mBrick)) in *.
  set (w := rect_width (brick_rect mBrick)) in *.
  set (h := rect_height (brick_rect mBrick)) in *.
  split; [lra|]. split; [lra|]. split; [lra|]. split; [lra|].
  rewrite !ExactFacts.real_ltb_true.
  rewrite !Rabs_pos_eq by lra. split; split; intros; lra.
Qed.

(* ===================================================================== *)
(** * Ball: leaving through the bottom *)
(* ===================================================================== *)

Section BallFacts.
Context {F : Type} `{Arith F}.
Local Open Scope arith_scope.

Lemma Ball_update_circle (b : Ball F) :
  ball_circle (Ball_update b) = ball_circle (Ball_move b (ball_velocity b)).
Proof.
  unfold Ball_update, Ball_solveBoundCollisions.
  repeat match goal with |- context [if ?c then _ else _] => destruct c end;
    reflexivity.
Qed.

Lemma Ball_update_bottom_exit (b : Ball F) :
  let b' := Ball_update b in
  (top b' <? of_int 0) = false ->
  (bottom b' >? of_int wndHeight) = true ->
  ball_destroyed b' = true
  /\ vec_y (ball_velocity b') = vec_y (ball_velocity b)
  /\ vec_x (ball_velocity b') =
       if (left b' <? of_int 0) || (right b' >? of_int wndWidth)
       then vec_x (ball_velocity b) * fneg (of_int 1)
       else vec_x (ball_velocity b).
Proof.
  cbv zeta. unfold top, bottom, left, right, Ball_bounded.
  rewrite !Ball_update_circle.
  unfold Ball_update, Ball_solveBoundCollisions.
  set (m := Ball_move b (ball_velocity b)).
  change (left m) with (left (ball_circle m)).
  change (right m) with (right (ball_circle m)).
  intros Ht Hb.
  destruct ((left (ball_circle m) <? of_int 0)
            || (right (ball_circle m) >? of_int wndWidth)) eqn:Hx.
  - change (top (Ball_set_velocity m _)) with (top (ball_circle m)).
    change (bottom (Ball_set_velocity m _)) with (bottom (ball_circle m)).
    rewrite Ht, Hb. auto.
  - change (top m) with (top (ball_circle m)).
    change (bottom m) with (bottom (ball_circle m)).
    rewrite Ht, Hb. auto.
Qed.

End BallFacts.

(** In exact arithmetic a ball of the game's radius that is below the
    field is not also above it. *)
Lemma real_ball_below_is_not_above (b : Ball R) :
  circ_radius (ball_circle b) = 10%R ->
  fgt (bottom b) (of_int wndHeight) = true ->
  flt (top b) (of_int 0) = false.
Proof.
  cbn [fgt flt of_int real_arith top bottom Ball_bounded Circle_bounded
       fadd fsub].
  unfold wndHeight. intros -> Hb. real_cmp. lra.
Qed.

(** C4 (as amended). After one update step of a ball whose bottom edge is
    then beyond the field height, and whose top edge is not above the top
    of the field (the test the update makes first), the ball is marked
    destroyed and [velocity.y] is what it was.  [velocity.x] is what it
    was only if the ball is within the left and right bounds; if it is
    also beyond one of them, [velocity.x] has been negated. *)
Theorem ball_bottom_exit (b : Ball F32.t) :
  let b' := Ball_update b in
  flt (top b') (of_int 0) = false ->
  fgt (bottom b') (of_int wndHeight) = true ->
  ball_destroyed b' = true
  /\ vec_y (ball_velocity b') = vec_y (ball_velocity b)
  /\ vec_x (ball_velocity b') =
       if flt (left b') (of_int 0) || fgt (right b') (of_int wndWidth)
       then fmul (vec_x (ball_velocity b)) (fneg (of_int 1))
       else vec_x (ball_velocity b).
Proof. apply Ball_update_bottom_exit. Qed.

Lemma ball_bottom_exit_witness :
  let b' := Ball_update Fixtures.ball_near_bottom in
  flt (top b') (of_int 0) = false
  /\ fgt (bottom b') (of_int wndHeight) = true
  /\ ball_destroyed b' = true
  /\ vec_y (ball_velocity b') = vec_y (ball_velocity Fixtures.ball_near_bottom).
Proof.
  cbv zeta.
  assert (Ht : flt (top (Ball_update Fixtures.ball_near_bottom)) (of_int 0)
               = false) by (vm_compute; reflexivity).
  assert (Hb : fgt (bottom (Ball_update Fixtures.ball_near_bottom))
                   (of_int wndHeight) = true) by (vm_compute; reflexivity).
  destruct (ball_bottom_exit Fixtures.ball_near_bottom Ht Hb) as (Hd & Hy & _).
  auto.
Defined.

(** The ball that leaves through the bottom left corner is destroyed, but
    its horizontal velocity has been reversed from -8 to 8 on the way. *)
Lemma ball_bottom_exit_counterexample :
  let b := Fixtures.ball_near_corner in
  fgt (bottom (Ball_update b)) (of_int wndHeight) = true
  /\ ball_destroyed (Ball_update b) = true
  /\ vec_x (ball_velocity b) = Fixtures.f32 (-8)
  /\ vec_x (ball_velocity (Ball_update b)) = Fixtures.f32 8
  /\ ball_velocity (Ball_update b) <> ball_velocity b.
Proof.
  cbv zeta. repeat split; try (vm_compute; reflexivity).
  vm_compute. discriminate.
Qed.

(* ===================================================================== *)
(** * Paddle: the guard on the borders *)
(* ===================================================================== *)

Section PaddleFacts.
Context {F : Type} `{Arith F}.
Local Open Scope arith_scope.

(** The three outcomes of [processPlayerInput]. *)
Lemma Paddle_update_cases (kl kr : bool) (p : Paddle F) :
  let v := vec_x (paddle_velocity (Paddle_update kl kr p)) in
  (kl = true /\ (left p >? of_int 0) = true /\ v = fneg Paddle_defVelocity)
  \/ ((kl = false \/ (left p >? of_int 0) = false)
      /\ kr = true /\ (right p <? of_int wndWidth) = true
      /\ v = Paddle_defVelocity)
  \/ ((kl = false \/ (left p >? of_int 0) = false)
      /\ (kr = false \/ (right p <? of_int wndWidth) = false)
      /\ v = of_int 0).
Proof.
  cbv zeta. unfold Paddle_update, Paddle_processPlayerInput.
  destruct kl, (left p >? of_int 0); cbn [andb];
    try (left; repeat split; reflexivity);
    destruct kr, (right p <? of_int wndWidth); cbn [andb];
    try (right; left; repeat split; auto; reflexivity);
    right; right; repeat split; auto.
Qed.

Lemma Paddle_update_rect (kl kr : bool) (p : Paddle F) :
  let p' := Paddle_update kl kr p in
  paddle_rect p' =
    mkRectangle
      (mkVec (rect_x (paddle_rect p) + vec_x (paddle_velocity p'))
             (rect_y (paddle_rect p) + vec_y (paddle_velocity p)))
      (rect_size (paddle_rect p)).
Proof.
  cbv zeta. unfold Paddle_update, Paddle_processPlayerInput.
  destruct (kl && _); [|destruct (kr && _)]; reflexivity.
Qed.

End PaddleFacts.

(** On the reals the edges of the paddle move by the horizontal velocity
    the update chose. *)
Lemma real_paddle_edges (kl kr : bool) (p : Paddle R) :
  let p' := Paddle_update kl kr p in
  left p' = (left p + vec_x (paddle_velocity p'))%R
  /\ right p' = (right p + vec_x (paddle_velocity p'))%R.
Proof.
  cbv zeta.
  change (left (Paddle_update kl kr p))
    with (left (paddle_rect (Paddle_update kl kr p))).
  change (right (Paddle_update kl kr p))
    with (right (paddle_rect (Paddle_update kl kr p))).
  change (left p) with (left (paddle_rect p)).
  change (right p) with (right (paddle_rect p)).
  rewrite Paddle_update_rect.
  cbn [left right Rectangle_bounded fadd fsub fdiv of_int real_arith].
  unfold rect_x, rect_width. cbn [rect_position rect_size vec_x vec_y].
  split; lra.
Qed.

(** How far the guard lets the paddle go, in exact arithmetic: a paddle
    inside the field ([left() >= 0] and [right() <= 800]) is after one
    update, whatever the keys, less than one step of 8 outside it:
    [left() > -8] and [right() < 808].  The guard looks at the position
    before the step: a paddle whose edge is exactly on the border is not
    moved past it, and a paddle at least one step away from a border
    stays inside; in between it overshoots. *)
Lemma paddle_overshoots_less_than_a_step (kl kr : bool) (p : Paddle R) :
  (0 <= left p)%R -> (right p <= IZR wndWidth)%R ->
  let p' := Paddle_update kl kr p in
  (- 8 < left p')%R /\ (right p' < IZR wndWidth + 8)%R
  /\ (left p = 0%R -> (0 <= left p')%R)
  /\ (right p = IZR wndWidth -> (right p' <= IZR wndWidth)%R)
  /\ ((8 <= left p)%R -> (0 <= left p')%R)
  /\ ((right p <= IZR wndWidth - 8)%R -> (right p' <= IZR wndWidth)%R).
Proof.
  intros Hl Hr. cbv zeta.
  destruct (real_paddle_edges kl kr p) as [-> ->].
  destruct (Paddle_update_cases kl kr p)
    as [(_ & Hg & ->) | [(_ & _ & Hg & ->) | (Hk1 & Hk2 & ->)]];
    unfold Paddle_defVelocity, wndWidth in *;
    cbn [fgt flt fneg of_int real_arith] in *; real_cmp.
  - repeat split; intros; lra.
  - repeat split; intros; lra.
  - repeat split; intros; lra.
Qed.

Lemma paddle_overshoots_less_than_a_step_witness :
  (0 <= left Fixtures.real_paddle)%R
  /\ (right Fixtures.real_paddle <= IZR wndWidth)%R
  /\ (- 8 < left (Paddle_update true false Fixtures.real_paddle))%R.
Proof.
  assert (Hl : (0 <= left Fixtures.real_paddle)%R).
  { unfold Fixtures.real_paddle, Paddle_new, Paddle_defWidth, Paddle_defHeight.
    cbn. lra. }
  assert (Hr : (right Fixtures.real_paddle <= IZR wndWidth)%R).
  { unfold Fixtures.real_paddle, Paddle_new, Paddle_defWidth, Paddle_defHeight,
      wndWidth. cbn. lra. }
  split; [exact Hl|]. split; [exact Hr|].
  exact (proj1 (paddle_overshoots_less_than_a_step true false
                  Fixtures.real_paddle Hl Hr)).
Defined.

(** C3 (the code at a failing input).  On binary32, the paddle centred at
    40 is inside the field: its left edge is at 2.5 and its right edge at
    77.5.  One update with the left key down moves it by the whole step of
    8, because the guard [left() > 0] looks at the position before the
    step: afterwards its left edge is at -5.5, outside the field. *)
Theorem paddle_driven_past_the_border :
  let p := Fixtures.paddle_near_left_edge in
  fge (left p) (of_int 0) = true
  /\ fle (right p) (of_int wndWidth) = true
  /\ flt (left (Paddle_update true false p)) (of_int 0) = true
  /\ fadd (left (Paddle_update true false p))
          (fdiv (of_int 11) (of_int 2)) = of_int 0.
Proof. cbv zeta. repeat split; vm_compute; reflexivity. Qed.

(* ===================================================================== *)
(** * Paddle against ball *)
(* ===================================================================== *)

(** C7 (the code at a failing input).  The ball whose centre is at 184
    intersects the paddle centred at 144 (its bounding box reaches back to
    174, the paddle extends to 181.5), and the resolver's [posFactor] for
    the pair is 40/75, above 0.5. *)
Theorem posFactor_beyond_half :
  isIntersecting Fixtures.paddle_moving_right Fixtures.ball_on_right_end = true
  /\ posFactor Fixtures.paddle_moving_right Fixtures.ball_on_right_end
     = fdiv (of_int 40) (of_int 75)
  /\ fgt (posFactor Fixtures.paddle_moving_right Fixtures.ball_on_right_end)
         (fdiv (of_int 1) (of_int 2)) = true.
Proof. repeat split; vm_compute; reflexivity. Qed.

(** C6 (the code at a failing input).  The paddle is moving right and the
    ball comes down and right, with velocity (8, 8), on its right end.  The
    pair intersects, the ball is put back above the paddle, and its new
    velocity still points down: the vertical component is about +0.99. *)
Theorem paddle_bounce_still_downward :
  let mBall' := solvePaddleBallCollision Fixtures.paddle_moving_right
                  Fixtures.ball_on_right_end in
  isIntersecting Fixtures.paddle_moving_right Fixtures.ball_on_right_end = true
  /\ ball_velocity Fixtures.ball_on_right_end
     = mkVec (Fixtures.f32 8) (Fixtures.f32 8)
  /\ flt (vec_y (ball_velocity mBall')) (of_int 0) = false
  /\ fgt (vec_y (ball_velocity mBall')) (fdiv (of_int 9) (of_int 10)) = true
  /\ flt (vec_y (ball_velocity mBall')) (of_int 1) = true.
Proof. cbv zeta. repeat split; vm_compute; reflexivity. Qed.

(** In exact arithmetic the bias of an intersecting pair is bounded by one
    half plus the ratio of the ball's radius to the paddle's width (19/30
    for the sizes of the game): the centre of the ball may be up to one
    radius past either end of the paddle. *)
Lemma posFactor_bound_exact (mPaddle : Paddle R) (mBall : Ball R) :
  (0 < rect_width (paddle_rect mPaddle))%R ->
  isIntersecting mPaddle mBall = true ->
  (Rabs (posFactor mPaddle mBall)
   <= 1 / 2 + circ_radius (ball_circle mBall) / rect_width (paddle_rect mPaddle))%R.
Proof.
  intros Hw Hi. unfold isIntersecting in Hi.
  apply andb_prop in Hi. destruct Hi as [Hi _].
  apply andb_prop in Hi. destruct Hi as [Hi _].
  apply andb_prop in Hi. destruct Hi as [H1 H2].
  cbn [fge fle real_arith left right Paddle_bounded Ball_bounded
       Rectangle_bounded Circle_bounded fadd fsub fdiv of_int] in H1, H2.
  real_cmp. unfold posFactor. cbn [fsub fdiv real_arith].
  set (w := rect_width (paddle_rect mPaddle)) in *.
  set (r := circ_radius (ball_circle mBall)) in *.
  set (d := (circ_x (ball_circle mBall) - rect_x (paddle_rect mPaddle))%R).
  assert (Hd : (- (w / 2 + r) <= d <= w / 2 + r)%R) by (unfold d; lra).
  replace (1 / 2 + r / w)%R with ((w / 2 + r) / w)%R by (field; lra).
  unfold Rdiv at 1. rewrite Rabs_mult, (Rabs_pos_eq (/ w)).
  - apply Rmult_le_compat_r; [left; apply Rinv_0_lt_compat, Hw|].
    apply Rabs_le. exact Hd.
  - left. apply Rinv_0_lt_compat, Hw.
Qed.

(** In exact arithmetic the vertical velocity after a resolved paddle
    collision, with [c] the first component of [collisionVec]. *)
Lemma paddle_bounce_exact (mPaddle : Paddle R) (mBall : Ball R) :
  isIntersecting mPaddle mBall = true ->
  let c := (posFactor mPaddle mBall + velFactor mPaddle)%R in
  let v := ball_velocity mBall in
  vec_y (ball_velocity (solvePaddleBallCollision mPaddle mBall))
  = ((vec_y v * (c * c - 4) + 4 * c * vec_x v) / (c * c + 4))%R.
Proof.
  intros Hi. cbv zeta. unfold solvePaddleBallCollision. rewrite Hi.
  cbn [negb ball_velocity Ball_set_velocity Ball_setPosition].
  set (mBall1 := Ball_setPosition mBall _ _).
  assert (E : posFactor mPaddle mBall1 = posFactor mPaddle mBall) by reflexivity.
  rewrite E. clear E. clearbody mBall1.
  unfold getReflected, getNormalized, getLength, getDotProduct, vec_sub,
    vec_scale, vec_div.
  cbn [vec_x vec_y fadd fsub fmul fdiv fneg of_int pow2 wadd wsqrt narrow
       real_arith].
  set (c := (posFactor mPaddle mBall + velFactor mPaddle)%R).
  set (L := sqrt (c * c + - (2) * - (2))).
  assert (Hpos : (0 < c * c + - (2) * - (2))%R) by nra.
  assert (HL : (L * L = c * c + 4)%R).
  { unfold L. rewrite sqrt_sqrt by lra. lra. }
  assert (HL0 : (0 < L)%R) by (apply sqrt_lt_R0, Hpos).
  clearbody L. assert (Hc : (c * c = L * L - 4)%R) by lra.
  rewrite Hc. field. lra.
Qed.

(* ===================================================================== *)
(** * The erase-remove idiom removes exactly the flagged elements *)
(* ===================================================================== *)

Section EraseRemoveFacts.
Context {A : Type} (pred : A -> option bool) (flag : A -> bool).
Local Abbreviation defined_on := (defined_on pred flag).

Local Abbreviation kept := (filter (fun x => flag x = false)).

Lemma find_if_spec (v : list A) :
  defined_on v ->
  exists first, find_if pred v = Some first
    /\ (first <= length v)%nat
    /\ kept (take first v) = take first v
    /\ (first < length v -> exists x, v !! first = Some x /\ flag x = true).
Proof.
  induction 1 as [|x v Hx Hv IH]; simpl.
  - exists 0%nat. repeat split; auto. lia.
  - rewrite Hx. simpl. destruct (flag x) eqn:Hf.
    + exists 0%nat. repeat split; auto; [lia|]. intros _. exists x. auto.
    + destruct IH as (n & -> & Hn & Hk & Hl). exists (S n). simpl.
      repeat split; [lia| |].
      * rewrite filter_cons_True by exact Hf. f_equal. exact Hk.
      * intros Hlt. apply Hl. lia.
Qed.

Lemma remove_if_loop_spec (orig : list A) :
  defined_on orig ->
  forall n v result first,
    length v = length orig ->
    (first + n = length orig)%nat ->
    (result <= first)%nat ->
    take result v = kept (take first orig) ->
    drop first v = drop first orig ->
    exists v' r,
      remove_if_loop pred v result first n = Some (v', r)
      /\ take r v' = kept orig.
Proof.
  intros Hdef. induction n as [|n IH]; intros v result first Hlen Hn Hr Ht Hd.
  - simpl. exists v, result. split; [reflexivity|].
    rewrite Ht. rewrite Nat.add_0_r in Hn. subst first.
    rewrite firstn_all. reflexivity.
  - simpl.
    assert (Hlt : (first < length orig)%nat) by lia.
    destruct (lookup_lt_is_Some_2 orig first Hlt) as [x Hx].
    assert (Hvx : v !! first = Some x).
    { rewrite <- (Nat.add_0_r first), <- lookup_drop, Hd, lookup_drop,
        Nat.add_0_r. exact Hx. }
    rewrite Hvx. simpl.
    assert (Hpx : pred x = Some (flag x)).
    { eapply (proj1 (Forall_forall _ _) Hdef), list_elem_of_lookup_2, Hx. }
    rewrite Hpx. simpl.
    assert (Htake : take (S first) orig = take first orig ++ [x])
      by (apply take_S_r, Hx).
    destruct (flag x) eqn:Hf.
    + apply IH; try lia.
      * rewrite Htake, filter_app, Ht.
        rewrite (filter_cons_False _ x) by (rewrite Hf; discriminate).
        rewrite filter_nil, app_nil_r. reflexivity.
      * replace (S first) with (first + 1)%nat by lia.
        rewrite <- !drop_drop, Hd. reflexivity.
    + apply IH; try lia.
      * rewrite length_insert. exact Hlen.
      * rewrite (take_S_r _ _ x)
          by (apply list_lookup_insert_eq; lia).
        rewrite take_insert_ge by lia.
        rewrite Htake, filter_app, Ht.
        rewrite (filter_cons_True _ x) by exact Hf.
        rewrite filter_nil. reflexivity.
      * rewrite drop_insert_lt by lia.
        replace (S first) with (first + 1)%nat by lia.
        rewrite <- !drop_drop, Hd. reflexivity.
Qed.

Lemma remove_if_spec (v : list A) :
  defined_on v ->
  exists v' r, remove_if pred v = Some (v', r) /\ take r v' = kept v.
Proof.
  intros Hdef. unfold remove_if.
  destruct (find_if_spec v Hdef) as (first & -> & Hle & Hk & Hx). simpl.
  destruct (decide (first = length v)) as [->|Hne].
  - exists v, (length v). split; [reflexivity|].
    rewrite firstn_all in Hk |- *. symmetry. exact Hk.
  - destruct Hx as (x & Hx & Hf); [lia|].
    apply (remove_if_loop_spec v Hdef); try lia.
    + rewrite (take_S_r _ _ x) by exact Hx.
      rewrite filter_app, Hk.
      rewrite (filter_cons_False _ x) by (rewrite Hf; discriminate).
      rewrite filter_nil, app_nil_r. reflexivity.
    + reflexivity.
Qed.

Lemma erase_remove_if_spec (v : list A) :
  defined_on v -> erase_remove_if pred v = Some (kept v).
Proof.
  intros Hdef. unfold erase_remove_if, erase_to_end.
  destruct (remove_if_spec v Hdef) as (v' & r & -> & Hk). simpl.
  rewrite Hk. reflexivity.
Qed.

End EraseRemoveFacts.

(* ===================================================================== *)
(** * Manager: deferred destruction *)
(* ===================================================================== *)

Section ManagerFacts.
Context {F : Type}.
Implicit Types (m : Manager F) (p : ptr) (v : list ptr).

Lemma mapM_total {A B} (f : A -> option B) (h : A -> B) (l : list A) :
  Forall (fun x => f x = Some (h x)) l -> mapM f l = Some (h <$> l).
Proof.
  induction 1 as [|x l Hx _ IH]; [reflexivity|].
  cbn. rewrite Hx. cbn. rewrite IH. reflexivity.
Qed.

(** Marking touches the objects, not the vectors that point at them. *)
Lemma marks_keep_vectors (ps : list ptr) m :
  entities (foldr mark_destroyed m ps) = entities m
  /\ groupedEntities (foldr mark_destroyed m ps) = groupedEntities m.
Proof. induction ps as [|p ps [IH1 IH2]]; simpl; auto. Qed.

Lemma getAll_marks hash_code (T : EntityType) (ps : list ptr) m :
  (Manager_getAll hash_code T (foldr mark_destroyed m ps)).1
  = (Manager_getAll hash_code T m).1.
Proof.
  unfold Manager_getAll. rewrite (proj2 (marks_keep_vectors ps m)).
  destruct (groupedEntities m !! hash_code T); reflexivity.
Qed.

(** On an owned address the flag read by [refresh] is defined. *)
Lemma ptr_destroyed_owned m v :
  (forall p, p ∈ v -> is_Some (store m !! p)) ->
  defined_on (ptr_destroyed m) (fun p => negb (alive m p)) v.
Proof.
  intros Hv. apply Forall_forall. intros p Hp.
  destruct (Hv p Hp) as [e He]. unfold ptr_destroyed, alive. rewrite He.
  simpl. rewrite negb_involutive. reflexivity.
Qed.

Lemma erase_remove_survivors m v :
  (forall p, p ∈ v -> is_Some (store m !! p)) ->
  erase_remove_if (ptr_destroyed m) v = Some (survivors m v).
Proof.
  intros Hv.
  rewrite (erase_remove_if_spec _ _ _ (ptr_destroyed_owned m v Hv)).
  f_equal. unfold survivors. apply list_filter_iff. intros p.
  destruct (alive m p); simpl; split; congruence.
Qed.

Lemma refresh_groups_survivors m :
  (forall key v p, groupedEntities m !! key = Some v -> p ∈ v ->
                   is_Some (store m !! p)) ->
  refresh_groups m = Some (survivors m <$> groupedEntities m).
Proof.
  intros Hg. unfold refresh_groups.
  assert (E : mapM (fun kv : N * list ptr =>
                      v ← erase_remove_if (ptr_destroyed m) kv.2;
                      Some (kv.1, v))
                   (map_to_list (groupedEntities m))
              = Some (fmap (M:=list) (prod_map (@Datatypes.id N) (survivors m))
                        (map_to_list (groupedEntities m)))).
  { apply mapM_total, Forall_forall. intros [key v] Hkv. cbn [fst snd].
    rewrite erase_remove_survivors; [reflexivity|].
    intros p Hp. eapply Hg; [|exact Hp].
    apply elem_of_map_to_list. exact Hkv. }
  rewrite E. cbn. rewrite list_to_map_fmap, list_to_map_to_list. reflexivity.
Qed.

Lemma release_lookup (owned kept : list ptr) (s : gmap ptr (Entity F)) p :
  release owned kept s !! p =
    if decide (p ∈ owned /\ p ∉ kept) then None else s !! p.
Proof.
  unfold release. induction owned as [|q owned IH]; cbn [foldr].
  - rewrite decide_False; [reflexivity|]. intros [Hin _]. inversion Hin.
  - destruct (decide (q ∈ kept)) as [Hq|Hq].
    + rewrite IH.
      destruct (decide (p ∈ owned /\ p ∉ kept)) as [Hd1|Hd1],
               (decide (p ∈ q :: owned /\ p ∉ kept)) as [Hd2|Hd2];
        try reflexivity; exfalso; set_solver.
    + destruct (decide (p = q)) as [->|Hpq].
      * rewrite lookup_delete_eq, decide_True; [reflexivity|set_solver].
      * rewrite lookup_delete_ne by congruence. rewrite IH.
        destruct (decide (p ∈ owned /\ p ∉ kept)) as [Hd1|Hd1],
                 (decide (p ∈ q :: owned /\ p ∉ kept)) as [Hd2|Hd2];
          try reflexivity; exfalso; set_solver.
Qed.

Lemma elem_of_survivors m v p :
  p ∈ survivors m v <-> alive m p = true /\ p ∈ v.
Proof. unfold survivors. rewrite list_elem_of_filter. reflexivity. Qed.

Lemma alive_Some m p :
  alive m p = true <-> exists e, store m !! p = Some e /\ destroyed e = false.
Proof.
  unfold alive. destruct (store m !! p) as [e|]; split.
  - intros Ha. exists e. split; [reflexivity|].
    destruct (destroyed e); [discriminate|reflexivity].
  - intros (e' & [= <-] & ->). reflexivity.
  - discriminate.
  - intros (e' & [=] & _).
Qed.

Lemma Manager_refresh_wf m :
  Manager_wf m -> Manager_refresh m = Some (refreshed m).
Proof.
  intros [Hnd Hown Hgrp]. unfold Manager_refresh.
  rewrite refresh_groups_survivors.
  - cbn. rewrite erase_remove_survivors; [reflexivity|].
    intros p Hp. apply Hown, Hp.
  - intros key v p Hkv Hp. apply Hown. eapply Hgrp; eauto.
Qed.

Lemma refreshed_store m p :
  Manager_wf m ->
  store (refreshed m) !! p = if alive m p then store m !! p else None.
Proof.
  intros [Hnd Hown Hgrp]. unfold refreshed. cbn [store].
  rewrite release_lookup.
  destruct (alive m p) eqn:Ha.
  - rewrite decide_False; [reflexivity|].
    intros [Hin Hout]. apply Hout, elem_of_survivors. auto.
  - destruct (decide _) as [_|Hn]; [reflexivity|].
    destruct (store m !! p) as [e|] eqn:He; [|reflexivity].
    exfalso. apply Hn. split.
    + apply Hown. rewrite He. eauto.
    + rewrite elem_of_survivors. intros [Ha' _]. congruence.
Qed.

Lemma refreshed_wf m : Manager_wf m -> Manager_wf (refreshed m).
Proof.
  intros Hwf. pose proof Hwf as [Hnd Hown Hgrp]. split.
  - apply NoDup_filter, Hnd.
  - intros p. rewrite refreshed_store by exact Hwf.
    cbn [entities refreshed]. rewrite elem_of_survivors. split.
    + intros [Ha Hp]. rewrite Ha. apply Hown, Hp.
    + destruct (alive m p); intros Hs; [|destruct Hs; discriminate].
      split; [reflexivity|]. apply Hown, Hs.
  - intros key v p. cbn [groupedEntities entities refreshed].
    rewrite lookup_fmap. destruct (groupedEntities m !! key) as [v0|] eqn:Hk;
      [|discriminate].
    intros [= <-]. rewrite !elem_of_survivors. intros [Ha Hp].
    split; [exact Ha|]. eapply Hgrp; eauto.
Qed.

Lemma refreshed_nothing_destroyed m p e :
  Manager_wf m -> store (refreshed m) !! p = Some e -> destroyed e = false.
Proof.
  intros Hwf. rewrite refreshed_store by exact Hwf.
  destruct (alive m p) eqn:Ha; [|discriminate].
  apply alive_Some in Ha. destruct Ha as (e' & -> & Hd). congruence.
Qed.

End ManagerFacts.

(** C1.  Marking entities destroyed, any number of them, leaves the length
    of [getAll<T>()] as it was for every [T].  A call of [refresh()] on a
    manager that satisfies its invariant is defined, and afterwards the
    authoritative collection and every bucket hold exactly the entities
    they held that were not marked, in the order they had; every address
    they hold points at an entity whose flag is false, and no marked
    entity is left in storage either. *)
Theorem destruction_is_deferred {F : Type} (hash_code : EntityType -> N)
    (m : Manager F) :
  Manager_wf m ->
  (forall (ps : list ptr) (T : EntityType),
     length (Manager_getAll hash_code T (foldr mark_destroyed m ps)).1
     = length (Manager_getAll hash_code T m).1)
  /\ exists m',
       Manager_refresh m = Some m'
       /\ entities m' = survivors m (entities m)
       /\ entities m' `sublist_of` entities m
       /\ (forall key,
             groupedEntities m' !! key
             = survivors m <$> groupedEntities m !! key)
       /\ (forall key v, groupedEntities m' !! key = Some v ->
             exists v0, groupedEntities m !! key = Some v0
                        /\ v `sublist_of` v0)
       /\ (forall p, p ∈ entities m' ->
             exists e, store m' !! p = Some e /\ destroyed e = false)
       /\ (forall key v p, groupedEntities m' !! key = Some v -> p ∈ v ->
             exists e, store m' !! p = Some e /\ destroyed e = false)
       /\ (forall p e, store m' !! p = Some e -> destroyed e = false)
       /\ Manager_wf m'.
Proof.
  intros Hwf. split.
  { intros ps T. rewrite getAll_marks. reflexivity. }
  exists (refreshed m). pose proof (refreshed_wf m Hwf) as Hwf'.
  split; [apply Manager_refresh_wf, Hwf|].
  split; [reflexivity|].
  split; [apply sublist_filter|].
  split; [intros key; apply lookup_fmap|].
  split.
  { intros key v. cbn [groupedEntities refreshed]. rewrite lookup_fmap.
    destruct (groupedEntities m !! key) as [v0|]; [|discriminate].
    intros [= <-]. exists v0. split; [reflexivity|apply sublist_filter]. }
  assert (Hent : forall p, p ∈ entities (refreshed m) ->
            exists e, store (refreshed m) !! p = Some e /\ destroyed e = false).
  { intros p Hp. destruct (proj1 (wf_owned _ Hwf' p) Hp) as [e He].
    exists e. split; [exact He|].
    exact (refreshed_nothing_destroyed m p e Hwf He). }
  split; [exact Hent|].
  split.
  { intros key v p Hk Hp. apply Hent. eapply (wf_grouped _ Hwf'); eauto. }
  split; [|exact Hwf'].
  intros p e. apply refreshed_nothing_destroyed, Hwf.
Qed.

(* ===================================================================== *)
(** * Reasoning about computations *)
(* ===================================================================== *)

Section HoareRules.
Context {S : Type}.
Implicit Types (P : S -> Prop).

Lemma hoare_ret {A} P (a : A) (Q : A -> S -> Prop) :
  (forall s, P s -> Q a s) -> hoare P (mret a) Q.
Proof. intros HQ s Hs. exists a, s. split; [reflexivity|auto]. Qed.

Lemma hoare_bind {A B} P (c : SE S A) (f : A -> SE S B) Q R :
  hoare P c Q -> (forall a, hoare (Q a) (f a) R) -> hoare P (c ≫= f) R.
Proof.
  intros Hc Hf s Hs. destruct (Hc s Hs) as (a & s1 & E1 & Ha).
  destruct (Hf a s1 Ha) as (b & s2 & E2 & Hb).
  exists b, s2. split; [|exact Hb].
  unfold mbind, SE_bind. rewrite E1. exact E2.
Qed.

Lemma hoare_consequence {A} P P' (c : SE S A) (Q Q' : A -> S -> Prop) :
  hoare P' c Q' -> (forall s, P s -> P' s) ->
  (forall a s, Q' a s -> Q a s) -> hoare P c Q.
Proof.
  intros Hc HP HQ s Hs. destruct (Hc s (HP s Hs)) as (a & s' & E & Ha).
  exists a, s'. auto.
Qed.

Lemma hoare_gets {A} P (f : S -> A) (Q : A -> S -> Prop) :
  (forall s, P s -> Q (f s) s) -> hoare P (gets f) Q.
Proof. intros HQ s Hs. exists (f s), s. split; [reflexivity|auto]. Qed.

Lemma hoare_modify P (f : S -> S) (Q : unit -> S -> Prop) :
  (forall s, P s -> Q tt (f s)) -> hoare P (modify f) Q.
Proof. intros HQ s Hs. exists tt, (f s). split; [reflexivity|auto]. Qed.

(** The loop rule: [I rest] holds when [rest] is still to be visited. *)
Lemma hoare_for_each {A} (I : list A -> S -> Prop) (body : A -> SE S unit)
    (l : list A) :
  (forall done x rest, l = done ++ x :: rest ->
     hoare (I (x :: rest)) (body x) (fun _ => I rest)) ->
  hoare (I l) (for_each l body) (fun _ => I []).
Proof.
  intros Hbody. 
  assert (G : forall rest done, l = done ++ rest ->
            hoare (I rest) (for_each rest body) (fun _ => I [])).
  { induction rest as [|x rest IH]; intros done E.
    - apply hoare_ret. auto.
    - simpl. eapply hoare_bind.
      + eapply Hbody. exact E.
      + intros []. apply (IH (done ++ [x])). rewrite <- app_assoc. exact E. }
  apply (G l []). reflexivity.
Qed.

End HoareRules.

(* ===================================================================== *)
(** * Manager: the invariant under creation, lookup and assignment *)
(* ===================================================================== *)

Section ManagerInvariant.
Context {F : Type} `{Arith F}.
Variable hash_code : EntityType -> N.
Implicit Types (m : Manager F) (p : ptr) (e : Entity F).

Lemma Manager_empty_wf : Manager_wf (Manager_empty (F:=F)).
Proof.
  split; cbn.
  - constructor.
  - intros p. rewrite lookup_empty. split; [intros Hp; inversion Hp|].
    intros [? [=]].
  - intros key v p. rewrite lookup_empty. discriminate.
Qed.

Lemma Manager_empty_typed : Manager_typed hash_code (Manager_empty (F:=F)).
Proof. split; intros key v; cbn; rewrite lookup_empty; discriminate. Qed.

(** The address [create] hands out is not in use. *)
Lemma create_fresh e m : store m !! (Manager_create hash_code e m).1 = None.
Proof. cbn. apply not_elem_of_dom, is_fresh. Qed.

Lemma create_store e m :
  store (Manager_create hash_code e m).2
  = <[(Manager_create hash_code e m).1 := e]> (store m).
Proof. reflexivity. Qed.

Lemma create_entities e m :
  entities (Manager_create hash_code e m).2
  = entities m ++ [(Manager_create hash_code e m).1].
Proof. reflexivity. Qed.

Lemma create_bucket e m (T : EntityType) :
  bucket hash_code T (Manager_create hash_code e m).2
  = bucket hash_code T m
    ++ (if decide (hash_code T = hash_code (entity_type e))
        then [(Manager_create hash_code e m).1] else []).
Proof.
  unfold bucket. cbn [Manager_create snd fst groupedEntities].
  destruct (decide _) as [E|E].
  - rewrite E, lookup_insert_eq. reflexivity.
  - rewrite lookup_insert_ne by congruence. rewrite app_nil_r. reflexivity.
Qed.

Lemma create_wf e m : Manager_wf m -> Manager_wf (Manager_create hash_code e m).2.
Proof.
  intros [Hnd Hown Hgrp]. pose proof (create_fresh e m) as Hfresh.
  set (p := (Manager_create hash_code e m).1) in *.
  assert (Hp : p ∉ entities m).
  { intros Hin. apply Hown in Hin. rewrite Hfresh in Hin. destruct Hin; discriminate. }
  split.
  - rewrite create_entities. apply NoDup_app. split; [exact Hnd|].
    split; [|apply NoDup_singleton].
    intros q Hq Hq'. apply list_elem_of_singleton in Hq'. subst q. auto.
  - intros q. rewrite create_entities, create_store. fold p.
    rewrite elem_of_app, list_elem_of_singleton, lookup_insert_is_Some, Hown.
    destruct (decide (p = q)); naive_solver.
  - intros key v q. rewrite create_entities. fold p.
    cbn [Manager_create snd groupedEntities].
    destruct (decide (key = hash_code (entity_type e))) as [->|Hk].
    + rewrite lookup_insert_eq. intros [= <-]. rewrite !elem_of_app.
      intros [Hq|Hq]; [left|right; exact Hq].
      destruct (groupedEntities m !! hash_code (entity_type e)) as [v0|] eqn:E;
        cbn in Hq; [eapply Hgrp; eauto|inversion Hq].
    + rewrite lookup_insert_ne by congruence. intros Hv Hq.
      apply elem_of_app. left. eapply Hgrp; eauto.
Qed.

Lemma create_typed e m :
  Manager_wf m -> Manager_typed hash_code m ->
  Manager_typed hash_code (Manager_create hash_code e m).2.
Proof.
  intros [Hnd Hown Hgrp] [Hel Hno]. pose proof (create_fresh e m) as Hfresh.
  set (p := (Manager_create hash_code e m).1) in *.
  assert (Hold : forall key v q, groupedEntities m !! key = Some v -> q ∈ v ->
                                 q <> p).
  { intros key v q Hv Hq ->. apply (Hgrp _ _ _ Hv), Hown in Hq.
    rewrite Hfresh in Hq. destruct Hq; discriminate. }
  split.
  - intros key v q. rewrite create_store. fold p.
    cbn [Manager_create snd groupedEntities].
    destruct (decide (key = hash_code (entity_type e))) as [->|Hk].
    + rewrite lookup_insert_eq. intros [= <-]. rewrite elem_of_app.
      intros [Hq|Hq].
      * destruct (groupedEntities m !! hash_code (entity_type e)) as [v0|] eqn:E;
          cbn in Hq; [|inversion Hq].
        rewrite lookup_insert_ne by (intros ->; eapply Hold; eauto).
        eapply Hel; eauto.
      * apply list_elem_of_singleton in Hq. subst q.
        rewrite lookup_insert_eq. eauto.
    + rewrite lookup_insert_ne by congruence. intros Hv Hq.
      rewrite lookup_insert_ne by (intros ->; eapply Hold; eauto).
      eapply Hel; eauto.
  - intros key v. cbn [Manager_create snd groupedEntities].
    destruct (decide (key = hash_code (entity_type e))) as [->|Hk].
    + rewrite lookup_insert_eq. intros [= <-].
      destruct (groupedEntities m !! hash_code (entity_type e)) as [v0|] eqn:E;
        cbn; [|apply NoDup_singleton].
      apply NoDup_app. split; [eapply Hno; eauto|].
      split; [|apply NoDup_singleton].
      intros q Hq Hq'. apply list_elem_of_singleton in Hq'. subst q.
      eapply Hold; eauto.
    + rewrite lookup_insert_ne by congruence. apply Hno.
Qed.

(** [getAll] returns the bucket and changes nothing one can observe. *)
Lemma getAll_fst T m : (Manager_getAll hash_code T m).1 = bucket hash_code T m.
Proof.
  unfold Manager_getAll, bucket.
  destruct (groupedEntities m !! hash_code T); reflexivity.
Qed.

Lemma getAll_store T m : store (Manager_getAll hash_code T m).2 = store m.
Proof.
  unfold Manager_getAll. destruct (groupedEntities m !! hash_code T); reflexivity.
Qed.

Lemma getAll_entities T m : entities (Manager_getAll hash_code T m).2 = entities m.
Proof.
  unfold Manager_getAll. destruct (groupedEntities m !! hash_code T); reflexivity.
Qed.

Lemma getAll_grouped T m key v :
  groupedEntities (Manager_getAll hash_code T m).2 !! key = Some v ->
  groupedEntities m !! key = Some v \/ v = [].
Proof.
  unfold Manager_getAll.
  destruct (groupedEntities m !! hash_code T) eqn:E; cbn; [auto|].
  destruct (decide (key = hash_code T)) as [->|Hk].
  - rewrite lookup_insert_eq. intros [= <-]. auto.
  - rewrite lookup_insert_ne by congruence. auto.
Qed.

Lemma getAll_bucket T T' m :
  bucket hash_code T' (Manager_getAll hash_code T m).2 = bucket hash_code T' m.
Proof.
  unfold Manager_getAll, bucket.
  destruct (groupedEntities m !! hash_code T) eqn:E; cbn; [reflexivity|].
  destruct (decide (hash_code T' = hash_code T)) as [->|Hk].
  - rewrite lookup_insert_eq, E. reflexivity.
  - rewrite lookup_insert_ne by congruence. reflexivity.
Qed.

Lemma getAll_wf T m : Manager_wf m -> Manager_wf (Manager_getAll hash_code T m).2.
Proof.
  intros [Hnd Hown Hgrp]. split.
  - rewrite getAll_entities. exact Hnd.
  - intros p. rewrite getAll_entities, getAll_store. apply Hown.
  - intros key v p Hv Hp. rewrite getAll_entities.
    destruct (getAll_grouped _ _ _ _ Hv) as [Hv'| ->]; [eauto|inversion Hp].
Qed.

Lemma getAll_typed T m :
  Manager_typed hash_code m -> Manager_typed hash_code (Manager_getAll hash_code T m).2.
Proof.
  intros [Hel Hno]. split.
  - intros key v p Hv Hp. rewrite getAll_store.
    destruct (getAll_grouped _ _ _ _ Hv) as [Hv'| ->]; [eauto|inversion Hp].
  - intros key v Hv.
    destruct (getAll_grouped _ _ _ _ Hv) as [Hv'| ->]; [eauto|constructor].
Qed.

Lemma store_set_wf p e m :
  is_Some (store m !! p) -> Manager_wf m -> Manager_wf (store_set p e m).
Proof.
  intros Hp [Hnd Hown Hgrp]. split; cbn; auto.
  intros q. rewrite lookup_insert_is_Some, Hown.
  destruct (decide (p = q)) as [->|]; naive_solver.
Qed.

Lemma store_set_typed p e e' m :
  store m !! p = Some e -> entity_type e' = entity_type e ->
  Manager_typed hash_code m -> Manager_typed hash_code (store_set p e' m).
Proof.
  intros Hp Ht [Hel Hno]. split; cbn; auto.
  intros key v q Hv Hq. destruct (Hel _ _ _ Hv Hq) as (e0 & He0 & Hk).
  destruct (decide (p = q)) as [->|Hpq].
  - rewrite lookup_insert_eq. exists e'. split; [reflexivity|]. congruence.
  - rewrite lookup_insert_ne by exact Hpq. eauto.
Qed.

End ManagerInvariant.

(* ===================================================================== *)
(** * Game: the steps of a frame *)
(* ===================================================================== *)

Section GameSteps.
Context {F : Type} `{Arith F}.
Variable hash_code : EntityType -> N.
Hypothesis hash_inj : forall T T', hash_code T = hash_code T' -> T = T'.
Implicit Types (g : Game F) (p : ptr) (e : Entity F) (h : list Event).

Local Abbreviation Base_inv := (Base_inv hash_code).
Local Abbreviation Frame_inv := (Frame_inv hash_code).
Local Abbreviation Game_inv := (Game_inv hash_code).

(** ** What the primitive steps compute *)

Lemma deref_run g p e :
  store (manager g) !! p = Some e -> deref p g = Some (e, g).
Proof. intros E. unfold deref. rewrite E. reflexivity. Qed.

Lemma deref_ball_run g p b :
  store (manager g) !! p = Some (EBall b) -> deref_ball p g = Some (b, g).
Proof.
  intros E. unfold deref_ball, mbind, SE_bind. rewrite (deref_run _ _ _ E).
  reflexivity.
Qed.

Lemma deref_paddle_run g p b :
  store (manager g) !! p = Some (EPaddle b) -> deref_paddle p g = Some (b, g).
Proof.
  intros E. unfold deref_paddle, mbind, SE_bind. rewrite (deref_run _ _ _ E).
  reflexivity.
Qed.

Lemma deref_brick_run g p b :
  store (manager g) !! p = Some (EBrick b) -> deref_brick p g = Some (b, g).
Proof.
  intros E. unfold deref_brick, mbind, SE_bind. rewrite (deref_run _ _ _ E).
  reflexivity.
Qed.

Lemma create_run e g :
  create hash_code e g
  = Some ((Manager_create hash_code e (manager g)).1,
          set_manager (Manager_create hash_code e (manager g)).2 g).
Proof. reflexivity. Qed.

Lemma getAll_run T g :
  getAll hash_code T g
  = Some (bucket hash_code T (manager g),
          set_manager (Manager_getAll hash_code T (manager g)).2 g).
Proof.
  unfold getAll. rewrite <- getAll_fst.
  destruct (Manager_getAll hash_code T (manager g)); reflexivity.
Qed.

(** Sequencing after a step whose result is known. *)
Lemma bind_run {S A B} (c : SE S A) (f : A -> SE S B) s a s' :
  c s = Some (a, s') -> (c ≫= f) s = f a s'.
Proof. intros E. unfold mbind, SE_bind. rewrite E. reflexivity. Qed.

(** ** The invariants only look at the manager *)

Lemma Base_inv_ext g g' : manager g' = manager g -> Base_inv g -> Base_inv g'.
Proof. intros E [? ? ?]. split; rewrite E; assumption. Qed.

Lemma Frame_inv_ext g g' : manager g' = manager g -> Frame_inv g -> Frame_inv g'.
Proof.
  intros E [? ? ?]. split; [eapply Base_inv_ext; eauto| |]; rewrite E; assumption.
Qed.

Lemma Game_inv_ext g g' : manager g' = manager g -> Game_inv g -> Game_inv g'.
Proof.
  intros E [? ?]. split; [eapply Frame_inv_ext; eauto|]. rewrite E. assumption.
Qed.

(** ** Buckets hold what their type says *)

Lemma bucket_elem T (m : Manager F) p :
  p ∈ bucket hash_code T m ->
  exists v, groupedEntities m !! hash_code T = Some v /\ p ∈ v.
Proof.
  unfold bucket.
  destruct (groupedEntities m !! hash_code T) as [v|]; cbn.
  - eauto.
  - intros Hp. inversion Hp.
Qed.

Lemma bucket_typed T (m : Manager F) p :
  Manager_typed hash_code m -> p ∈ bucket hash_code T m ->
  exists e, store m !! p = Some e /\ entity_type e = T.
Proof.
  intros Ht Hp. destruct (bucket_elem _ _ _ Hp) as (v & Hv & Hpv).
  destruct (typed_elem _ _ Ht _ _ _ Hv Hpv) as (e & He & Hk).
  exists e. split; [exact He|]. apply hash_inj, Hk.
Qed.

Lemma bucket_owned T (m : Manager F) p :
  Manager_wf m -> p ∈ bucket hash_code T m -> p ∈ entities m.
Proof.
  intros Hwf Hp. destruct (bucket_elem _ _ _ Hp) as (v & Hv & Hpv).
  eapply wf_grouped; eauto.
Qed.

Lemma bucket_nodup T (m : Manager F) :
  Manager_typed hash_code m -> NoDup (bucket hash_code T m).
Proof.
  intros Ht. unfold bucket.
  destruct (groupedEntities m !! hash_code T) as [v|] eqn:E; cbn.
  - eapply typed_nodup; eauto.
  - constructor.
Qed.

Lemma bucket_ball g p :
  Base_inv g -> p ∈ bucket hash_code TBall (manager g) ->
  exists b, store (manager g) !! p = Some (EBall b).
Proof.
  intros Hb Hp. destruct (bucket_typed _ _ _ (bi_typed _ _ Hb) Hp) as ([] & He & Ht);
    try discriminate. eauto.
Qed.

Lemma bucket_paddle g p :
  Base_inv g -> p ∈ bucket hash_code TPaddle (manager g) ->
  exists b, store (manager g) !! p = Some (EPaddle b).
Proof.
  intros Hb Hp. destruct (bucket_typed _ _ _ (bi_typed _ _ Hb) Hp) as ([] & He & Ht);
    try discriminate. eauto.
Qed.

Lemma bucket_brick g p :
  Base_inv g -> p ∈ bucket hash_code TBrick (manager g) ->
  exists b, store (manager g) !! p = Some (EBrick b).
Proof.
  intros Hb Hp. destruct (bucket_typed _ _ _ (bi_typed _ _ Hb) Hp) as ([] & He & Ht);
    try discriminate. eauto.
Qed.

(** ** Assignment and recording keep the invariants *)

Lemma Base_inv_store_set g p e e' :
  Base_inv g -> store (manager g) !! p = Some e ->
  entity_type e' = entity_type e -> entity_mid e' ->
  Base_inv (set_manager (store_set p e' (manager g)) g).
Proof.
  intros [Hwf Hty Hmid] Hp Ht Hm. split; cbn [manager set_manager].
  - apply store_set_wf; [rewrite Hp; eauto|exact Hwf].
  - eapply store_set_typed; eauto.
  - intros q e0. cbn. destruct (decide (p = q)) as [->|Hpq].
    + rewrite lookup_insert_eq. intros [= <-]. exact Hm.
    + rewrite lookup_insert_ne by exact Hpq. apply Hmid.
Qed.

Lemma Frame_inv_store_set g p e e' :
  Frame_inv g -> store (manager g) !! p = Some e ->
  entity_type e' = entity_type e -> entity_mid e' ->
  Frame_inv (set_manager (store_set p e' (manager g)) g).
Proof.
  intros [Hb H1 Hp] Hs Ht Hm. split; [eapply Base_inv_store_set; eauto| |];
    assumption.
Qed.

Lemma Frame_inv_record g ev : Frame_inv g -> Frame_inv (record ev g).
Proof. apply Frame_inv_ext. reflexivity. Qed.

Lemma since_record h phi g ev : since h phi g -> since h phi (record ev g).
Proof.
  intros (evs & ev0 & E & Hin & Hphi). exists (evs ++ [ev]), ev0.
  cbn. rewrite E, app_assoc. split; [reflexivity|].
  split; [apply elem_of_app; auto|exact Hphi].
Qed.

Lemma since_new h (phi : Event -> Prop) g ev :
  h `prefix_of` history g -> phi ev -> since h phi (record ev g).
Proof.
  intros [evs E] Hphi. exists (evs ++ [ev]), ev. cbn. rewrite E, app_assoc.
  split; [reflexivity|]. split; [|exact Hphi].
  apply elem_of_app. right. apply list_elem_of_singleton. reflexivity.
Qed.

Lemma since_ext h phi g g' :
  history g' = history g -> since h phi g -> since h phi g'.
Proof. intros E (evs & ev & E' & ?). exists evs, ev. rewrite E. auto. Qed.

Lemma since_prefix h phi g : since h phi g -> h `prefix_of` history g.
Proof. intros (evs & ev & E & _). exists evs. exact E. Qed.

(** ** The virtual update keeps type and soundness *)

Lemma Entity_update_type k e : entity_type (Entity_update k e) = entity_type e.
Proof. destruct e; reflexivity. Qed.

Lemma Paddle_update_destroyed kl kr (pd : Paddle F) :
  paddle_destroyed (Paddle_update kl kr pd) = paddle_destroyed pd.
Proof.
  unfold Paddle_update, Paddle_processPlayerInput.
  destruct (kl && _); [|destruct (kr && _)]; reflexivity.
Qed.

Lemma Entity_update_mid k e : entity_mid (Entity_update k e) <-> entity_mid e.
Proof.
  destruct e as [b|pd|b]; cbn [Entity_update entity_mid]; [tauto| |].
  - rewrite Paddle_update_destroyed. tauto.
  - unfold brick_sound. cbn. tauto.
Qed.

End GameSteps.

(* ===================================================================== *)
(** * Game: the update pass *)
(* ===================================================================== *)

Section GameUpdate.
Context {F : Type} `{Arith F}.
Variable hash_code : EntityType -> N.
Hypothesis hash_inj : forall T T', hash_code T = hash_code T' -> T = T'.
Implicit Types (g : Game F) (p : ptr) (e : Entity F) (h : list Event).

Local Abbreviation Frame_inv := (Frame_inv hash_code).
Local Abbreviation Game_inv := (Game_inv hash_code).

Lemma update_entity_run k p e g :
  store (manager g) !! p = Some e ->
  update_entity k p g = Some (tt, updated_entity k p e g).
Proof.
  intros E. unfold update_entity. rewrite (bind_run _ _ _ _ _ (deref_run _ _ _ E)).
  reflexivity.
Qed.

Lemma updated_entity_bricks_alive k p e g :
  store (manager g) !! p = Some e ->
  bricks_alive g -> bricks_alive (updated_entity k p e g).
Proof.
  intros E Hb q b. cbn. destruct (decide (p = q)) as [->|Hpq].
  - rewrite lookup_insert_eq. destruct e as [b0|pd|b0]; cbn; intros [= <-].
    cbn. eapply Hb, E.
  - rewrite lookup_insert_ne by exact Hpq. apply Hb.
Qed.

Lemma updated_entity_frame k p e g :
  store (manager g) !! p = Some e ->
  Frame_inv g -> Frame_inv (updated_entity k p e g).
Proof.
  intros E Hf. unfold updated_entity.
  apply (Frame_inv_store_set hash_code (record (EvUpdate p) g) p e).
  - apply Frame_inv_record, Hf.
  - exact E.
  - apply Entity_update_type.
  - apply Entity_update_mid. eapply bi_mid; [apply Hf|exact E].
Qed.

Lemma update_spec k h :
  hoare (fun g => Game_inv g /\ Forall event_ok (history g) /\ history g = h
                  /\ bucket hash_code TBall (manager g) <> [])
        (update k)
        (fun _ g' => Frame_inv g' /\ bricks_alive g'
                     /\ Forall event_ok (history g')
                     /\ since h (fun ev => is_update ev = true) g'
                     /\ bucket hash_code TBall (manager g') <> []).
Proof.
  intros g ([Hf Halive] & Hok & Hh & Hball).
  unfold update. rewrite (bind_run _ _ g (entities (manager g)) g eq_refl).
  set (ps := entities (manager g)).
  set (I := fun (rest : list ptr) (g' : Game F) =>
    Frame_inv g' /\ bricks_alive g' /\ Forall event_ok (history g')
    /\ entities (manager g') = ps
    /\ groupedEntities (manager g') = groupedEntities (manager g)
    /\ h `prefix_of` history g'
    /\ exists done, ps = done ++ rest
         /\ (done <> [] -> since h (fun ev => is_update ev = true) g')).
  assert (Hbody : forall done x rest, ps = done ++ x :: rest ->
            hoare (I (x :: rest)) (update_entity k x) (fun _ => I rest)).
  { intros done x rest Hps g1 (Hf1 & Hb1 & Hok1 & He1 & Hg1 & Hpre1 & _).
    assert (Hx : x ∈ entities (manager g1)).
    { rewrite He1, Hps. apply elem_of_app. right. apply elem_of_cons. auto. }
    apply (wf_owned _ (bi_wf _ _ (fi_base _ _ Hf1))) in Hx. destruct Hx as [e E].
    exists tt, (updated_entity k x e g1). split; [apply update_entity_run, E|].
    split; [apply updated_entity_frame; auto|].
    split; [apply updated_entity_bricks_alive; auto|].
    split; [cbn; apply Forall_app; split; [exact Hok1|repeat constructor]|].
    split; [exact He1|]. split; [exact Hg1|].
    split; [cbn; apply prefix_app_r, Hpre1|].
    exists (done ++ [x]). split; [rewrite <- app_assoc; exact Hps|].
    intros _. unfold updated_entity. apply since_ext with (g := record (EvUpdate x) g1);
      [reflexivity|]. apply since_new; [exact Hpre1|reflexivity]. }
  destruct (hoare_for_each I (update_entity k) ps Hbody g) as ([] & g' & E & HI).
  { split; [exact Hf|]. split.
    { intros q b Hq. apply (Halive q (EBrick b) Hq). }
    split; [exact Hok|]. split; [reflexivity|]. split; [reflexivity|].
    split; [rewrite Hh; reflexivity|]. exists []. split; [reflexivity|]. congruence. }
  exists tt, g'. split; [exact E|].
  destruct HI as (Hf' & Hb' & Hok' & He' & Hg' & Hpre' & done & Hdone & Hsince).
  rewrite app_nil_r in Hdone. subst done.
  assert (Hbk : bucket hash_code TBall (manager g')
                = bucket hash_code TBall (manager g))
    by (unfold bucket; rewrite Hg'; reflexivity).
  split; [exact Hf'|]. split; [exact Hb'|]. split; [exact Hok'|].
  split; [|rewrite Hbk; exact Hball].
  apply Hsince. intros Hnil.
  destruct (bucket hash_code TBall (manager g)) as [|b l] eqn:Eb; [congruence|].
  assert (Hin : b ∈ entities (manager g)).
  { apply (bucket_owned hash_code TBall); [apply Hf|]. rewrite Eb.
    apply elem_of_cons. auto. }
  fold ps in Hin. rewrite Hnil in Hin. inversion Hin.
Qed.

End GameUpdate.

(* ===================================================================== *)
(** * Game: the collision pass *)
(* ===================================================================== *)

Lemma int_pred_exact (n : Z) :
  (int_min < n <= int_max)%Z -> int_pred n = (n - 1)%Z.
Proof.
  unfold int_pred, int_wrap, int_min, int_max. intros Hn.
  rewrite Z.mod_small by lia. lia.
Qed.

Section GameCollisions.
Context {F : Type} `{Arith F}.
Variable hash_code : EntityType -> N.
Hypothesis hash_inj : forall T T', hash_code T = hash_code T' -> T = T'.
Implicit Types (g : Game F) (p : ptr) (e : Entity F) (h : list Event).

Local Abbreviation Frame_inv := (Frame_inv hash_code).
Local Abbreviation Game_inv := (Game_inv hash_code).

(** A brick that was not marked and needed a hit comes out of the resolver
    either marked or still needing one. *)
Lemma solveBrickBallCollision_mid (br : Brick F) (ba : Ball F) :
  brick_destroyed br = false -> brick_sound br ->
  entity_mid (EBrick (solveBrickBallCollision br ba).1).
Proof.
  intros Hd [Hlo Hhi]. unfold solveBrickBallCollision.
  destruct (isIntersecting br ba); cbn [negb fst entity_mid].
  - rewrite int_pred_exact by (unfold int_min; lia).
    cbn [requiredHits Brick_set_requiredHits].
    destruct (Z.leb_spec (requiredHits br - 1) 0); cbn.
    + discriminate.
    + intros _. unfold brick_sound. cbn. lia.
  - intros _. split; assumption.
Qed.

(** ** Looking a bucket up *)

Lemma Frame_inv_getAll T g :
  Frame_inv g ->
  Frame_inv (set_manager (Manager_getAll hash_code T (manager g)).2 g).
Proof.
  intros [[Hwf Hty Hmid] H1 Hp]. split; [split|..]; cbn [manager set_manager].
  - apply getAll_wf, Hwf.
  - apply getAll_typed, Hty.
  - rewrite getAll_store. exact Hmid.
  - rewrite getAll_bucket. exact H1.
  - rewrite getAll_bucket. exact Hp.
Qed.

(** ** Brick against ball *)

Lemma resolveBrickBall_run ball brick br ba g :
  store (manager g) !! brick = Some (EBrick br) ->
  store (manager g) !! ball = Some (EBall ba) ->
  resolveBrickBall ball brick g
  = Some (tt, brick_ball_resolved ball brick br ba g).
Proof.
  intros Ebr Eba. unfold resolveBrickBall.
  rewrite (bind_run _ _ _ _ _ (deref_brick_run _ _ _ Ebr)).
  rewrite (bind_run _ _ _ _ _ (deref_ball_run _ _ _ Eba)).
  unfold brick_ball_resolved.
  destruct (solveBrickBallCollision br ba) as [br' ba']. reflexivity.
Qed.

Lemma brick_ball_resolved_frame ball brick br ba g :
  store (manager g) !! brick = Some (EBrick br) ->
  store (manager g) !! ball = Some (EBall ba) ->
  brick_destroyed br = false ->
  Frame_inv g -> Frame_inv (brick_ball_resolved ball brick br ba g).
Proof.
  intros Ebr Eba Hd Hf. unfold brick_ball_resolved. cbv zeta.
  set (g1 := record _ g).
  assert (Hne : brick <> ball) by congruence.
  pose proof (Frame_inv_store_set hash_code g1 brick (EBrick br)
                (EBrick (solveBrickBallCollision br ba).1)
                (Frame_inv_record _ _ _ Hf) Ebr eq_refl) as Hf1.
  assert (Hm : entity_mid (EBrick br)) by (eapply bi_mid; [apply Hf|exact Ebr]).
  specialize (Hf1 (solveBrickBallCollision_mid br ba Hd (Hm Hd))).
  set (g2 := set_manager _ g1) in Hf1.
  apply (Frame_inv_store_set hash_code g2 ball (EBall ba)); auto.
  - cbn. rewrite lookup_insert_ne by exact Hne. exact Eba.
  - exact I.
Qed.

Lemma brick_pass_spec ball h :
  hoare (fun g => Frame_inv g /\ bricks_alive g /\ Forall event_ok (history g)
                  /\ since h (fun ev => is_update ev = true) g
                  /\ ball ∈ bucket hash_code TBall (manager g))
        (forEach hash_code TBrick (fun mBrick => resolveBrickBall ball mBrick))
        (fun _ g' => Frame_inv g' /\ Forall event_ok (history g')
                     /\ since h (fun ev => is_update ev = true) g'
                     /\ ball ∈ bucket hash_code TBall (manager g')).
Proof.
  intros g (Hf & Hb & Hok & Hs & Hball).
  unfold forEach. rewrite (bind_run _ _ _ _ _ (getAll_run _ _ _)).
  set (g0 := set_manager _ g).
  assert (Hf0 : Frame_inv g0) by apply Frame_inv_getAll, Hf.
  assert (Hst0 : store (manager g0) = store (manager g))
    by apply getAll_store.
  assert (Hbk0 : forall T, bucket hash_code T (manager g0)
                           = bucket hash_code T (manager g))
    by (intros T; apply getAll_bucket).
  set (v := bucket hash_code TBrick (manager g)).
  set (I := fun (rest : list ptr) (g' : Game F) =>
    Frame_inv g' /\ Forall event_ok (history g')
    /\ groupedEntities (manager g') = groupedEntities (manager g0)
    /\ since h (fun ev => is_update ev = true) g'
    /\ NoDup rest
    /\ forall q br, q ∈ rest -> store (manager g') !! q = Some (EBrick br) ->
                    brick_destroyed br = false).
  assert (Hbucket : forall g' T,
            groupedEntities (manager g') = groupedEntities (manager g0) ->
            bucket hash_code T (manager g') = bucket hash_code T (manager g)).
  { intros g' T E. rewrite <- Hbk0. unfold bucket. rewrite E. reflexivity. }
  assert (Hbody : forall done x rest, v = done ++ x :: rest ->
            hoare (I (x :: rest)) (resolveBrickBall ball x) (fun _ => I rest)).
  { intros done x rest Hv g1 (Hf1 & Hok1 & Hg1 & Hs1 & Hnd1 & Hal1).
    assert (Hx : x ∈ bucket hash_code TBrick (manager g1)).
    { rewrite (Hbucket g1 TBrick Hg1). fold v. rewrite Hv.
      apply elem_of_app. right. apply elem_of_cons. auto. }
    assert (Hb1 : ball ∈ bucket hash_code TBall (manager g1))
      by (rewrite (Hbucket g1 TBall Hg1); exact Hball).
    destruct (bucket_brick hash_code hash_inj g1 x (fi_base _ _ Hf1) Hx) as [br Ebr].
    destruct (bucket_ball hash_code hash_inj g1 ball (fi_base _ _ Hf1) Hb1) as [ba Eba].
    assert (Hd : brick_destroyed br = false).
    { apply (Hal1 x br); [apply elem_of_cons; auto|exact Ebr]. }
    exists tt, (brick_ball_resolved ball x br ba g1).
    split; [apply resolveBrickBall_run; assumption|].
    split; [apply brick_ball_resolved_frame; assumption|].
    split.
    { cbn. apply Forall_app. split; [exact Hok1|]. repeat constructor.
      cbn. destruct (isIntersecting br ba); [|exact Logic.I].
      assert (Hm : entity_mid (EBrick br))
        by (eapply bi_mid; [apply Hf1|exact Ebr]).
      apply (Hm Hd). }
    split; [exact Hg1|].
    split.
    { unfold brick_ball_resolved. cbv zeta.
      eapply since_ext; [|apply since_record, Hs1]. reflexivity. }
    apply NoDup_cons in Hnd1. destruct Hnd1 as [Hxr Hnd1].
    split; [exact Hnd1|].
    intros q brq Hq. cbn.
    destruct (decide (ball = q)) as [->|Hbq].
    { rewrite lookup_insert_eq. discriminate. }
    rewrite lookup_insert_ne by exact Hbq.
    destruct (decide (x = q)) as [->|Hxq]; [contradiction|].
    rewrite lookup_insert_ne by exact Hxq.
    intros Eq. apply (Hal1 q brq); [apply elem_of_cons; auto|exact Eq]. }
  destruct (hoare_for_each I _ v Hbody g0) as ([] & g' & E & HI).
  { split; [exact Hf0|]. split; [exact Hok|]. split; [reflexivity|].
    split; [eapply since_ext; [|exact Hs]; reflexivity|].
    split; [apply (bucket_nodup hash_code), Hf|].
    intros q br _ Eq. rewrite Hst0 in Eq. eapply Hb, Eq. }
  exists tt, g'. split; [exact E|].
  destruct HI as (Hf' & Hok' & Hg' & Hs' & _).
  split; [exact Hf'|]. split; [exact Hok'|]. split; [exact Hs'|].
  rewrite (Hbucket g' TBall Hg'). exact Hball.
Qed.

End GameCollisions.

Section GamePaddlePass.
Context {F : Type} `{Arith F}.
Variable hash_code : EntityType -> N.
Hypothesis hash_inj : forall T T', hash_code T = hash_code T' -> T = T'.
Implicit Types (g : Game F) (p : ptr) (e : Entity F) (h : list Event).

Local Abbreviation Frame_inv := (Frame_inv hash_code).
Local Abbreviation Game_inv := (Game_inv hash_code).

Lemma resolvePaddleBall_run ball paddle pd ba g :
  store (manager g) !! paddle = Some (EPaddle pd) ->
  store (manager g) !! ball = Some (EBall ba) ->
  resolvePaddleBall ball paddle g
  = Some (tt, paddle_ball_resolved ball paddle pd ba g).
Proof.
  intros Epd Eba. unfold resolvePaddleBall.
  rewrite (bind_run _ _ _ _ _ (deref_paddle_run _ _ _ Epd)).
  rewrite (bind_run _ _ _ _ _ (deref_ball_run _ _ _ Eba)).
  reflexivity.
Qed.

Lemma paddle_ball_resolved_frame ball paddle pd ba g :
  store (manager g) !! ball = Some (EBall ba) ->
  Frame_inv g -> Frame_inv (paddle_ball_resolved ball paddle pd ba g).
Proof.
  intros Eba Hf. unfold paddle_ball_resolved. cbv zeta.
  apply (Frame_inv_store_set hash_code _ ball (EBall ba)).
  - apply Frame_inv_record, Hf.
  - exact Eba.
  - reflexivity.
  - exact I.
Qed.

Lemma paddle_pass_spec ball h :
  hoare (fun g => Frame_inv g /\ Forall event_ok (history g)
                  /\ since h (fun ev => is_update ev = true) g
                  /\ ball ∈ bucket hash_code TBall (manager g))
        (forEach hash_code TPaddle (fun mPaddle => resolvePaddleBall ball mPaddle))
        (fun _ g' => Frame_inv g' /\ Forall event_ok (history g')
                     /\ since h (fun ev => is_update ev = true) g'
                     /\ since h is_paddle_call g').
Proof.
  intros g (Hf & Hok & Hs & Hball).
  unfold forEach. rewrite (bind_run _ _ _ _ _ (getAll_run _ _ _)).
  set (g0 := set_manager _ g).
  assert (Hf0 : Frame_inv g0) by apply Frame_inv_getAll, Hf.
  assert (Hbk0 : forall T, bucket hash_code T (manager g0)
                           = bucket hash_code T (manager g))
    by (intros T; apply getAll_bucket).
  set (v := bucket hash_code TPaddle (manager g)).
  set (I := fun (rest : list ptr) (g' : Game F) =>
    Frame_inv g' /\ Forall event_ok (history g')
    /\ groupedEntities (manager g') = groupedEntities (manager g0)
    /\ since h (fun ev => is_update ev = true) g'
    /\ exists done, v = done ++ rest
         /\ (done <> [] -> since h is_paddle_call g')).
  assert (Hbucket : forall g' T,
            groupedEntities (manager g') = groupedEntities (manager g0) ->
            bucket hash_code T (manager g') = bucket hash_code T (manager g)).
  { intros g' T E. rewrite <- Hbk0. unfold bucket. rewrite E. reflexivity. }
  assert (Hbody : forall done x rest, v = done ++ x :: rest ->
            hoare (I (x :: rest)) (resolvePaddleBall ball x) (fun _ => I rest)).
  { intros done x rest Hv g1 (Hf1 & Hok1 & Hg1 & Hs1 & _).
    assert (Hx : x ∈ bucket hash_code TPaddle (manager g1)).
    { rewrite (Hbucket g1 TPaddle Hg1). fold v. rewrite Hv.
      apply elem_of_app. right. apply elem_of_cons. auto. }
    assert (Hb1 : ball ∈ bucket hash_code TBall (manager g1))
      by (rewrite (Hbucket g1 TBall Hg1); exact Hball).
    destruct (bucket_paddle hash_code hash_inj g1 x (fi_base _ _ Hf1) Hx) as [pd Epd].
    destruct (bucket_ball hash_code hash_inj g1 ball (fi_base _ _ Hf1) Hb1) as [ba Eba].
    exists tt, (paddle_ball_resolved ball x pd ba g1).
    split; [apply resolvePaddleBall_run; assumption|].
    split; [apply paddle_ball_resolved_frame; assumption|].
    split.
    { cbn. apply Forall_app. split; [exact Hok1|]. repeat constructor. }
    split; [exact Hg1|].
    split.
    { unfold paddle_ball_resolved. cbv zeta.
      eapply since_ext; [|apply since_record, Hs1]. reflexivity. }
    exists (done ++ [x]). split; [rewrite <- app_assoc; exact Hv|].
    intros _. unfold paddle_ball_resolved. cbv zeta.
    eapply since_ext; [|apply since_new]; [reflexivity| |].
    - apply (since_prefix _ _ _ Hs1).
    - unfold is_paddle_call. eauto. }
  destruct (hoare_for_each I _ v Hbody g0) as ([] & g' & E & HI).
  { split; [exact Hf0|]. split; [exact Hok|]. split; [reflexivity|].
    split; [eapply since_ext; [|exact Hs]; reflexivity|].
    exists []. split; [reflexivity|congruence]. }
  exists tt, g'. split; [exact E|].
  destruct HI as (Hf' & Hok' & Hg' & Hs' & done & Hdone & Hp').
  rewrite app_nil_r in Hdone. subst done.
  split; [exact Hf'|]. split; [exact Hok'|]. split; [exact Hs'|].
  apply Hp'. destruct (fi_paddle _ _ Hf) as [p Hp]. fold v in Hp.
  intros Hnil. rewrite Hnil in Hp. inversion Hp.
Qed.

(** The two nested loops over the balls. *)
Lemma collisions_spec h :
  hoare (fun g => Frame_inv g /\ bricks_alive g /\ Forall event_ok (history g)
                  /\ since h (fun ev => is_update ev = true) g
                  /\ bucket hash_code TBall (manager g) <> [])
        (forEach hash_code TBall (fun mBall =>
           forEach hash_code TBrick (fun mBrick => resolveBrickBall mBall mBrick) ;;
           forEach hash_code TPaddle (fun mPaddle => resolvePaddleBall mBall mPaddle)))
        (fun _ g' => Frame_inv g' /\ Forall event_ok (history g')
                     /\ since h (fun ev => is_update ev = true) g'
                     /\ since h is_paddle_call g').
Proof.
  intros g (Hf & Hb & Hok & Hs & Hne).
  unfold forEach at 1. rewrite (bind_run _ _ _ _ _ (getAll_run _ _ _)).
  set (g0 := set_manager _ g).
  assert (Hf0 : Frame_inv g0) by apply Frame_inv_getAll, Hf.
  assert (Hst0 : store (manager g0) = store (manager g)) by apply getAll_store.
  assert (Hbk0 : bucket hash_code TBall (manager g0)
                 = bucket hash_code TBall (manager g)) by apply getAll_bucket.
  pose proof (fi_one_ball _ _ Hf) as Hone.
  destruct (bucket hash_code TBall (manager g)) as [|ball [|? ?]] eqn:Eb;
    [congruence| |cbn in Hone; lia].
  cbn [for_each].
  assert (Hpre : Frame_inv g0 /\ bricks_alive g0 /\ Forall event_ok (history g0)
                 /\ since h (fun ev => is_update ev = true) g0
                 /\ ball ∈ bucket hash_code TBall (manager g0)).
  { split; [exact Hf0|]. split.
    { intros q br Eq. rewrite Hst0 in Eq. eapply Hb, Eq. }
    split; [exact Hok|]. split; [eapply since_ext; [|exact Hs]; reflexivity|].
    rewrite Hbk0. apply elem_of_cons. auto. }
  destruct (brick_pass_spec hash_code hash_inj ball h g0 Hpre) as ([] & g1 & E1 & H1).
  destruct (paddle_pass_spec ball h g1 H1) as ([] & g2 & E2 & H2).
  exists tt, g2. split; [|exact H2].
  rewrite (bind_run _ _ _ tt g2); [reflexivity|].
  rewrite (bind_run _ _ _ _ _ E1). exact E2.
Qed.

End GamePaddlePass.

(* ===================================================================== *)
(** * Game: refresh, spawning and the whole simulation step *)
(* ===================================================================== *)

Section GameSimulate.
Context {F : Type} `{Arith F}.
Variable hash_code : EntityType -> N.
Hypothesis hash_inj : forall T T', hash_code T = hash_code T' -> T = T'.
Implicit Types (g : Game F) (p : ptr) (e : Entity F) (h : list Event).
Local Abbreviation at_top := (at_top hash_code).

Local Abbreviation Base_inv := (Base_inv hash_code).
Local Abbreviation Frame_inv := (Frame_inv hash_code).
Local Abbreviation Game_inv := (Game_inv hash_code).

(** ** refresh *)

Lemma refresh_run g :
  Manager_wf (manager g) ->
  refresh g = Some (tt, set_manager (refreshed (manager g)) g).
Proof.
  intros Hwf. unfold refresh, try_modify.
  rewrite (Manager_refresh_wf _ Hwf). reflexivity.
Qed.

Lemma refreshed_bucket T (m : Manager F) :
  bucket hash_code T (refreshed m) = survivors m (bucket hash_code T m).
Proof.
  unfold bucket. cbn [groupedEntities refreshed]. rewrite lookup_fmap.
  destruct (groupedEntities m !! hash_code T); reflexivity.
Qed.

Lemma refreshed_typed (m : Manager F) :
  Manager_wf m -> Manager_typed hash_code m ->
  Manager_typed hash_code (refreshed m).
Proof.
  intros Hwf [Hel Hno]. split.
  - intros key v p. cbn [groupedEntities refreshed]. rewrite lookup_fmap.
    destruct (groupedEntities m !! key) as [v0|] eqn:Ev; [|discriminate].
    intros [= <-]. rewrite elem_of_survivors. intros [Ha Hp].
    rewrite refreshed_store by exact Hwf. rewrite Ha. eapply Hel; eauto.
  - intros key v. cbn [groupedEntities refreshed]. rewrite lookup_fmap.
    destruct (groupedEntities m !! key) as [v0|] eqn:Ev; [|discriminate].
    intros [= <-]. apply NoDup_filter. eapply Hno; eauto.
Qed.

Lemma refreshed_game_inv g :
  Frame_inv g -> Game_inv (set_manager (refreshed (manager g)) g).
Proof.
  intros [[Hwf Hty Hmid] Hone [pd Hpd]].
  assert (Hst : forall p e, store (refreshed (manager g)) !! p = Some e ->
                            store (manager g) !! p = Some e).
  { intros p e. rewrite refreshed_store by exact Hwf.
    destruct (alive _ p); [auto|discriminate]. }
  split; [split; [split|..]|]; cbn [manager set_manager].
  - apply refreshed_wf, Hwf.
  - apply refreshed_typed; assumption.
  - intros p e Hp. eapply Hmid, Hst, Hp.
  - rewrite refreshed_bucket. unfold survivors.
    etransitivity; [apply length_filter|exact Hone].
  - exists pd. rewrite refreshed_bucket. apply elem_of_survivors.
    split; [|exact Hpd].
    destruct (bucket_typed hash_code hash_inj _ _ _ Hty Hpd) as (e & He & Ht).
    apply alive_Some. exists e. split; [exact He|].
    specialize (Hmid _ _ He). destruct e; try discriminate. exact Hmid.
  - intros p e. apply refreshed_nothing_destroyed, Hwf.
Qed.

(** ** create *)

Lemma Base_inv_create e g :
  Base_inv g -> entity_mid e ->
  Base_inv (set_manager (Manager_create hash_code e (manager g)).2 g).
Proof.
  intros [Hwf Hty Hmid] Hm. split; cbn [manager set_manager].
  - apply create_wf, Hwf.
  - apply create_typed; assumption.
  - intros q e0. rewrite create_store.
    destruct (decide ((Manager_create hash_code e (manager g)).1 = q)) as [->|Hq].
    + rewrite lookup_insert_eq. intros [= <-]. exact Hm.
    + rewrite lookup_insert_ne by exact Hq. apply Hmid.
Qed.

Lemma Game_inv_create e g :
  Game_inv g -> destroyed e = false -> entity_mid e ->
  (entity_type e = TBall -> bucket hash_code TBall (manager g) = []) ->
  Game_inv (set_manager (Manager_create hash_code e (manager g)).2 g).
Proof.
  intros [[Hb Hone [pd Hpd]] Hal] Hd Hm Hnone.
  split; [split|]; cbn [manager set_manager].
  - apply Base_inv_create; assumption.
  - rewrite create_bucket. destruct (decide _) as [E|E].
    + apply hash_inj in E. rewrite Hnone by congruence. cbn. lia.
    + rewrite app_nil_r. exact Hone.
  - exists pd. rewrite create_bucket. apply elem_of_app. auto.
  - intros q e0. rewrite create_store.
    destruct (decide ((Manager_create hash_code e (manager g)).1 = q)) as [->|Hq].
    + rewrite lookup_insert_eq. intros [= <-]. exact Hd.
    + rewrite lookup_insert_ne by exact Hq. apply Hal.
Qed.

Lemma Game_inv_getAll T g :
  Game_inv g -> Game_inv (set_manager (Manager_getAll hash_code T (manager g)).2 g).
Proof.
  intros [Hf Hal]. split; [apply Frame_inv_getAll, Hf|].
  cbn [manager set_manager]. rewrite getAll_store. exact Hal.
Qed.

(** ** The simulation step *)

Lemma at_top_ext h b g g' :
  manager g' = manager g -> history g' = history g ->
  at_top h b g -> at_top h b g'.
Proof.
  intros Em Eh (Hi & Hok & Hh & Hb). unfold at_top. rewrite Em, Eh.
  split; [eapply Game_inv_ext; eauto|auto].
Qed.

Lemma at_top_modify h b (f : Game F -> Game F) :
  (forall g, manager (f g) = manager g) ->
  (forall g, history (f g) = history g) ->
  hoare (at_top h b) (modify f) (fun _ => at_top h b).
Proof.
  intros Em Eh. apply hoare_modify. intros g. apply at_top_ext; auto.
Qed.

Lemma at_top_getAll h b T :
  hoare (at_top h b) (getAll hash_code T)
        (fun v g' => at_top h b g' /\ v = bucket hash_code T (manager g')).
Proof.
  intros g (Hi & Hok & Hh & Hb). rewrite getAll_run.
  eexists _, _. split; [reflexivity|]. cbn [manager set_manager].
  rewrite getAll_bucket. split; [|reflexivity].
  split; [apply Game_inv_getAll, Hi|]. cbn [manager set_manager history].
  rewrite getAll_bucket. auto.
Qed.

Lemma spawn_spec h balls :
  hoare (fun g => at_top h false g /\ balls = bucket hash_code TBall (manager g))
        (if decide (balls = []) then
           create hash_code
             (EBall (Ball_new (fdiv (of_int wndWidth) (of_int 2))
                              (fdiv (of_int wndHeight) (of_int 2)))) ;;
           modify (fun g => set_remainingLives (int_pred (remainingLives g)) g)
         else mret tt)
        (fun _ => at_top h true).
Proof.
  intros g ((Hi & Hok & Hh & _) & Hb). destruct (decide (balls = [])) as [E|E].
  - rewrite (bind_run _ _ _ _ _ (create_run _ _ _)).
    set (e := EBall _). set (g1 := set_manager _ g).
    exists tt, (set_remainingLives (int_pred (remainingLives g1)) g1).
    split; [reflexivity|].
    apply (at_top_ext h true g1); [reflexivity|reflexivity|].
    split; [|split; [exact Hok|split; [exact Hh|]]].
    + apply Game_inv_create; auto.
      * exact I.
      * intros _. congruence.
    + intros _. unfold g1. cbn [manager set_manager].
      rewrite create_bucket. rewrite decide_True by reflexivity.
      intros Hnil. apply app_eq_nil in Hnil. destruct Hnil; discriminate.
  - exists tt, g. split; [reflexivity|]. split; [exact Hi|]. split; [exact Hok|].
    split; [exact Hh|]. intros _. congruence.
Qed.

Lemma simulate_spec k h :
  hoare (at_top h false) (simulate hash_code k)
        (fun _ g' => Game_inv g' /\ Forall event_ok (history g')
                     /\ since h (fun ev => is_update ev = true) g'
                     /\ since h is_paddle_call g').
Proof.
  unfold simulate.
  eapply hoare_bind; [apply at_top_getAll|]. intros balls.
  eapply hoare_bind; [apply spawn_spec|]. intros [].
  eapply hoare_bind; [apply at_top_getAll|]. intros bricks.
  eapply hoare_bind with (Q := fun _ => at_top h true).
  { destruct (decide (bricks = [])).
    - eapply hoare_consequence; [apply (at_top_modify h true)| |]; cbn; auto.
      intros g [Ht _]. exact Ht.
    - apply hoare_ret. intros g [Ht _]. exact Ht. }
  intros [].
  eapply hoare_bind with (Q := fun _ => at_top h true).
  { apply hoare_gets. auto. }
  intros lives.
  eapply hoare_bind with (Q := fun _ => at_top h true).
  { destruct (lives <=? 0)%Z.
    - apply at_top_modify; reflexivity.
    - apply hoare_ret. auto. }
  intros [].
  eapply hoare_bind.
  { eapply hoare_consequence; [apply (update_spec hash_code k h)| |].
    - intros g (Hi & Hok & Hh & Hb). auto.
    - intros a g Hg. exact Hg. }
  intros [].
  eapply hoare_bind; [apply (collisions_spec hash_code hash_inj h)|].
  intros [] g (Hf & Hok & Hs & Hp).
  rewrite refresh_run by apply Hf.
  eexists tt, _. split; [reflexivity|].
  split; [apply refreshed_game_inv, Hf|].
  split; [exact Hok|]. split; eapply since_ext; eauto.
Qed.

End GameSimulate.

(* ===================================================================== *)
(** * Game: restart, input handling and whole frames *)
(* ===================================================================== *)

Section GameFrame.
Context {F : Type} `{Arith F}.
Variable hash_code : EntityType -> N.
Hypothesis hash_inj : forall T T', hash_code T = hash_code T' -> T = T'.
Implicit Types (g : Game F) (p : ptr) (e : Entity F) (h : list Event).
Local Abbreviation rebuilding := (rebuilding hash_code).

Local Abbreviation Base_inv := (Base_inv hash_code).
Local Abbreviation Frame_inv := (Frame_inv hash_code).
Local Abbreviation Game_inv := (Game_inv hash_code).

(** ** restart *)

Lemma place_brick_spec h (iX iY : Z) :
  (0 <= iX)%Z -> (0 <= iY)%Z ->
  hoare (rebuilding h)
        (brick ← create hash_code (EBrick (new_brick iX iY));
         b ← deref_brick brick;
         assign brick (EBrick (Brick_set_requiredHits b (1 + Z.rem (iX * iY) 3))))
        (fun _ => rebuilding h).
Proof.
  intros HX HY g (Hb & Hal & Hno & Hst & Hl & Hh).
  rewrite (bind_run _ _ _ _ _ (create_run _ _ _)).
  set (e := EBrick (new_brick iX iY)).
  set (p := (Manager_create hash_code e (manager g)).1).
  set (g1 := set_manager _ g).
  assert (E1 : store (manager g1) !! p = Some e).
  { unfold g1. cbn [manager set_manager]. rewrite create_store.
    apply lookup_insert_eq. }
  rewrite (bind_run _ _ _ _ _ (deref_brick_run _ _ _ E1)).
  set (e' := EBrick (Brick_set_requiredHits _ _)).
  exists tt, (set_manager (store_set p e' (manager g1)) g1).
  split; [reflexivity|].
  assert (Hb1 : Base_inv g1).
  { apply Base_inv_create; [exact Hb|]. intros _. split; cbn; unfold int_max; lia. }
  assert (Hrem : (0 <= Z.rem (iX * iY) 3 < 3)%Z).
  { split; [apply Z.rem_nonneg; lia|apply Z.rem_bound_pos; lia]. }
  split; [|split; [|split; [|split; [|split]]]]; try assumption.
  - eapply Base_inv_store_set; [exact Hb1|exact E1|reflexivity|].
    intros _. split; cbn; unfold int_max; lia.
  - intros q e0. cbn [manager set_manager store store_set]. intros Hq.
    apply lookup_insert_Some in Hq.
    destruct Hq as [[_ <-]|[Hpq Hq]]; [reflexivity|].
    unfold g1 in Hq. cbn [manager set_manager] in Hq. rewrite create_store in Hq.
    apply lookup_insert_Some in Hq.
    destruct Hq as [[_ <-]|[_ Hq]]; [reflexivity|]. eapply Hal, Hq.
  - change (bucket hash_code TBall (manager g1) = []). unfold g1.
    cbn [manager set_manager]. rewrite create_bucket, Hno.
    rewrite decide_False; [reflexivity|]. intros E. apply hash_inj in E.
    discriminate.
Qed.

Lemma restart_spec h :
  hoare (fun g => history g = h) (restart hash_code)
        (fun _ g' => Game_inv g' /\ state g' = Paused
                     /\ remainingLives g' = 3%Z /\ history g' = h).
Proof.
  unfold restart.
  eapply hoare_bind with (Q := fun _ g => history g = h /\ remainingLives g = 3%Z).
  { apply hoare_modify. auto. }
  intros [].
  eapply hoare_bind with
    (Q := fun _ g => history g = h /\ remainingLives g = 3%Z /\ state g = Paused).
  { apply hoare_modify. intros g []. auto. }
  intros [].
  eapply hoare_bind with (Q := fun _ => rebuilding h).
  { apply hoare_modify. intros g (Hh & Hl & Hs).
    split; [|split; [|split; [|auto]]].
    - split; cbn.
      + apply Manager_empty_wf.
      + apply Manager_empty_typed.
      + intros p e. rewrite lookup_empty. discriminate.
    - intros p e. cbn. rewrite lookup_empty. discriminate.
    - reflexivity. }
  intros [].
  eapply hoare_bind with (Q := fun _ => rebuilding h).
  { apply (hoare_for_each (fun _ => rebuilding h)).
    intros doneX iX restX HeX.
    assert (HX : (0 <= iX)%Z).
    { assert (Hin : iX ∈ seqZ 0 brkCountX)
        by (rewrite HeX; apply elem_of_app; right; apply elem_of_cons; auto).
      apply elem_of_seqZ in Hin. lia. }
    apply (hoare_for_each (fun _ => rebuilding h)).
    intros doneY iY restY HeY.
    assert (HY : (0 <= iY)%Z).
    { assert (Hin : iY ∈ seqZ 0 brkCountY)
        by (rewrite HeY; apply elem_of_app; right; apply elem_of_cons; auto).
      apply elem_of_seqZ in Hin. lia. }
    apply (place_brick_spec h iX iY HX HY). }
  intros [] g (Hb & Hal & Hno & Hst & Hl & Hh).
  rewrite (bind_run _ _ _ _ _ (create_run _ _ _)).
  set (ball := EBall _). set (g1 := set_manager _ g).
  rewrite (bind_run _ _ _ _ _ (create_run _ _ _)).
  set (paddle := EPaddle _). set (g2 := set_manager _ g1).
  exists tt, g2. split; [reflexivity|].
  split; [|auto].
  assert (Hb1 : Base_inv g1) by (apply Base_inv_create; [exact Hb|exact I]).
  split; [split|].
  - apply Base_inv_create; [exact Hb1|reflexivity].
  - unfold g2, g1. cbn [manager set_manager]. rewrite !create_bucket, Hno.
    rewrite decide_True by reflexivity.
    rewrite decide_False by (intros E; apply hash_inj in E; discriminate).
    cbn. lia.
  - exists (Manager_create hash_code paddle (manager g1)).1.
    unfold g2. cbn [manager set_manager]. rewrite create_bucket.
    rewrite decide_True by reflexivity.
    apply elem_of_app. right. apply list_elem_of_singleton. reflexivity.
  - intros q e0. unfold g2, g1. cbn [manager set_manager]. rewrite !create_store.
    intros Hq. apply lookup_insert_Some in Hq.
    destruct Hq as [[_ <-]|[_ Hq]]; [reflexivity|].
    apply lookup_insert_Some in Hq.
    destruct Hq as [[_ <-]|[_ Hq]]; [reflexivity|]. eapply Hal, Hq.
Qed.

(** ** The pause toggle and the restart key *)

Lemma handle_input_run k g :
  exists g1,
    handle_input hash_code k g = Some (tt, g1)
    /\ state g1 = gate_state k (pausePressedLastFrame g) (state g)
    /\ history g1 = history g
    /\ ((key_R k = false /\ manager g1 = manager g)
        \/ (key_R k = true /\ Game_inv g1)).
Proof.
  unfold handle_input, gate_state.
  set (toggle := if key_P k then _ else _).
  assert (Ht : exists g0, toggle g = Some (tt, g0)
             /\ state g0 = toggled k (pausePressedLastFrame g) (state g)
             /\ history g0 = history g /\ manager g0 = manager g).
  { unfold toggle, toggled. destruct (key_P k); cbn [andb].
    - destruct (pausePressedLastFrame g) eqn:Ep; cbn [negb].
      + eexists. split; [|split; [|split]].
        * unfold mbind, SE_bind, gets. cbn. rewrite Ep. cbn. reflexivity.
        * reflexivity.
        * reflexivity.
        * reflexivity.
      + destruct (state g) eqn:Es;
          (eexists; split; [|split; [|split]];
           [unfold mbind, SE_bind, gets; cbn; rewrite Ep; cbn; rewrite Es;
            cbn; reflexivity
           | cbn; try reflexivity; try exact Es ..]).
    - eexists. split; [reflexivity|]. auto. }
  destruct Ht as (g0 & E0 & Hs0 & Hh0 & Hm0).
  rewrite (bind_run _ _ _ _ _ E0).
  destruct (key_R k).
  - destruct (restart_spec (history g0) g0 eq_refl) as ([] & g1 & E1 & Hi & Hs & _ & Hh).
    exists g1. split; [exact E1|]. split; [exact Hs|].
    split; [congruence|]. right. auto.
  - exists g0. split; [reflexivity|]. split; [exact Hs0|].
    split; [exact Hh0|]. left. auto.
Qed.

(** ** A whole frame *)

Lemma frame_break k g : key_Escape k = true -> frame hash_code k g = Some (Break, g).
Proof. intros E. unfold frame. rewrite E. reflexivity. Qed.

Lemma frame_run k g :
  key_Escape k = false ->
  Game_inv g -> Forall event_ok (history g) ->
  exists g1 g',
    handle_input hash_code k g = Some (tt, g1)
    /\ frame hash_code k g = Some (Continue, g')
    /\ state g1 = gate_state k (pausePressedLastFrame g) (state g)
    /\ Game_inv g' /\ Forall event_ok (history g')
    /\ (state g1 <> InProgress -> g' = g1 /\ history g' = history g)
    /\ (state g1 = InProgress ->
        since (history g) (fun ev => is_update ev = true) g'
        /\ since (history g) is_paddle_call g').
Proof.
  intros Hesc Hi Hok.
  destruct (handle_input_run k g) as (g1 & E1 & Hs1 & Hh1 & Hm1).
  assert (Hi1 : Game_inv g1).
  { destruct Hm1 as [[_ Em]|[_ Hi1]]; [|exact Hi1].
    eapply Game_inv_ext; eauto. }
  assert (Ef : frame hash_code k g
               = (if decide (state g1 <> InProgress) then mret Continue
                  else simulate hash_code k ;; mret Continue) g1).
  { unfold frame. rewrite Hesc. rewrite (bind_run _ _ _ _ _ E1).
    rewrite (bind_run _ _ g1 (state g1) g1 eq_refl). reflexivity. }
  rewrite Ef.
  destruct (decide (state g1 <> InProgress)) as [Hne|He].
  - exists g1, g1. split; [exact E1|]. split; [reflexivity|].
    split; [exact Hs1|]. split; [exact Hi1|]. split; [rewrite Hh1; exact Hok|].
    split; [auto|]. intros E. contradiction.
  - destruct (simulate_spec hash_code hash_inj k (history g) g1)
      as ([] & g' & E' & Hi' & Hok' & Hu & Hp).
    { split; [exact Hi1|]. split; [rewrite Hh1; exact Hok|].
      split; [exact Hh1|discriminate]. }
    exists g1, g'. split; [exact E1|].
    split; [rewrite (bind_run _ _ _ _ _ E'); reflexivity|].
    split; [exact Hs1|]. split; [exact Hi'|]. split; [exact Hok'|].
    split; [intros Hne; contradiction|]. auto.
Qed.

(** ** Every reachable state satisfies the invariant *)

Lemma reachable_inv g :
  reachable hash_code g -> Game_inv g /\ Forall event_ok (history g).
Proof.
  induction 1 as [g E|k g g' Hr [Hi Hok] E].
  - destruct (restart_spec [] Game_new eq_refl) as ([] & g0 & E0 & Hi & _ & _ & Hh).
    rewrite E in E0. injection E0 as <-. split; [exact Hi|].
    rewrite Hh. constructor.
  - destruct (key_Escape k) eqn:Hesc.
    + rewrite (frame_break k g Hesc) in E. discriminate.
    + destruct (frame_run k g Hesc Hi Hok) as (g1 & g2 & _ & E2 & _ & Hi2 & Hok2 & _).
      rewrite E in E2. injection E2 as <-. auto.
Qed.

End GameFrame.

(* ===================================================================== *)
(** * Runs of the program *)
(* ===================================================================== *)

Section GameRuns.
Context {F : Type} `{Arith F}.
Variable hash_code : EntityType -> N.
Implicit Types (g : Game F).

(** A frame ends the loop only on the quit key, and then changes nothing. *)
Lemma frame_flow k g flow g' :
  frame hash_code k g = Some (flow, g') ->
  (flow = Break /\ g' = g) \/ flow = Continue.
Proof.
  unfold frame. destruct (key_Escape k).
  - intros [= <- <-]. auto.
  - unfold mbind, SE_bind.
    destruct (handle_input hash_code k g) as [[[] g1]|]; [|discriminate].
    cbn [gets]. destruct (decide _).
    + intros [= <- <-]. auto.
    + destruct (simulate hash_code k g1) as [[[] g2]|]; [|discriminate].
      intros [= <- <-]. auto.
Qed.

Lemma run_reachable ks g g' :
  reachable hash_code g -> run hash_code ks g = Some (tt, g') ->
  reachable hash_code g'.
Proof.
  revert g. induction ks as [|k ks IH]; intros g Hr.
  - intros [= <-]. exact Hr.
  - cbn [run]. unfold mbind, SE_bind.
    destruct (frame hash_code k g) as [[flow g1]|] eqn:Ef; [|discriminate].
    destruct (frame_flow _ _ _ _ Ef) as [[-> ->] | ->].
    + intros [= <-]. exact Hr.
    + apply IH. eapply reachable_frame; eauto.
Qed.

(** Whatever [main] ends in is a state of the loop. *)
Lemma main_reachable ks g :
  main hash_code ks = Some g -> reachable hash_code g.
Proof.
  unfold main, mbind, SE_bind.
  destruct (restart hash_code Game_new) as [[[] g0]|] eqn:E0; [|discriminate].
  cbn. destruct (run hash_code ks g0) as [[[] g1]|] eqn:E1; [|discriminate].
  cbn. intros [= <-]. eapply run_reachable; [|exact E1].
  apply reachable_restart, E0.
Qed.

End GameRuns.

(** Resolved brick collisions do occur in the game: forty frames after the
    pause is lifted one is on record. *)
Lemma brick_hits_occur :
  reachable Fixtures.type_hash Fixtures.played_game
  /\ exists brick ball hits,
       EvBrickBall brick ball hits true ∈ history Fixtures.played_game.
Proof.
  split.
  - apply (main_reachable Fixtures.type_hash
             (Fixtures.press_P :: repeat Fixtures.no_keys 40)).
    vm_compute. reflexivity.
  - assert (E : existsb Fixtures.is_brick_hit (history Fixtures.played_game) = true)
      by (vm_compute; reflexivity).
    revert E. generalize (history Fixtures.played_game). intros h E.
    apply existsb_exists in E. destruct E as (ev & Hin & Hev).
    destruct ev as [p|brick ball hits hit|pd ball hit]; cbn in Hev;
      try discriminate Hev.
    subst hit. exists brick, ball, hits. apply list_elem_of_In. exact Hin.
Qed.

(* ===================================================================== *)
(** * Brick durability *)
(* ===================================================================== *)

Section BrickHits.
Context {F : Type} `{Arith F}.
Implicit Types (b : Brick F) (a : Ball F).

Lemma isIntersecting_shapes b a :
  isIntersecting b a = isIntersecting (brick_rect b) (ball_circle a).
Proof. reflexivity. Qed.

Lemma solve_brick_rect b a : brick_rect (solveBrickBallCollision b a).1 = brick_rect b.
Proof.
  unfold solveBrickBallCollision.
  destruct (isIntersecting b a); cbn [negb fst]; [|reflexivity].
  destruct (_ <=? _)%Z; reflexivity.
Qed.

Lemma solve_ball_circle b a : ball_circle (solveBrickBallCollision b a).2 = ball_circle a.
Proof.
  unfold solveBrickBallCollision.
  destruct (isIntersecting b a); cbn [negb snd]; [|reflexivity].
  destruct (flt _ _); reflexivity.
Qed.

Lemma solve_ball_destroyed b a :
  ball_destroyed (solveBrickBallCollision b a).2 = ball_destroyed a.
Proof.
  unfold solveBrickBallCollision.
  destruct (isIntersecting b a); cbn [negb snd]; [|reflexivity].
  destruct (flt _ _); reflexivity.
Qed.

Lemma solve_brick_destroyed_mono b a :
  brick_destroyed b = true -> brick_destroyed (solveBrickBallCollision b a).1 = true.
Proof.
  intros Hd. unfold solveBrickBallCollision.
  destruct (isIntersecting b a); cbn [negb fst]; [|exact Hd].
  destruct (_ <=? _)%Z; [reflexivity|exact Hd].
Qed.

Lemma repeated_hits_S n b a :
  repeated_hits (S n) b a
  = solveBrickBallCollision (repeated_hits n b a).1 (repeated_hits n b a).2.
Proof. reflexivity. Qed.

Lemma repeated_hits_shapes n b a :
  brick_rect (repeated_hits n b a).1 = brick_rect b
  /\ ball_circle (repeated_hits n b a).2 = ball_circle a.
Proof.
  induction n as [|n [IH1 IH2]]; [split; reflexivity|].
  rewrite repeated_hits_S, solve_brick_rect, solve_ball_circle. auto.
Qed.

Lemma repeated_hits_intersecting n b a :
  isIntersecting (repeated_hits n b a).1 (repeated_hits n b a).2
  = isIntersecting b a.
Proof.
  rewrite !isIntersecting_shapes.
  destruct (repeated_hits_shapes n b a) as [-> ->]. reflexivity.
Qed.

Lemma repeated_hits_ball_destroyed n b a :
  ball_destroyed (repeated_hits n b a).2 = ball_destroyed a.
Proof.
  induction n as [|n IH]; [reflexivity|].
  rewrite repeated_hits_S, solve_ball_destroyed. exact IH.
Qed.

(** While the brick still needs hits, each call takes one off. *)
Lemma repeated_hits_count n b a :
  isIntersecting b a = true -> brick_destroyed b = false ->
  (1 <= requiredHits b <= int_max)%Z -> (Z.of_nat n <= requiredHits b)%Z ->
  requiredHits (repeated_hits n b a).1 = (requiredHits b - Z.of_nat n)%Z
  /\ brick_destroyed (repeated_hits n b a).1
     = (requiredHits b - Z.of_nat n <=? 0)%Z.
Proof.
  intros Hi Hd Hr. induction n as [|n IH]; intros Hn.
  - cbn. rewrite Z.sub_0_r. split; [reflexivity|].
    rewrite Hd. symmetry. apply Z.leb_gt. lia.
  - destruct IH as [IHr IHd]; [lia|].
    rewrite repeated_hits_S.
    pose proof (repeated_hits_intersecting n b a) as Hin. rewrite Hi in Hin.
    unfold solveBrickBallCollision. rewrite Hin. cbn [negb fst].
    cbn [requiredHits Brick_set_requiredHits].
    rewrite IHr, int_pred_exact by (unfold int_min; lia).
    replace (requiredHits b - Z.of_nat n - 1)%Z
      with (requiredHits b - Z.of_nat (S n))%Z by lia.
    destruct (Z.leb_spec (requiredHits b - Z.of_nat (S n)) 0); cbn.
    + auto.
    + split; [reflexivity|]. rewrite IHd. apply Z.leb_gt. lia.
Qed.

Lemma repeated_hits_stay_destroyed n m b a :
  brick_destroyed (repeated_hits n b a).1 = true ->
  brick_destroyed (repeated_hits (m + n) b a).1 = true.
Proof.
  intros Hd. induction m as [|m IH]; [exact Hd|].
  cbn [Nat.add]. rewrite repeated_hits_S. apply solve_brick_destroyed_mono, IH.
Qed.

Lemma repeated_hits_destroyed n b a :
  isIntersecting b a = true -> brick_destroyed b = false ->
  (1 <= requiredHits b <= int_max)%Z ->
  brick_destroyed (repeated_hits n b a).1 = true
  <-> (requiredHits b <= Z.of_nat n)%Z.
Proof.
  intros Hi Hd Hr.
  destruct (Z.le_gt_cases (Z.of_nat n) (requiredHits b)) as [Hle|Hgt].
  - destruct (repeated_hits_count n b a Hi Hd Hr Hle) as [_ ->].
    rewrite Z.leb_le. lia.
  - split; [lia|]. intros _.
    set (N := Z.to_nat (requiredHits b)).
    replace n with ((n - N) + N)%nat by lia.
    apply repeated_hits_stay_destroyed.
    destruct (repeated_hits_count N b a Hi Hd Hr) as [_ ->]; [lia|].
    apply Z.leb_le. lia.
Qed.

End BrickHits.

(** C2.  Take a brick created with [requiredHits = N], 1 <= N, and a ball
    that intersects it.  Every one of the repeated calls of the resolver
    on the two finds them intersecting, and the brick's flag is true after
    [n] calls exactly when [n >= N]: it takes exactly [N] calls.  The
    resolver never changes the ball's flag.  And in the game, whatever the
    keys, every call of the resolver that found its brick intersecting
    found it with [requiredHits >= 1]. *)
Theorem brick_durability (hash_code : EntityType -> N)
    (mBrick : Brick F32.t) (mBall : Ball F32.t) (N : Z) (g : Game F32.t) :
  (forall T T', hash_code T = hash_code T' -> T = T') ->
  isIntersecting mBrick mBall = true ->
  brick_destroyed mBrick = false ->
  requiredHits mBrick = N -> (1 <= N <= int_max)%Z ->
  reachable hash_code g ->
  (forall n : nat,
     isIntersecting (repeated_hits n mBrick mBall).1
                    (repeated_hits n mBrick mBall).2 = true
     /\ (brick_destroyed (repeated_hits n mBrick mBall).1 = true
         <-> (N <= Z.of_nat n)%Z)
     /\ ball_destroyed (repeated_hits n mBrick mBall).2 = ball_destroyed mBall)
  /\ (forall (b : Brick F32.t) (a : Ball F32.t),
        ball_destroyed (solveBrickBallCollision b a).2 = ball_destroyed a)
  /\ (forall brick ball hits,
        EvBrickBall brick ball hits true ∈ history g -> (1 <= hits)%Z).
Proof.
  intros Hinj Hi Hd HN Hr Hreach. split; [|split].
  - intros n. split; [|split].
    + rewrite repeated_hits_intersecting. exact Hi.
    + rewrite <- HN. apply repeated_hits_destroyed; auto. rewrite HN. exact Hr.
    + apply repeated_hits_ball_destroyed.
  - intros b a. apply solve_ball_destroyed.
  - intros brick ball hits Hin.
    destruct (reachable_inv hash_code Hinj g Hreach) as [_ Hok].
    apply (proj1 (Forall_forall _ _) Hok _ Hin).
Qed.

Lemma type_hash_inj T T' : Fixtures.type_hash T = Fixtures.type_hash T' -> T = T'.
Proof. destruct T, T'; cbn; intros E; try reflexivity; discriminate E. Qed.

Lemma initial_game_reachable : reachable Fixtures.type_hash Fixtures.initial_game.
Proof. apply reachable_restart. vm_compute. reflexivity. Qed.

Lemma brick_durability_witness :
  isIntersecting Fixtures.first_brick Fixtures.ball_under_first_brick = true
  /\ brick_destroyed Fixtures.first_brick = false
  /\ requiredHits Fixtures.first_brick = 1%Z
  /\ (1 <= 1 <= int_max)%Z
  /\ (brick_destroyed
        (repeated_hits 1 Fixtures.first_brick Fixtures.ball_under_first_brick).1
      = true <-> (1 <= Z.of_nat 1)%Z).
Proof.
  assert (Hi : isIntersecting Fixtures.first_brick
                 Fixtures.ball_under_first_brick = true)
    by (vm_compute; reflexivity).
  assert (Hr : (1 <= 1 <= int_max)%Z) by (unfold int_max; lia).
  split; [exact Hi|]. split; [reflexivity|]. split; [reflexivity|].
  split; [exact Hr|].
  exact (proj1 (proj2 (proj1
    (brick_durability Fixtures.type_hash Fixtures.first_brick
       Fixtures.ball_under_first_brick 1 Fixtures.initial_game
       type_hash_inj Hi eq_refl eq_refl Hr initial_game_reachable) 1%nat))).
Defined.

(* ===================================================================== *)
(** * The state machine *)
(* ===================================================================== *)

Section StateMachine.
Context {F : Type} `{Arith F}.
Variable hash_code : EntityType -> N.
Implicit Types (g : Game F).

(** [restart] is defined on every game and leaves it paused. *)
Lemma restart_state g :
  exists g', restart hash_code g = Some (tt, g') /\ state g' = Paused.
Proof.
  assert (Hc : forall e, hoare (fun g => state g = Paused) (create hash_code e)
                           (fun _ g => state g = Paused)).
  { intros e g0 Hs. rewrite create_run. eexists _, _. split; [reflexivity|].
    exact Hs. }
  assert (Hr : hoare (fun _ => True) (restart hash_code)
                 (fun _ g' => state g' = Paused)).
  { unfold restart.
    eapply hoare_bind with (Q := fun _ _ => True); [apply hoare_modify; auto|].
    intros [].
    eapply hoare_bind with (Q := fun _ g => state g = Paused);
      [apply hoare_modify; auto|].
    intros [].
    eapply hoare_bind with (Q := fun _ g => state g = Paused);
      [apply hoare_modify; auto|].
    intros [].
    eapply hoare_bind with (Q := fun _ g => state g = Paused).
    { apply (hoare_for_each (fun _ g => state g = Paused)). intros _ iX _ _.
      apply (hoare_for_each (fun _ g => state g = Paused)). intros _ iY _ _.
      intros g0 Hs. rewrite (bind_run _ _ _ _ _ (create_run _ _ _)).
      set (p := (Manager_create _ _ _).1). set (g1 := set_manager _ g0).
      assert (E1 : store (manager g1) !! p = Some (EBrick (new_brick iX iY))).
      { unfold g1. cbn [manager set_manager]. rewrite create_store.
        apply lookup_insert_eq. }
      rewrite (bind_run _ _ _ _ _ (deref_brick_run _ _ _ E1)).
      eexists _, _. split; [reflexivity|]. exact Hs. }
    intros [].
    eapply hoare_bind; [apply Hc|]. intros ?.
    eapply hoare_bind; [apply Hc|]. intros ?.
    apply hoare_ret. auto. }
  destruct (Hr g I) as ([] & g' & E & Hs). eauto.
Qed.

(** The state the test on [state] sees, on every game. *)
Lemma handle_input_state k g :
  exists g1, handle_input hash_code k g = Some (tt, g1)
             /\ state g1 = gate_state k (pausePressedLastFrame g) (state g).
Proof.
  unfold handle_input, gate_state.
  set (toggle := if key_P k then _ else _).
  assert (Ht : exists g0, toggle g = Some (tt, g0)
             /\ state g0 = toggled k (pausePressedLastFrame g) (state g)).
  { unfold toggle, toggled. destruct (key_P k); cbn [andb].
    - destruct (pausePressedLastFrame g) eqn:Ep; cbn [negb].
      + eexists. split.
        * unfold mbind, SE_bind, gets. cbn. rewrite Ep. cbn. reflexivity.
        * reflexivity.
      + destruct (state g) eqn:Es;
          (eexists; split;
           [unfold mbind, SE_bind, gets; cbn; rewrite Ep; cbn; rewrite Es;
            cbn; reflexivity
           | cbn; try reflexivity; try exact Es]).
    - eexists. split; reflexivity. }
  destruct Ht as (g0 & E0 & Hs0). rewrite (bind_run _ _ _ _ _ E0).
  destruct (key_R k).
  - destruct (restart_state g0) as (g1 & E1 & Hs1). eauto.
  - exists g0. split; [reflexivity|exact Hs0].
Qed.

Lemma gate_state_end k pressed st :
  st = GameOver \/ st = Victory ->
  gate_state k pressed st = if key_R k then Paused else st.
Proof.
  unfold gate_state, toggled.
  intros [-> | ->]; destruct (key_R k), (key_P k), pressed; reflexivity.
Qed.

Lemma frame_end_states k g :
  state g = GameOver \/ state g = Victory ->
  exists flow g',
    frame hash_code k g = Some (flow, g')
    /\ state g' = (if key_Escape k then state g
                   else if key_R k then Paused else state g).
Proof.
  intros Hs. unfold frame. destruct (key_Escape k).
  - exists Break, g. auto.
  - destruct (handle_input_state k g) as (g1 & E1 & Hs1).
    rewrite (gate_state_end _ _ _ Hs) in Hs1.
    rewrite (bind_run _ _ _ _ _ E1).
    rewrite (bind_run _ _ g1 (state g1) g1 eq_refl).
    rewrite decide_True.
    + exists Continue, g1. split; [reflexivity|exact Hs1].
    + rewrite Hs1. destruct (key_R k); [discriminate|].
      destruct Hs as [-> | ->]; discriminate.
Qed.

End StateMachine.

(** C10.  A frame that starts in [GameOver] or [Victory] is defined and
    ends in the same state, whatever the pause key and the arrow keys do,
    unless the restart key is down, in which case it ends in [Paused] (the
    quit key ends the loop and leaves the state as it is). *)
Theorem end_states_left_only_by_restart (hash_code : EntityType -> N)
    (k : Keys) (g : Game F32.t) :
  state g = GameOver \/ state g = Victory ->
  exists flow g',
    frame hash_code k g = Some (flow, g')
    /\ state g' = (if key_Escape k then state g
                   else if key_R k then Paused else state g).
Proof. apply frame_end_states. Qed.

Lemma end_states_left_only_by_restart_witness :
  (state (Game_new (F:=F32.t)) = GameOver \/ state (Game_new (F:=F32.t)) = Victory)
  /\ exists flow g',
       frame Fixtures.type_hash Fixtures.press_P (Game_new (F:=F32.t))
       = Some (flow, g')
       /\ state g' = GameOver.
Proof.
  split; [left; reflexivity|].
  exact (end_states_left_only_by_restart Fixtures.type_hash Fixtures.press_P
           Game_new (or_introl eq_refl)).
Defined.

(** From every state the game can reach, a frame is defined, and what it
    does goes by the state at the test the frame makes on it (line 417),
    once the pause toggle and the restart key have been handled.  If the
    state is then not [InProgress], the frame records no update of an
    entity and no call of a resolver, and ends in the state the input
    handling left; if it is [InProgress], the frame records updates of
    entities and calls of the paddle resolver.  (With the quit key down
    the loop is left at once, and nothing is run.) *)
Lemma frame_gated_after_input (hash_code : EntityType -> N)
    (k : Keys) (g : Game F32.t) :
  (forall T T', hash_code T = hash_code T' -> T = T') ->
  reachable hash_code g ->
  (key_Escape k = true -> frame hash_code k g = Some (Break, g))
  /\ (key_Escape k = false ->
      exists g1 g' evs,
        handle_input hash_code k g = Some (tt, g1)
        /\ frame hash_code k g = Some (Continue, g')
        /\ state g1 = gate_state k (pausePressedLastFrame g) (state g)
        /\ history g' = history g ++ evs
        /\ (state g1 <> InProgress -> evs = [] /\ g' = g1)
        /\ (state g1 = InProgress ->
            (exists p, EvUpdate p ∈ evs)
            /\ (exists paddle ball hit, EvPaddleBall paddle ball hit ∈ evs))
        /\ (state g = GameOver \/ state g = Victory -> state g1 <> InProgress)).
Proof.
  intros Hinj Hreach. split; [apply frame_break|]. intros Hesc.
  destruct (reachable_inv hash_code Hinj g Hreach) as [Hi Hok].
  destruct (frame_run hash_code Hinj k g Hesc Hi Hok)
    as (g1 & g' & E1 & Ef & Hs1 & _ & _ & Hno & Hyes).
  assert (Hend : state g = GameOver \/ state g = Victory -> state g1 <> InProgress).
  { intros Hs. rewrite Hs1, (gate_state_end _ _ _ Hs).
    destruct (key_R k); [discriminate|]. destruct Hs as [-> | ->]; discriminate. }
  destruct (decide (state g1 = InProgress)) as [He|Hne].
  - destruct (Hyes He) as [(evs & ev & Eh & Hin & Hu) (evs' & ev' & Eh' & Hin' & Hp)].
    assert (evs' = evs) by (rewrite Eh in Eh'; eapply app_inv_head; eauto).
    subst evs'.
    exists g1, g', evs. split; [exact E1|]. split; [exact Ef|].
    split; [exact Hs1|]. split; [exact Eh|].
    split; [intros Hne; contradiction|]. split; [|exact Hend].
    intros _. split.
    + destruct ev; try discriminate. eauto.
    + destruct Hp as (pd & b & hit & ->). eauto.
  - destruct (Hno Hne) as [-> Eh].
    exists g1, g1, []. split; [exact E1|]. split; [exact Ef|].
    split; [exact Hs1|]. split; [rewrite app_nil_r; exact Eh|].
    split; [auto|]. split; [intros He; contradiction|exact Hend].
Qed.

(* ===================================================================== *)
(** * A manager with a marked entity *)
(* ===================================================================== *)

Lemma mark_destroyed_wf {F : Type} (p : ptr) (m : Manager F) :
  Manager_wf m -> Manager_wf (mark_destroyed p m).
Proof.
  intros [Hnd Hown Hgrp]. split; cbn; auto.
  intros q. rewrite lookup_alter_is_Some. apply Hown.
Qed.

Lemma manager_with_marked_brick_wf :
  Manager_wf Fixtures.manager_with_marked_brick.
Proof.
  apply mark_destroyed_wf.
  apply (create_wf Fixtures.type_hash (EBall Fixtures.ball_under_first_brick)).
  apply (create_wf Fixtures.type_hash (EBrick Fixtures.first_brick)).
  apply Manager_empty_wf.
Qed.

Lemma destruction_is_deferred_witness :
  Manager_wf Fixtures.manager_with_marked_brick
  /\ length (Manager_getAll Fixtures.type_hash TBrick
               Fixtures.manager_with_marked_brick).1 = 1%nat
  /\ exists m',
       Manager_refresh Fixtures.manager_with_marked_brick = Some m'
       /\ length (entities m') = 1%nat
       /\ groupedEntities m' !! Fixtures.type_hash TBrick = Some [].
Proof.
  split; [exact manager_with_marked_brick_wf|].
  split; [vm_compute; reflexivity|].
  destruct (destruction_is_deferred Fixtures.type_hash
              Fixtures.manager_with_marked_brick manager_with_marked_brick_wf)
    as (_ & m' & E & He & _ & Hg & _).
  exists m'. split; [exact E|]. split.
  - rewrite He. vm_compute. reflexivity.
  - rewrite Hg. vm_compute. reflexivity.
Defined.

(* ===================================================================== *)
(** * The game at its start *)
(* ===================================================================== *)

(** What [restart] builds: 44 bricks, one ball in the middle of the field
    moving up and left, one paddle at (400, 550); the game is paused with
    three lives. *)
Lemma initial_game_layout :
  let m := manager Fixtures.initial_game in
  length (bucket Fixtures.type_hash TBrick m) = 44%nat
  /\ length (entities m) = 46%nat
  /\ (exists ball, bucket Fixtures.type_hash TBall m = [ball]
        /\ store m !! ball = Some (EBall (Fixtures.ball_at 400 300 (-8) (-8))))
  /\ (exists paddle, bucket Fixtures.type_hash TPaddle m = [paddle]
        /\ store m !! paddle = Some (EPaddle Fixtures.paddle_at_rest))
  /\ state Fixtures.initial_game = Paused
  /\ remainingLives Fixtures.initial_game = 3%Z.
Proof.
  cbv zeta. split; [vm_compute; reflexivity|]. split; [vm_compute; reflexivity|].
  split; [eexists; split; vm_compute; reflexivity|].
  split; [eexists; split; vm_compute; reflexivity|].
  split; vm_compute; reflexivity.
Qed.

(** One update of that ball: it is at (392, 292), its velocity unchanged. *)
Lemma first_ball_step :
  Ball_update (Fixtures.ball_at 400 300 (-8) (-8))
  = Fixtures.ball_at 392 292 (-8) (-8).
Proof. vm_compute. reflexivity. Qed.

(* ===================================================================== *)
(** * The paddle's end, in play *)
(* ===================================================================== *)

(** The game reaches the call of the paddle resolver on
    [Fixtures.paddle_moving_right] and [Fixtures.ball_on_right_end]: it is
    the last thing the 71st frame of [Fixtures.edge_hit_keys] does, and it
    leaves the ball with the velocity the resolver gave it. *)
Lemma edge_hit_in_play :
  reachable Fixtures.type_hash Fixtures.edge_hit_game
  /\ exists paddle ball,
       last (history Fixtures.edge_hit_game) = Some (EvPaddleBall paddle ball true)
       /\ store (manager Fixtures.edge_hit_game) !! paddle
          = Some (EPaddle Fixtures.paddle_moving_right)
       /\ store (manager Fixtures.edge_hit_game) !! ball
          = Some (EBall (solvePaddleBallCollision Fixtures.paddle_moving_right
                           Fixtures.ball_on_right_end)).
Proof.
  split.
  - apply (main_reachable Fixtures.type_hash Fixtures.edge_hit_keys).
    vm_compute. reflexivity.
  - eexists _, _. split; [vm_compute; reflexivity|].
    split; vm_compute; reflexivity.
Qed.

(** The game reaches the update of [Fixtures.paddle_near_left_edge] with
    the left key down: it is the 46th in a row, and it leaves the paddle
    with its left edge at -5.5. *)
Lemma paddle_overshoot_in_play :
  reachable Fixtures.type_hash Fixtures.hold_left_game
  /\ exists paddle,
       bucket Fixtures.type_hash TPaddle (manager Fixtures.hold_left_game)
       = [paddle]
       /\ store (manager Fixtures.hold_left_game) !! paddle
          = Some (EPaddle (Paddle_update true false Fixtures.paddle_near_left_edge)).
Proof.
  split.
  - apply (main_reachable Fixtures.type_hash
             (Fixtures.press_P_left :: repeat Fixtures.press_left 45)).
    vm_compute. reflexivity.
  - eexists. split; vm_compute; reflexivity.
Qed.

(* ##################################################################### *)
(** * Part III: further properties of the code *)
(* ##################################################################### *)

(* ===================================================================== *)
(** * The vector utilities, in exact arithmetic *)
(* ===================================================================== *)

Lemma real_length_sq (v : Vector2 R) :
  (getLength v * getLength v = getDotProduct v v)%R.
Proof.
  unfold getLength, getDotProduct.
  cbn [pow2 wadd wsqrt fadd fmul real_arith].
  rewrite sqrt_sqrt; [reflexivity|]. nra.
Qed.

Lemma real_length_eq (v w : Vector2 R) :
  getDotProduct v v = getDotProduct w w -> getLength v = getLength w.
Proof.
  unfold getLength, getDotProduct.
  cbn [pow2 wadd wsqrt fadd fmul real_arith]. intros ->. reflexivity.
Qed.

Lemma reflected_dot (mVec mNormal : Vector2 R) :
  getDotProduct mNormal mNormal = 1%R ->
  getDotProduct (getReflected mVec mNormal) (getReflected mVec mNormal)
  = getDotProduct mVec mVec.
Proof.
  intros Hn.
  unfold getReflected, getDotProduct, vec_sub, vec_scale in *.
  cbn [vec_x vec_y fadd fsub fmul of_int real_arith] in *.
  destruct mVec as [x y], mNormal as [a b]. cbn [vec_x vec_y] in *.
  set (d := (x * a + y * b)%R).
  replace ((x - a * (2 * d)) * (x - a * (2 * d))
           + (y - b * (2 * d)) * (y - b * (2 * d)))%R
    with (x * x + y * y - 4 * d * (x * a + y * b)
          + 4 * d * d * (a * a + b * b))%R by ring.
  rewrite Hn. unfold d. ring.
Qed.

Lemma normalized_dot (mVec : Vector2 R) :
  mVec <> mkVec 0%R 0%R ->
  getDotProduct (getNormalized mVec) (getNormalized mVec) = 1%R.
Proof.
  intros Hz.
  assert (Hpos : (0 < getDotProduct mVec mVec)%R).
  { destruct mVec as [x y]. unfold getDotProduct.
    cbn [vec_x vec_y fadd fmul real_arith].
    destruct (Req_dec x 0) as [->|Hx].
    - destruct (Req_dec y 0) as [->|Hy]; [congruence|]. nra.
    - nra. }
  assert (HL := real_length_sq mVec).
  assert (HL0 : (0 < getLength mVec)%R).
  { unfold getLength. cbn [pow2 wadd wsqrt real_arith]. apply sqrt_lt_R0.
    exact Hpos. }
  unfold getNormalized, vec_div, getDotProduct in *.
  cbn [vec_x vec_y fadd fmul fdiv narrow real_arith] in *.
  set (L := getLength mVec) in *. clearbody L.
  destruct mVec as [x y]. cbn [vec_x vec_y] in *.
  replace (x / L * (x / L) + y / L * (y / L))%R
    with ((x * x + y * y) / (L * L))%R by (field; lra).
  rewrite HL. field. lra.
Qed.

(** X1.  In exact arithmetic [getReflected] keeps the length of the
    vector it reflects, whenever the normal it is given has length one
    ([getDotProduct] of the normal with itself is 1), and it negates the
    component of the vector along the normal. *)
Theorem reflection_keeps_length (mVec mNormal : Vector2 R) :
  getDotProduct mNormal mNormal = 1%R ->
  getLength (getReflected mVec mNormal) = getLength mVec
  /\ getDotProduct (getReflected mVec mNormal) mNormal
     = (- getDotProduct mVec mNormal)%R.
Proof.
  intros Hn. split; [apply real_length_eq, reflected_dot, Hn|].
  unfold getReflected, getDotProduct, vec_sub, vec_scale in *.
  cbn [vec_x vec_y fadd fsub fmul of_int real_arith] in *.
  destruct mVec as [x y], mNormal as [a b]. cbn [vec_x vec_y] in *.
  set (d := (x * a + y * b)%R).
  replace ((x - a * (2 * d)) * a + (y - b * (2 * d)) * b)%R
    with (d - 2 * d * (a * a + b * b))%R by (unfold d; ring).
  rewrite Hn. ring.
Qed.

Lemma reflection_keeps_length_witness :
  getDotProduct Scenes.up Scenes.up = 1%R
  /\ getLength (getReflected Scenes.down_right Scenes.up)
     = getLength Scenes.down_right.
Proof.
  assert (Hn : getDotProduct Scenes.up Scenes.up = 1%R).
  { unfold getDotProduct, Scenes.up. cbn [vec_x vec_y fadd fmul real_arith]. lra. }
  split; [exact Hn|].
  exact (proj1 (reflection_keeps_length Scenes.down_right Scenes.up Hn)).
Defined.

(** X2.  In exact arithmetic [getNormalized] of a vector other than
    (0, 0) has length one, and points the same way: it is the vector
    divided by its length, which is positive. *)
Theorem normalized_is_unit (mVec : Vector2 R) :
  mVec <> mkVec 0%R 0%R ->
  getLength (getNormalized mVec) = 1%R
  /\ (0 < getLength mVec)%R
  /\ vec_scale (getNormalized mVec) (getLength mVec) = mVec.
Proof.
  intros Hz. pose proof (normalized_dot mVec Hz) as E.
  assert (HL0 : (0 < getLength mVec)%R).
  { unfold getLength. cbn [pow2 wadd wsqrt real_arith]. apply sqrt_lt_R0.
    destruct mVec as [x y]. cbn [vec_x vec_y].
    destruct (Req_dec x 0) as [->|Hx].
    - destruct (Req_dec y 0) as [->|Hy]; [congruence|]. nra.
    - nra. }
  split; [|split; [exact HL0|]].
  - unfold getLength in *. cbn [pow2 wadd wsqrt real_arith] in *.
    unfold getDotProduct in E. cbn [fadd fmul real_arith] in E.
    rewrite E. apply sqrt_1.
  - unfold getNormalized, vec_scale, vec_div.
    cbn [vec_x vec_y fmul fdiv narrow real_arith].
    set (L := getLength mVec) in *. clearbody L.
    destruct mVec as [x y]. cbn [vec_x vec_y]. f_equal; field; lra.
Qed.

Lemma normalized_is_unit_witness :
  Scenes.down_right <> mkVec 0%R 0%R
  /\ getLength (getNormalized Scenes.down_right) = 1%R.
Proof.
  assert (Hz : Scenes.down_right <> mkVec 0%R 0%R).
  { intros E. apply (f_equal vec_x) in E. cbn in E. lra. }
  split; [exact Hz|].
  exact (proj1 (normalized_is_unit Scenes.down_right Hz)).
Defined.

(** X3.  On binary32, [getNormalized] of a zero vector (either sign of
    either zero) divides zero by zero: both components of the result are
    NaN. *)
Theorem normalizing_the_zero_vector_gives_nan (sx sy : bool) :
  getNormalized (mkVec (S754_zero sx : F32.t) (S754_zero sy))
  = mkVec S754_nan S754_nan.
Proof. destruct sx, sy; vm_compute; reflexivity. Qed.

(* ===================================================================== *)
(** * The ball against the walls, in exact arithmetic *)
(* ===================================================================== *)

(** X4.  In exact arithmetic one [Ball::update] moves the ball by its
    velocity, keeps its radius and the magnitude of each component of its
    velocity (a wall only changes a sign), and never clears the
    [destroyed] flag. *)
Theorem ball_update_keeps_speed (b : Ball R) :
  let b' := Ball_update b in
  circ_position (ball_circle b')
    = vec_add (circ_position (ball_circle b)) (ball_velocity b)
  /\ circ_radius (ball_circle b') = circ_radius (ball_circle b)
  /\ Rabs (vec_x (ball_velocity b')) = Rabs (vec_x (ball_velocity b))
  /\ Rabs (vec_y (ball_velocity b')) = Rabs (vec_y (ball_velocity b))
  /\ (ball_destroyed b = true -> ball_destroyed b' = true).
Proof.
  cbv zeta. rewrite !Ball_update_circle.
  split; [reflexivity|split; [reflexivity|]].
  assert (Hneg : forall x : R, Rabs (x * - (1)) = Rabs x).
  { intros x. replace (x * - (1))%R with (- x)%R by ring. apply Rabs_Ropp. }
  unfold Ball_update, Ball_solveBoundCollisions.
  repeat match goal with |- context [if ?c then _ else _] => destruct c end;
    cbn [ball_velocity ball_destroyed Ball_set_velocity Ball_set_destroyed
         Ball_move vec_x vec_y fmul fneg of_int real_arith];
    rewrite ?Hneg; auto.
Qed.

(** X5.  In exact arithmetic, take a ball inside the field.  If one
    update carries it past the left or the right border, that update
    reverses [velocity.x], and the next update brings the ball back to
    the abscissa it started from and does not reverse [velocity.x] again.
    The same holds of the top border and [velocity.y], and the ball is not
    marked on the way. *)
Theorem wall_overshoot_is_undone (b : Ball R) :
  (0 <= left b)%R -> (right b <= 800)%R -> (0 <= top b)%R -> (bottom b <= 600)%R ->
  let b1 := Ball_update b in
  let b2 := Ball_update b1 in
  ((left b1 < 0 \/ 800 < right b1)%R ->
     vec_x (ball_velocity b1) = (- vec_x (ball_velocity b))%R
     /\ circ_x (ball_circle b2) = circ_x (ball_circle b)
     /\ vec_x (ball_velocity b2) = vec_x (ball_velocity b1))
  /\ ((top b1 < 0)%R ->
     vec_y (ball_velocity b1) = (- vec_y (ball_velocity b))%R
     /\ circ_y (ball_circle b2) = circ_y (ball_circle b)
     /\ vec_y (ball_velocity b2) = vec_y (ball_velocity b1)
     /\ ball_destroyed b2 = ball_destroyed b).
Proof.
  destruct b as [d [[x y] r] [vx vy]].
  cbn [left right top bottom Ball_bounded Circle_bounded ball_circle circ_x
       circ_y circ_position circ_radius vec_x vec_y fadd fsub real_arith].
  intros Hl Hr Ht Hb. cbv zeta.
  unfold Ball_update, Ball_solveBoundCollisions, Ball_move, Ball_set_velocity,
    Ball_set_destroyed, vec_add.
  cbn [left right top bottom Ball_bounded Circle_bounded ball_circle circ_x
       circ_y circ_position circ_radius vec_x vec_y ball_velocity
       ball_destroyed flt fgt fadd fsub fmul fneg of_int real_arith].
  unfold Exact.ltb, wndWidth, wndHeight.
  split; [intros [Hout|Hout]|intros Hout];
    repeat (match goal with
            | |- context [Rlt_dec ?a ?b] => destruct (Rlt_dec a b)
            end;
            cbn [orb ball_circle circ_position circ_radius circ_x circ_y
                 vec_x vec_y ball_velocity ball_destroyed] in * );
    repeat split; try reflexivity; lra.
Qed.

Lemma wall_overshoot_is_undone_witness :
  (0 <= left Scenes.real_ball_near_wall)%R
  /\ (left (Ball_update Scenes.real_ball_near_wall) < 0)%R
  /\ circ_x (ball_circle (Ball_update (Ball_update Scenes.real_ball_near_wall)))
     = circ_x (ball_circle Scenes.real_ball_near_wall).
Proof.
  assert (Hl : (0 <= left Scenes.real_ball_near_wall)%R) by (cbn; lra).
  assert (Hr : (right Scenes.real_ball_near_wall <= 800)%R) by (cbn; lra).
  assert (Ht : (0 <= top Scenes.real_ball_near_wall)%R) by (cbn; lra).
  assert (Hb : (bottom Scenes.real_ball_near_wall <= 600)%R) by (cbn; lra).
  assert (Hout : (left (Ball_update Scenes.real_ball_near_wall) < 0)%R).
  { change (left (Ball_update Scenes.real_ball_near_wall))
      with (left (ball_circle (Ball_update Scenes.real_ball_near_wall))).
    rewrite Ball_update_circle. cbn. lra. }
  split; [exact Hl|]. split; [exact Hout|].
  exact (proj1 (proj2 (proj1
    (wall_overshoot_is_undone Scenes.real_ball_near_wall Hl Hr Ht Hb)
    (or_introl Hout)))).
Defined.

(* ===================================================================== *)
(** * The two resolvers, in exact arithmetic *)
(* ===================================================================== *)

(** X6.  In exact arithmetic [solvePaddleBallCollision] never changes the
    speed of the ball: [collisionVec] has the second component -2, so it is
    never the zero vector, its normalisation has length one, and the
    reflection keeps the length of the velocity. *)
Theorem paddle_bounce_keeps_speed (mPaddle : Paddle R) (mBall : Ball R) :
  getLength (ball_velocity (solvePaddleBallCollision mPaddle mBall))
  = getLength (ball_velocity mBall).
Proof.
  unfold solvePaddleBallCollision.
  destruct (isIntersecting mPaddle mBall); cbn [negb]; [|reflexivity].
  cbn [ball_velocity Ball_set_velocity Ball_setPosition].
  apply real_length_eq, reflected_dot, normalized_dot. intros E.
  apply (f_equal vec_y) in E. cbn [vec_y fneg of_int real_arith] in E. lra.
Qed.

(** X7.  In exact arithmetic a resolved paddle collision puts the ball on
    top of the paddle, at the same abscissa: its bottom edge is one radius
    above the top of the paddle.  The pair does not intersect any more, so
    a second call of the resolver changes nothing. *)
Theorem paddle_bounce_separates (mPaddle : Paddle R) (mBall : Ball R) :
  (0 < circ_radius (ball_circle mBall))%R ->
  isIntersecting mPaddle mBall = true ->
  let mBall' := solvePaddleBallCollision mPaddle mBall in
  circ_x (ball_circle mBall') = circ_x (ball_circle mBall)
  /\ circ_radius (ball_circle mBall') = circ_radius (ball_circle mBall)
  /\ bottom mBall' = (top mPaddle - circ_radius (ball_circle mBall))%R
  /\ isIntersecting mPaddle mBall' = false
  /\ solvePaddleBallCollision mPaddle mBall' = mBall'.
Proof.
  intros Hr Hi. cbv zeta.
  assert (Hb : bottom (solvePaddleBallCollision mPaddle mBall)
               = (top mPaddle - circ_radius (ball_circle mBall))%R).
  { unfold solvePaddleBallCollision. rewrite Hi.
    cbn [negb bottom Ball_bounded Circle_bounded ball_circle Ball_set_velocity
         Ball_setPosition circ_y circ_position vec_y circ_radius
         fadd fsub fmul of_int real_arith]. lra. }
  assert (Hn : isIntersecting mPaddle (solvePaddleBallCollision mPaddle mBall)
               = false).
  { unfold isIntersecting. rewrite Hb.
    match goal with |- context [fle (top mPaddle) ?b] =>
      assert (E' : fle (top mPaddle) b = false)
        by (cbn [fle fsub real_arith]; real_cmp; lra)
    end.
    rewrite E', !andb_false_r. reflexivity. }
  split; [|split; [|split; [exact Hb|split; [exact Hn|]]]].
  - unfold solvePaddleBallCollision. rewrite Hi. reflexivity.
  - unfold solvePaddleBallCollision. rewrite Hi. reflexivity.
  - unfold solvePaddleBallCollision at 1. rewrite Hn. reflexivity.
Qed.

Lemma real_ball_on_paddle_intersects :
  isIntersecting Fixtures.real_paddle Scenes.real_ball_on_paddle = true.
Proof.
  unfold isIntersecting.
  cbn [left right top bottom Paddle_bounded Ball_bounded Rectangle_bounded
       Circle_bounded Fixtures.real_paddle Scenes.real_ball_on_paddle Paddle_new
       paddle_rect ball_circle rect_x rect_y rect_width rect_height
       rect_position rect_size circ_x circ_y circ_position circ_radius
       vec_x vec_y Paddle_defWidth Paddle_defHeight
       fge fle fadd fsub fdiv of_int real_arith].
  repeat (apply andb_true_intro; split); real_cmp; lra.
Qed.

Lemma paddle_bounce_separates_witness :
  (0 < circ_radius (ball_circle Scenes.real_ball_on_paddle))%R
  /\ isIntersecting Fixtures.real_paddle Scenes.real_ball_on_paddle = true
  /\ isIntersecting Fixtures.real_paddle
       (solvePaddleBallCollision Fixtures.real_paddle Scenes.real_ball_on_paddle)
     = false.
Proof.
  assert (Hr : (0 < circ_radius (ball_circle Scenes.real_ball_on_paddle))%R)
    by (cbn; lra).
  split; [exact Hr|]. split; [exact real_ball_on_paddle_intersects|].
  exact (proj1 (proj2 (proj2 (proj2
    (paddle_bounce_separates Fixtures.real_paddle Scenes.real_ball_on_paddle
       Hr real_ball_on_paddle_intersects))))).
Defined.

Lemma Rabs_bound (x b : R) : (Rabs x <= b)%R -> (- b <= x <= b)%R.
Proof. unfold Rabs. destruct (Rcase_abs x); lra. Qed.

(** X8.  In exact arithmetic, with the sizes of the game (paddle 75 wide,
    ball of radius 10), a paddle at rest sends up every ball that comes
    down on it no flatter than 45 degrees: if the pair intersects,
    [velocity.y > 0] and [|velocity.x| <= velocity.y], then after
    [solvePaddleBallCollision] the ball has [velocity.y < 0]. *)
Theorem resting_paddle_bounces_up (mPaddle : Paddle R) (mBall : Ball R) :
  rect_width (paddle_rect mPaddle) = 75%R ->
  circ_radius (ball_circle mBall) = 10%R ->
  vec_x (paddle_velocity mPaddle) = 0%R ->
  isIntersecting mPaddle mBall = true ->
  (0 < vec_y (ball_velocity mBall))%R ->
  (Rabs (vec_x (ball_velocity mBall)) <= vec_y (ball_velocity mBall))%R ->
  (vec_y (ball_velocity (solvePaddleBallCollision mPaddle mBall)) < 0)%R.
Proof.
  intros Hw Hr Hv Hi Hy Hx.
  rewrite (paddle_bounce_exact mPaddle mBall Hi). cbv zeta.
  assert (Hc := posFactor_bound_exact mPaddle mBall).
  rewrite Hw, Hr in Hc. specialize (Hc ltac:(lra) Hi).
  unfold velFactor. rewrite Hv. cbn [fadd fmul real_arith].
  set (c := (posFactor mPaddle mBall + 0 * lit_0_05)%R).
  assert (Ec : c = posFactor mPaddle mBall) by (unfold c; ring).
  rewrite <- Ec in Hc. clearbody c.
  set (x := vec_x (ball_velocity mBall)) in *.
  set (y := vec_y (ball_velocity mBall)) in *.
  clearbody x y.
  assert (Hc' : (- (19 / 30) <= c <= 19 / 30)%R).
  { apply Rabs_bound. lra. }
  assert (Hx' : (- y <= x <= y)%R) by (apply Rabs_bound; exact Hx).
  assert (Hden : (0 < c * c + 4)%R) by nra.
  apply Rmult_lt_reg_r with (r := (c * c + 4)%R); [exact Hden|].
  unfold Rdiv. rewrite Rmult_assoc, Rinv_l by lra.
  rewrite Rmult_1_r, Rmult_0_l.
  assert (H1 : (4 * c * x <= 4 * (19 / 30) * y)%R).
  { destruct (Rle_dec 0 c).
    - assert (c * x <= c * y)%R by (apply Rmult_le_compat_l; lra).
      assert (c * y <= 19 / 30 * y)%R by (apply Rmult_le_compat_r; lra). lra.
    - assert (c * x <= (- c) * y)%R by nra.
      assert ((- c) * y <= 19 / 30 * y)%R by (apply Rmult_le_compat_r; lra). lra. }
  assert (H2 : (y * (c * c - 4) <= y * ((19 / 30) * (19 / 30) - 4))%R).
  { apply Rmult_le_compat_l; [lra|]. nra. }
  nra.
Qed.

Lemma resting_paddle_bounces_up_witness :
  isIntersecting Fixtures.real_paddle Scenes.real_ball_on_paddle = true
  /\ (0 < vec_y (ball_velocity Scenes.real_ball_on_paddle))%R
  /\ (vec_y (ball_velocity (solvePaddleBallCollision Fixtures.real_paddle
                              Scenes.real_ball_on_paddle)) < 0)%R.
Proof.
  assert (Hy : (0 < vec_y (ball_velocity Scenes.real_ball_on_paddle))%R)
    by (cbn; lra).
  assert (Hx : (Rabs (vec_x (ball_velocity Scenes.real_ball_on_paddle))
                <= vec_y (ball_velocity Scenes.real_ball_on_paddle))%R).
  { cbn. rewrite Rabs_pos_eq; lra. }
  split; [exact real_ball_on_paddle_intersects|]. split; [exact Hy|].
  exact (resting_paddle_bounces_up Fixtures.real_paddle Scenes.real_ball_on_paddle
           eq_refl eq_refl eq_refl real_ball_on_paddle_intersects Hy Hx).
Defined.

(** X9.  In exact arithmetic, on an intersecting pair the first component
    of [collisionVec], [posFactor + velFactor], is at most
    1/2 + radius/width + |paddle velocity.x| / 20 in magnitude: the centre
    of the ball may be one radius past the end of the paddle, and the
    velocity of the paddle counts for a twentieth. *)
Theorem collision_vector_bias_bound (mPaddle : Paddle R) (mBall : Ball R) :
  (0 < rect_width (paddle_rect mPaddle))%R ->
  isIntersecting mPaddle mBall = true ->
  (Rabs (posFactor mPaddle mBall + velFactor mPaddle)
   <= 1 / 2 + circ_radius (ball_circle mBall) / rect_width (paddle_rect mPaddle)
      + Rabs (vec_x (paddle_velocity mPaddle)) / 20)%R.
Proof.
  intros Hw Hi. pose proof (posFactor_bound_exact mPaddle mBall Hw Hi) as Hp.
  assert (Hv : Rabs (velFactor mPaddle)
               = (Rabs (vec_x (paddle_velocity mPaddle)) / 20)%R).
  { unfold velFactor. cbn [fmul lit_0_05 real_arith].
    rewrite Rabs_mult, (Rabs_pos_eq (5 / 100)) by lra. lra. }
  eapply Rle_trans; [apply Rabs_triang|]. rewrite Hv. lra.
Qed.

Lemma collision_vector_bias_bound_witness :
  (0 < rect_width (paddle_rect Fixtures.real_paddle))%R
  /\ isIntersecting Fixtures.real_paddle Scenes.real_ball_on_paddle = true
  /\ (Rabs (posFactor Fixtures.real_paddle Scenes.real_ball_on_paddle
            + velFactor Fixtures.real_paddle)
      <= 1 / 2 + 10 / 75 + Rabs 0 / 20)%R.
Proof.
  assert (Hw : (0 < rect_width (paddle_rect Fixtures.real_paddle))%R).
  { unfold Fixtures.real_paddle, Paddle_new, Paddle_defWidth. cbn. lra. }
  split; [exact Hw|]. split; [exact real_ball_on_paddle_intersects|].
  exact (collision_vector_bias_bound Fixtures.real_paddle
           Scenes.real_ball_on_paddle Hw real_ball_on_paddle_intersects).
Defined.

(** X10.  In exact arithmetic [solveBrickBallCollision] keeps the
    magnitude of each component of the velocity of the ball, and so its
    speed: it only ever changes a sign. *)
Theorem brick_bounce_keeps_speed (mBrick : Brick R) (mBall : Ball R) :
  let mBall' := (solveBrickBallCollision mBrick mBall).2 in
  Rabs (vec_x (ball_velocity mBall')) = Rabs (vec_x (ball_velocity mBall))
  /\ Rabs (vec_y (ball_velocity mBall')) = Rabs (vec_y (ball_velocity mBall))
  /\ getLength (ball_velocity mBall') = getLength (ball_velocity mBall).
Proof.
  cbv zeta.
  assert (Habs : forall (x : R) (b : bool),
            Rabs (Rabs x * (if b then - (1) else 1)) = Rabs x).
  { intros x b. rewrite Rabs_mult, Rabs_Rabsolu.
    destruct b; [rewrite Rabs_Ropp|]; rewrite Rabs_R1; ring. }
  assert (Hxy : Rabs (vec_x (ball_velocity (solveBrickBallCollision mBrick mBall).2))
              = Rabs (vec_x (ball_velocity mBall))
            /\ Rabs (vec_y (ball_velocity (solveBrickBallCollision mBrick mBall).2))
              = Rabs (vec_y (ball_velocity mBall))).
  { unfold solveBrickBallCollision.
    destruct (isIntersecting mBrick mBall); cbn [negb snd]; [|split; reflexivity].
    match goal with |- context [if ?c then Ball_set_velocity _ _ else _] =>
      destruct c end;
      cbn [ball_velocity Ball_set_velocity vec_x vec_y fabs fmul fneg of_int
           real_arith];
      split; try reflexivity; apply Habs. }
  destruct Hxy as [Hx Hy]. split; [exact Hx|split; [exact Hy|]].
  apply real_length_eq. unfold getDotProduct. cbn [fadd fmul real_arith].
  set (x' := vec_x _) in *. set (y' := vec_y _) in *.
  set (x := vec_x (ball_velocity mBall)) in *.
  set (y := vec_y (ball_velocity mBall)) in *.
  assert (Sx : (x' * x' = x * x)%R).
  { change (Rsqr x' = Rsqr x). rewrite (Rsqr_abs x'), (Rsqr_abs x), Hx.
    reflexivity. }
  assert (Sy : (y' * y' = y * y)%R).
  { change (Rsqr y' = Rsqr y). rewrite (Rsqr_abs y'), (Rsqr_abs y), Hy.
    reflexivity. }
  rewrite Sx, Sy. reflexivity.
Qed.

(* ===================================================================== *)
(** * Manager: creating, looking up and refreshing *)
(* ===================================================================== *)

Section ManagerUse.
Context {F : Type} `{Arith F}.
Variable hash_code : EntityType -> N.
Implicit Types (m : Manager F) (p : ptr) (e : Entity F).

(** X11.  [create] on a well-formed manager returns an address that was
    not owned; afterwards the address resolves to the new object, every
    other address resolves as before, the address is the last of
    [entities] and the last of [getAll] for the class of the object, the
    vectors of the classes with another hash are unchanged, and the
    manager is well formed again. *)
Theorem create_registers_entity e m :
  Manager_wf m ->
  let p := (Manager_create hash_code e m).1 in
  let m' := (Manager_create hash_code e m).2 in
  (p ∉ entities m)
  /\ store m' !! p = Some e
  /\ (forall q, q <> p -> store m' !! q = store m !! q)
  /\ entities m' = entities m ++ [p]
  /\ (Manager_getAll hash_code (entity_type e) m').1
     = (Manager_getAll hash_code (entity_type e) m).1 ++ [p]
  /\ (forall T, hash_code T <> hash_code (entity_type e) ->
        (Manager_getAll hash_code T m').1 = (Manager_getAll hash_code T m).1)
  /\ Manager_wf m'.
Proof.
  intros Hwf. cbv zeta.
  pose proof (create_fresh hash_code e m) as Hfresh.
  set (p := (Manager_create hash_code e m).1) in *.
  split.
  { intros Hin. apply (wf_owned _ Hwf) in Hin. rewrite Hfresh in Hin.
    destruct Hin; discriminate. }
  split; [rewrite create_store; apply lookup_insert_eq|].
  split.
  { intros q Hq. rewrite create_store. apply lookup_insert_ne. auto. }
  split; [apply create_entities|].
  split.
  { rewrite !getAll_fst, create_bucket, decide_True by reflexivity. reflexivity. }
  split; [|apply create_wf, Hwf].
  intros T HT. rewrite !getAll_fst, create_bucket, decide_False by exact HT.
  apply app_nil_r.
Qed.

(** X12.  [getAll<T>()] is a lookup: it changes neither [entities] nor
    the objects; when the map has no vector under the key of [T] it
    returns the empty vector and adds that empty vector to the map, and
    otherwise it changes nothing at all.  It changes the answer of no
    later [getAll], and asking twice gives the same vector and the same
    manager. *)
Theorem getAll_is_read_only (T : EntityType) m :
  let v := (Manager_getAll hash_code T m).1 in
  let m' := (Manager_getAll hash_code T m).2 in
  entities m' = entities m
  /\ store m' = store m
  /\ (groupedEntities m !! hash_code T = None ->
        v = [] /\ groupedEntities m' = <[hash_code T := []]> (groupedEntities m))
  /\ (is_Some (groupedEntities m !! hash_code T) -> m' = m)
  /\ (forall T', (Manager_getAll hash_code T' m').1 = (Manager_getAll hash_code T' m).1)
  /\ Manager_getAll hash_code T m' = (v, m').
Proof.
  cbv zeta. split; [apply getAll_entities|]. split; [apply getAll_store|].
  split.
  { intros E. unfold Manager_getAll. rewrite E. auto. }
  split.
  { intros [v E]. unfold Manager_getAll. rewrite E. reflexivity. }
  split.
  { intros T'. rewrite !getAll_fst. apply getAll_bucket. }
  unfold Manager_getAll.
  destruct (groupedEntities m !! hash_code T) as [v|] eqn:E; cbn [fst snd].
  - rewrite E. reflexivity.
  - cbn [groupedEntities]. rewrite lookup_insert_eq. reflexivity.
Qed.

End ManagerUse.

Lemma create_registers_entity_witness :
  Manager_wf (Manager_empty (F:=F32.t))
  /\ store (Manager_create Fixtures.type_hash (EBrick Fixtures.first_brick)
              Manager_empty).2
       !! (Manager_create Fixtures.type_hash (EBrick Fixtures.first_brick)
             Manager_empty).1
     = Some (EBrick Fixtures.first_brick).
Proof.
  split; [exact Manager_empty_wf|].
  exact (proj1 (proj2
    (create_registers_entity Fixtures.type_hash (EBrick Fixtures.first_brick)
       Manager_empty Manager_empty_wf))).
Defined.

Section RefreshUse.
Context {F : Type}.
Implicit Types (m : Manager F) (p : ptr).

Lemma survivors_all m v :
  (forall p, p ∈ v -> alive m p = true) -> survivors m v = v.
Proof.
  intros Hv. unfold survivors. induction v as [|p v IH]; [reflexivity|].
  rewrite filter_cons, decide_True by (apply Hv; left).
  f_equal. apply IH. intros q Hq. apply Hv. right. exact Hq.
Qed.

Lemma release_all (owned : list ptr) (s : gmap ptr (Entity F)) :
  release owned owned s = s.
Proof.
  apply map_eq. intros p. rewrite release_lookup.
  destruct (decide _) as [[H1 H2]|]; [contradiction|reflexivity].
Qed.

Lemma refreshed_unmarked m :
  Manager_wf m ->
  (forall p e, store m !! p = Some e -> destroyed e = false) ->
  refreshed m = m.
Proof.
  intros Hwf Hlive.
  assert (Ha : forall p, p ∈ entities m -> alive m p = true).
  { intros p Hp. apply (wf_owned _ Hwf) in Hp. destruct Hp as [e He].
    apply alive_Some. exists e. split; [exact He|]. eapply Hlive, He. }
  destruct m as [es gs st]. unfold refreshed.
  cbn [entities groupedEntities store] in *.
  rewrite (survivors_all _ es) by exact Ha.
  rewrite release_all. f_equal.
  apply map_eq. intros key. rewrite lookup_fmap.
  destruct (gs !! key) as [v|] eqn:E; [|reflexivity]. cbn. f_equal.
  apply survivors_all. intros p Hp. apply Ha.
  exact (wf_grouped _ Hwf key v p E Hp).
Qed.

(** X13.  On a well-formed manager in which no object is marked,
    [refresh] is defined and returns the manager unchanged: the same
    [entities], the same map of vectors and the same objects. *)
Theorem refresh_without_marks_changes_nothing m :
  Manager_wf m ->
  (forall p e, store m !! p = Some e -> destroyed e = false) ->
  Manager_refresh m = Some m.
Proof.
  intros Hwf Hlive. rewrite Manager_refresh_wf by exact Hwf. f_equal.
  apply refreshed_unmarked; assumption.
Qed.

(** X14.  [refresh] is idempotent on a well-formed manager: a second
    call right after the first is defined and changes nothing. *)
Theorem refresh_twice_is_refresh_once m m' :
  Manager_wf m -> Manager_refresh m = Some m' -> Manager_refresh m' = Some m'.
Proof.
  intros Hwf. rewrite Manager_refresh_wf by exact Hwf. intros [= <-].
  rewrite Manager_refresh_wf by apply refreshed_wf, Hwf. f_equal.
  apply refreshed_unmarked.
  - apply refreshed_wf, Hwf.
  - intros p e. apply refreshed_nothing_destroyed, Hwf.
Qed.

(** X15.  [refresh] on a well-formed manager leaves every object that is
    not marked at its address, unchanged, and releases every marked one:
    its address does not resolve any more.  It allocates nothing. *)
Theorem refresh_keeps_survivors_in_place m :
  Manager_wf m ->
  exists m', Manager_refresh m = Some m'
    /\ (forall p e, store m !! p = Some e -> destroyed e = false ->
          store m' !! p = Some e)
    /\ (forall p e, store m !! p = Some e -> destroyed e = true ->
          store m' !! p = None)
    /\ (forall p, store m !! p = None -> store m' !! p = None).
Proof.
  intros Hwf. exists (refreshed m). split; [apply Manager_refresh_wf, Hwf|].
  split; [|split].
  - intros p e He Hd. rewrite refreshed_store by exact Hwf.
    unfold alive. rewrite He, Hd. reflexivity.
  - intros p e He Hd. rewrite refreshed_store by exact Hwf.
    unfold alive. rewrite He, Hd. reflexivity.
  - intros p He. rewrite refreshed_store by exact Hwf.
    unfold alive. rewrite He. reflexivity.
Qed.

End RefreshUse.

Lemma manager_after_refresh_wf : Manager_wf Scenes.manager_after_refresh.
Proof. apply refreshed_wf, manager_with_marked_brick_wf. Qed.

Lemma manager_after_refresh_unmarked p e :
  store Scenes.manager_after_refresh !! p = Some e -> destroyed e = false.
Proof. apply refreshed_nothing_destroyed, manager_with_marked_brick_wf. Qed.

Lemma refresh_without_marks_changes_nothing_witness :
  Manager_wf Scenes.manager_after_refresh
  /\ Manager_refresh Scenes.manager_after_refresh
     = Some Scenes.manager_after_refresh.
Proof.
  split; [exact manager_after_refresh_wf|].
  exact (refresh_without_marks_changes_nothing Scenes.manager_after_refresh
           manager_after_refresh_wf manager_after_refresh_unmarked).
Defined.

Lemma refresh_twice_is_refresh_once_witness :
  Manager_wf Fixtures.manager_with_marked_brick
  /\ Manager_refresh Fixtures.manager_with_marked_brick
     = Some Scenes.manager_after_refresh
  /\ Manager_refresh Scenes.manager_after_refresh
     = Some Scenes.manager_after_refresh.
Proof.
  pose proof (Manager_refresh_wf _ manager_with_marked_brick_wf) as E.
  split; [exact manager_with_marked_brick_wf|]. split; [exact E|].
  exact (refresh_twice_is_refresh_once Fixtures.manager_with_marked_brick
           Scenes.manager_after_refresh manager_with_marked_brick_wf E).
Defined.

Lemma refresh_keeps_survivors_in_place_witness :
  Manager_wf Fixtures.manager_with_marked_brick
  /\ exists m', Manager_refresh Fixtures.manager_with_marked_brick = Some m'
       /\ store m' !! 1%positive = None
       /\ store m' !! 2%positive = Some (EBall Fixtures.ball_under_first_brick).
Proof.
  split; [exact manager_with_marked_brick_wf|].
  destruct (refresh_keeps_survivors_in_place Fixtures.manager_with_marked_brick
              manager_with_marked_brick_wf) as (m' & E & Hkeep & Hdrop & _).
  exists m'. split; [exact E|]. split.
  - apply (Hdrop 1%positive
             (Entity_set_destroyed true (EBrick Fixtures.first_brick)));
      vm_compute; reflexivity.
  - apply Hkeep; vm_compute; reflexivity.
Defined.

(* ===================================================================== *)
(** * Reasoning about computations that may be undefined *)
(* ===================================================================== *)


Section PartialRules.
Context {S : Type}.

Lemma bind_inv {A B} (c : SE S A) (f : A -> SE S B) s b s'' :
  (c ≫= f) s = Some (b, s'') ->
  exists a s', c s = Some (a, s') /\ f a s' = Some (b, s'').
Proof.
  unfold mbind, SE_bind. destruct (c s) as [[a s']|]; [|discriminate].
  intros E. eauto.
Qed.

Lemma partial_ret {A} (P : S -> Prop) (a : A) (Q : A -> S -> Prop) :
  (forall s, P s -> Q a s) -> partial P (mret a) Q.
Proof. intros HQ s a' s' HP [= <- <-]. auto. Qed.

Lemma partial_bind {A B} P (c : SE S A) (f : A -> SE S B) Q R :
  partial P c Q -> (forall a, partial (Q a) (f a) R) -> partial P (c ≫= f) R.
Proof.
  intros Hc Hf s b s'' HP E.
  destruct (bind_inv _ _ _ _ _ E) as (a & s' & E1 & E2).
  eapply Hf; [|exact E2]. eapply Hc; eauto.
Qed.

Lemma partial_consequence {A} P P' (c : SE S A) (Q Q' : A -> S -> Prop) :
  partial P' c Q' -> (forall s, P s -> P' s) ->
  (forall a s, Q' a s -> Q a s) -> partial P c Q.
Proof. intros Hc HP HQ s a s' Hs E. eapply HQ, Hc; eauto. Qed.

Lemma partial_gets {A} P (f : S -> A) (Q : A -> S -> Prop) :
  (forall s, P s -> Q (f s) s) -> partial P (gets f) Q.
Proof. intros HQ s a s' HP [= <- <-]. auto. Qed.

Lemma partial_modify P (f : S -> S) (Q : unit -> S -> Prop) :
  (forall s, P s -> Q tt (f s)) -> partial P (modify f) Q.
Proof. intros HQ s a s' HP [= <- <-]. auto. Qed.

Lemma partial_try_modify P (f : S -> option S) (Q : unit -> S -> Prop) :
  (forall s s', P s -> f s = Some s' -> Q tt s') -> partial P (try_modify f) Q.
Proof.
  intros HQ s a s' HP. unfold try_modify.
  destruct (f s) as [s1|] eqn:E; [|discriminate]. intros [= <- <-]. eauto.
Qed.

Lemma partial_for_each {A} (I : S -> Prop) (l : list A) (body : A -> SE S unit) :
  (forall x, x ∈ l -> partial I (body x) (fun _ => I)) ->
  partial I (for_each l body) (fun _ => I).
Proof.
  induction l as [|x l IH]; intros Hb.
  - apply partial_ret. auto.
  - cbn [for_each]. eapply partial_bind; [apply Hb; left|].
    intros []. apply IH. intros y Hy. apply Hb. right. exact Hy.
Qed.

End PartialRules.

(** ** What the parts of a frame keep

    An assertion on the game that the elementary steps of the simulation
    keep is kept by the simulation. *)
Section FrameKeeps.
Context {F : Type} `{Arith F}.
Variable hash_code : EntityType -> N.
Variable I : Game F -> Prop.
Implicit Types (g : Game F) (p : ptr) (e : Entity F).

Hypothesis I_getAll : forall T g,
  I g -> I (set_manager (Manager_getAll hash_code T (manager g)).2 g).
Hypothesis I_update : forall k p e g,
  I g -> store (manager g) !! p = Some e -> I (updated_entity k p e g).
Hypothesis I_brick : forall ball brick br ba g,
  I g -> store (manager g) !! brick = Some (EBrick br) ->
  store (manager g) !! ball = Some (EBall ba) ->
  I (brick_ball_resolved ball brick br ba g).
Hypothesis I_paddle : forall ball paddle pd ba g,
  I g -> store (manager g) !! paddle = Some (EPaddle pd) ->
  store (manager g) !! ball = Some (EBall ba) ->
  I (paddle_ball_resolved ball paddle pd ba g).
Hypothesis I_refresh : forall g m,
  I g -> Manager_refresh (manager g) = Some m -> I (set_manager m g).

Lemma deref_inv p g e g' :
  deref p g = Some (e, g') -> g' = g /\ store (manager g) !! p = Some e.
Proof.
  unfold deref. destruct (store (manager g) !! p); [|discriminate].
  intros [= <- <-]. auto.
Qed.

Lemma deref_ball_inv p g b g' :
  deref_ball p g = Some (b, g') -> g' = g /\ store (manager g) !! p = Some (EBall b).
Proof.
  unfold deref_ball. intros E. apply bind_inv in E.
  destruct E as (e & g1 & E1 & E2). apply deref_inv in E1. destruct E1 as [-> E1].
  destruct e; try discriminate E2. injection E2 as <- <-. auto.
Qed.

Lemma deref_paddle_inv p g b g' :
  deref_paddle p g = Some (b, g') ->
  g' = g /\ store (manager g) !! p = Some (EPaddle b).
Proof.
  unfold deref_paddle. intros E. apply bind_inv in E.
  destruct E as (e & g1 & E1 & E2). apply deref_inv in E1. destruct E1 as [-> E1].
  destruct e; try discriminate E2. injection E2 as <- <-. auto.
Qed.

Lemma deref_brick_inv p g b g' :
  deref_brick p g = Some (b, g') ->
  g' = g /\ store (manager g) !! p = Some (EBrick b).
Proof.
  unfold deref_brick. intros E. apply bind_inv in E.
  destruct E as (e & g1 & E1 & E2). apply deref_inv in E1. destruct E1 as [-> E1].
  destruct e; try discriminate E2. injection E2 as <- <-. auto.
Qed.

Lemma update_entity_inv k p g a g' :
  update_entity k p g = Some (a, g') ->
  exists e, store (manager g) !! p = Some e /\ g' = updated_entity k p e g.
Proof.
  unfold update_entity. intros E. apply bind_inv in E.
  destruct E as (e & g1 & E1 & E2). apply deref_inv in E1. destruct E1 as [-> E1].
  exists e. split; [exact E1|]. injection E2 as <- <-. reflexivity.
Qed.

Lemma resolveBrickBall_inv ball brick g a g' :
  resolveBrickBall ball brick g = Some (a, g') ->
  exists br ba, store (manager g) !! brick = Some (EBrick br)
    /\ store (manager g) !! ball = Some (EBall ba)
    /\ g' = brick_ball_resolved ball brick br ba g.
Proof.
  unfold resolveBrickBall. intros E. apply bind_inv in E.
  destruct E as (br & g1 & E1 & E). apply deref_brick_inv in E1.
  destruct E1 as [-> E1]. apply bind_inv in E.
  destruct E as (ba & g1 & E2 & E). apply deref_ball_inv in E2.
  destruct E2 as [-> E2]. exists br, ba. split; [exact E1|]. split; [exact E2|].
  unfold brick_ball_resolved.
  destruct (solveBrickBallCollision br ba) as [br' ba'].
  injection E as <- <-. reflexivity.
Qed.

Lemma resolvePaddleBall_inv ball paddle g a g' :
  resolvePaddleBall ball paddle g = Some (a, g') ->
  exists pd ba, store (manager g) !! paddle = Some (EPaddle pd)
    /\ store (manager g) !! ball = Some (EBall ba)
    /\ g' = paddle_ball_resolved ball paddle pd ba g.
Proof.
  unfold resolvePaddleBall. intros E. apply bind_inv in E.
  destruct E as (pd & g1 & E1 & E). apply deref_paddle_inv in E1.
  destruct E1 as [-> E1]. apply bind_inv in E.
  destruct E as (ba & g1 & E2 & E). apply deref_ball_inv in E2.
  destruct E2 as [-> E2]. exists pd, ba. split; [exact E1|]. split; [exact E2|].
  injection E as <- <-. reflexivity.
Qed.

Lemma getAll_inv T g v g' :
  getAll hash_code T g = Some (v, g') ->
  v = bucket hash_code T (manager g)
  /\ g' = set_manager (Manager_getAll hash_code T (manager g)).2 g.
Proof.
  unfold getAll. rewrite <- (getAll_fst hash_code T (manager g)).
  destruct (Manager_getAll hash_code T (manager g)) as [v0 m0].
  intros [= <- <-]. auto.
Qed.

Lemma forEach_keeps T (mFunc : ptr -> SE (Game F) unit) :
  (forall p, partial I (mFunc p) (fun _ => I)) ->
  partial I (forEach hash_code T mFunc) (fun _ => I).
Proof.
  intros Hf. unfold forEach.
  eapply partial_bind with (Q := fun _ => I).
  - intros g v g' Hg E. apply getAll_inv in E. destruct E as [_ ->].
    apply I_getAll, Hg.
  - intros v. apply partial_for_each. intros p _. apply Hf.
Qed.

Lemma update_keeps k : partial I (update k) (fun _ => I).
Proof.
  unfold update. eapply partial_bind with (Q := fun _ => I).
  - apply partial_gets. auto.
  - intros ps. apply partial_for_each. intros p _ g a g' Hg E.
    apply update_entity_inv in E. destruct E as (e & He & ->).
    apply I_update; assumption.
Qed.

Lemma collisions_keep :
  partial I
    (forEach hash_code TBall (fun mBall =>
       forEach hash_code TBrick (fun mBrick => resolveBrickBall mBall mBrick) ;;
       forEach hash_code TPaddle (fun mPaddle => resolvePaddleBall mBall mPaddle)))
    (fun _ => I).
Proof.
  apply forEach_keeps. intros ball.
  eapply partial_bind with (Q := fun _ => I).
  - apply forEach_keeps. intros brick g a g' Hg E.
    apply resolveBrickBall_inv in E. destruct E as (br & ba & E1 & E2 & ->).
    apply I_brick; assumption.
  - intros []. apply forEach_keeps. intros paddle g a g' Hg E.
    apply resolvePaddleBall_inv in E. destruct E as (pd & ba & E1 & E2 & ->).
    apply I_paddle; assumption.
Qed.

Lemma refresh_keeps : partial I refresh (fun _ => I).
Proof.
  apply partial_try_modify. intros g g' Hg E.
  destruct (Manager_refresh (manager g)) as [m|] eqn:Em; [|discriminate].
  injection E as <-. eapply I_refresh; eauto.
Qed.

(** The part of [simulate] from [manager.update()] on. *)
Lemma physics_keeps k :
  partial I
    (update k ;;
     forEach hash_code TBall (fun mBall =>
       forEach hash_code TBrick (fun mBrick => resolveBrickBall mBall mBrick) ;;
       forEach hash_code TPaddle (fun mPaddle => resolvePaddleBall mBall mPaddle)) ;;
     refresh)
    (fun _ => I).
Proof.
  eapply partial_bind; [apply update_keeps|]. intros [].
  eapply partial_bind; [apply collisions_keep|]. intros [].
  apply refresh_keeps.
Qed.

End FrameKeeps.

Section FrameEquations.
Context {F : Type} `{Arith F}.
Variable hash_code : EntityType -> N.
Implicit Types (g : Game F) (p : ptr) (e : Entity F).


Lemma handle_input_eq k g :
  handle_input hash_code k g
  = (if key_R k then restart hash_code else mret tt) (input_toggled k g).
Proof.
  unfold handle_input, input_toggled, toggled.
  destruct g as [m st pressed lives h]. cbn [pausePressedLastFrame state manager
    remainingLives history].
  destruct (key_P k), pressed; cbn [andb negb]; try reflexivity.
  destruct st; reflexivity.
Qed.

Lemma simulate_eq k g :
  simulate hash_code k g = physics hash_code k (judged hash_code (spawned hash_code g)).
Proof.
  unfold simulate, judged, spawned, physics.
  unfold mbind at 1, SE_bind at 1. unfold getAll at 1.
  rewrite <- (getAll_fst hash_code TBall (manager g)).
  destruct (Manager_getAll hash_code TBall (manager g)) as [balls m1] eqn:E1.
  cbn [fst snd].
  destruct (decide (balls = [])) as [Hb|Hb].
  - unfold mbind at 1, SE_bind at 1. unfold mbind at 1, SE_bind at 1.
    unfold create at 1. cbn [manager set_manager].
    destruct (Manager_create hash_code _ m1) as [pb m2] eqn:E2.
    cbn [modify snd].
    set (g2 := set_remainingLives _ _).
    unfold mbind at 1, SE_bind at 1. unfold getAll at 1.
    rewrite <- (getAll_fst hash_code TBrick (manager g2)).
    destruct (Manager_getAll hash_code TBrick (manager g2)) as [bricks m3] eqn:E3.
    cbn [fst snd].
    destruct (decide (bricks = [])); unfold mbind at 1, SE_bind at 1;
      cbn [modify mret SE_ret]; unfold mbind at 1, SE_bind at 1; cbn [gets];
      match goal with |- context [(?l <=? 0)%Z] => destruct (l <=? 0)%Z end;
      reflexivity.
  - unfold mbind at 1, SE_bind at 1. cbn [mret SE_ret].
    set (g2 := set_manager m1 g).
    unfold mbind at 1, SE_bind at 1. unfold getAll at 1.
    rewrite <- (getAll_fst hash_code TBrick (manager g2)).
    destruct (Manager_getAll hash_code TBrick (manager g2)) as [bricks m3] eqn:E3.
    cbn [fst snd].
    destruct (decide (bricks = [])); unfold mbind at 1, SE_bind at 1;
      cbn [modify mret SE_ret]; unfold mbind at 1, SE_bind at 1; cbn [gets];
      match goal with |- context [(?l <=? 0)%Z] => destruct (l <=? 0)%Z end;
      reflexivity.
Qed.

End FrameEquations.


Section Grouping.
Context {F : Type} `{Arith F}.
Variable hash_code : EntityType -> N.
Implicit Types (m : Manager F) (p : ptr) (e : Entity F).


Lemma grouped_empty : grouped_by_type hash_code (Manager_empty (F:=F)).
Proof. intros key. cbn. rewrite lookup_empty. reflexivity. Qed.

Lemma filter_ext_in {A} (P Q : A -> Prop) `{!forall x, Decision (P x)}
    `{!forall x, Decision (Q x)} (l : list A) :
  (forall x, x ∈ l -> P x <-> Q x) -> filter P l = filter Q l.
Proof.
  induction l as [|x l IH]; intros Hl; [reflexivity|].
  rewrite !filter_cons.
  assert (Hx : P x <-> Q x) by (apply Hl; left).
  rewrite IH by (intros y Hy; apply Hl; right; exact Hy).
  destruct (decide (P x)), (decide (Q x)); tauto.
Qed.

Lemma filter_key_ext (m m' : Manager F) key (l : list ptr) :
  (forall p, p ∈ l -> key_at hash_code m' p = key_at hash_code m p) ->
  filter (fun p => key_at hash_code m' p = Some key) l
  = filter (fun p => key_at hash_code m p = Some key) l.
Proof.
  intros Hl. apply filter_ext_in. intros p Hp. rewrite (Hl p Hp). reflexivity.
Qed.

Lemma grouped_create e m :
  Manager_wf m -> grouped_by_type hash_code m ->
  grouped_by_type hash_code (Manager_create hash_code e m).2.
Proof.
  intros Hwf Hg key. pose proof (create_fresh hash_code e m) as Hfresh.
  rewrite create_entities.
  set (p := (Manager_create hash_code e m).1) in *.
  set (m' := (Manager_create hash_code e m).2).
  assert (Hold : forall q, q ∈ entities m ->
                           key_at hash_code m' q = key_at hash_code m q).
  { intros q Hq. unfold key_at, m'. rewrite create_store. fold p.
    rewrite lookup_insert_ne; [reflexivity|].
    intros ->. apply (wf_owned _ Hwf) in Hq. rewrite Hfresh in Hq.
    destruct Hq; discriminate. }
  assert (Hp : key_at hash_code m' p = Some (hash_code (entity_type e))).
  { unfold key_at, m'. rewrite create_store. fold p.
    rewrite lookup_insert_eq. reflexivity. }
  assert (Hlast : filter (fun q => key_at hash_code m' q = Some key) [p]
                  = if decide (key = hash_code (entity_type e)) then [p] else []).
  { rewrite filter_cons, filter_nil. rewrite Hp.
    destruct (decide (Some _ = Some key)) as [E|E],
             (decide (key = hash_code (entity_type e))) as [E'|E'];
      congruence. }
  rewrite filter_app, (filter_key_ext m m' key _ Hold), <- Hg, Hlast.
  unfold m'. cbn [Manager_create snd groupedEntities]. fold p.
  destruct (decide (key = hash_code (entity_type e))) as [->|Hk].
  - rewrite lookup_insert_eq. reflexivity.
  - rewrite lookup_insert_ne by congruence. rewrite app_nil_r. reflexivity.
Qed.

Lemma grouped_store_set p e e' m :
  store m !! p = Some e -> entity_type e' = entity_type e ->
  grouped_by_type hash_code m -> grouped_by_type hash_code (store_set p e' m).
Proof.
  intros Hp Ht Hg key. cbn [store_set groupedEntities entities].
  rewrite Hg. symmetry. apply filter_ext_in. intros q _.
  unfold key_at. cbn [store_set store].
  destruct (decide (p = q)) as [->|Hpq].
  - rewrite lookup_insert_eq, Hp. cbn. rewrite Ht. reflexivity.
  - rewrite lookup_insert_ne by exact Hpq. reflexivity.
Qed.

Lemma grouped_getAll T m :
  grouped_by_type hash_code m ->
  grouped_by_type hash_code (Manager_getAll hash_code T m).2.
Proof.
  intros Hg key. rewrite getAll_entities.
  rewrite (filter_key_ext m _ key).
  - rewrite <- Hg. unfold Manager_getAll.
    destruct (groupedEntities m !! hash_code T) eqn:E; cbn; [reflexivity|].
    destruct (decide (key = hash_code T)) as [->|Hk].
    + rewrite lookup_insert_eq, E. reflexivity.
    + rewrite lookup_insert_ne by congruence. reflexivity.
  - intros p _. unfold key_at. rewrite getAll_store. reflexivity.
Qed.

Lemma grouped_refreshed m :
  Manager_wf m -> grouped_by_type hash_code m -> grouped_by_type hash_code (refreshed m).
Proof.
  intros Hwf Hg key. cbn [refreshed groupedEntities entities].
  rewrite lookup_fmap.
  transitivity (survivors m (default [] (groupedEntities m !! key))).
  { destruct (groupedEntities m !! key); reflexivity. }
  rewrite Hg. unfold survivors. rewrite !list_filter_filter.
  apply list_filter_iff. intros p.
  unfold key_at. fold (refreshed m). rewrite (refreshed_store m p Hwf).
  destruct (alive m p); cbn; [tauto|].
  split; [intros [[=] _]|intros [_ [=]]].
Qed.

Lemma objects_create e m :
  Manager_wf m -> objects (Manager_create hash_code e m).2 = objects m ++ [Some e].
Proof.
  intros Hwf. pose proof (create_fresh hash_code e m) as Hfresh.
  unfold objects. rewrite create_entities, create_store, fmap_app.
  set (p := (Manager_create hash_code e m).1) in *. cbn [fmap list_fmap].
  rewrite lookup_insert_eq. f_equal.
  apply list_fmap_ext. intros i q Hq.
  apply lookup_insert_ne. intros ->.
  apply list_elem_of_lookup_2, (wf_owned _ Hwf) in Hq.
  rewrite Hfresh in Hq. destruct Hq; discriminate.
Qed.

Lemma objects_replace_last e e' m :
  Manager_wf m ->
  objects (store_set (Manager_create hash_code e m).1 e'
             (Manager_create hash_code e m).2)
  = objects m ++ [Some e'].
Proof.
  intros Hwf. pose proof (create_fresh hash_code e m) as Hfresh.
  unfold objects. cbn [store_set entities store].
  rewrite create_entities, create_store, fmap_app.
  set (p := (Manager_create hash_code e m).1) in *. cbn [fmap list_fmap].
  rewrite lookup_insert_eq. f_equal.
  apply list_fmap_ext. intros i q Hq.
  assert (p <> q).
  { intros ->. apply list_elem_of_lookup_2, (wf_owned _ Hwf) in Hq.
    rewrite Hfresh in Hq. destruct Hq; discriminate. }
  rewrite !lookup_insert_ne by assumption. reflexivity.
Qed.

End Grouping.


Section Level.
Context {F : Type} `{Arith F}.
Variable hash_code : EntityType -> N.
Implicit Types (g : Game F) (p : ptr) (e : Entity F) (h : list Event).


Lemma built_create h pressed l e :
  hoare (built hash_code h pressed l) (create hash_code e)
        (fun _ => built hash_code h pressed (l ++ [e])).
Proof.
  intros g (Hwf & Hg & Ho & Hs). rewrite create_run.
  eexists _, _. split; [reflexivity|]. unfold built. cbn [manager set_manager].
  split; [apply create_wf, Hwf|]. split; [apply grouped_create; assumption|].
  split; [|exact Hs].
  rewrite objects_create by exact Hwf. rewrite Ho, fmap_app. reflexivity.
Qed.

Lemma built_place h pressed l (iX iY : Z) :
  hoare (built hash_code h pressed l)
        (brick ← create hash_code (EBrick (new_brick iX iY));
         b ← deref_brick brick;
         assign brick (EBrick (Brick_set_requiredHits b (1 + Z.rem (iX * iY) 3))))
        (fun _ => built hash_code h pressed (l ++ [EBrick (grid_brick iX iY)])).
Proof.
  intros g (Hwf & Hg & Ho & Hs).
  rewrite (bind_run _ _ _ _ _ (create_run _ _ _)).
  set (e := EBrick (new_brick iX iY)).
  set (p := (Manager_create hash_code e (manager g)).1).
  set (g1 := set_manager _ g).
  assert (E1 : store (manager g1) !! p = Some e).
  { unfold g1. cbn [manager set_manager]. rewrite create_store.
    apply lookup_insert_eq. }
  rewrite (bind_run _ _ _ _ _ (deref_brick_run _ _ _ E1)).
  eexists tt, _. split; [reflexivity|].
  unfold built, g1. cbn [manager set_manager].
  split; [|split; [|split; [|exact Hs]]].
  - apply store_set_wf; [|apply create_wf, Hwf].
    rewrite create_store, lookup_insert_eq. eauto.
  - eapply (grouped_store_set hash_code p e).
    + rewrite create_store. apply lookup_insert_eq.
    + reflexivity.
    + apply grouped_create; assumption.
  - unfold p. rewrite objects_replace_last by exact Hwf.
    rewrite Ho, fmap_app. reflexivity.
Qed.

Lemma restart_run g :
  exists g',
    restart hash_code g = Some (tt, g')
    /\ built hash_code (history g) (pausePressedLastFrame g) start_objects g'.
Proof.
  set (h := history g). set (pressed := pausePressedLastFrame g).
  assert (Hr : hoare (fun g0 => history g0 = h /\ pausePressedLastFrame g0 = pressed)
                 (restart hash_code)
                 (fun _ => built hash_code h pressed start_objects)).
  { unfold restart.
    eapply hoare_bind with
      (Q := fun _ g0 => history g0 = h /\ pausePressedLastFrame g0 = pressed
                        /\ remainingLives g0 = 3%Z).
    { apply hoare_modify. intros g0 []. auto. }
    intros [].
    eapply hoare_bind with
      (Q := fun _ g0 => history g0 = h /\ pausePressedLastFrame g0 = pressed
                        /\ remainingLives g0 = 3%Z /\ state g0 = Paused).
    { apply hoare_modify. intros g0 (? & ? & ?). auto. }
    intros [].
    eapply hoare_bind with (Q := fun _ => built hash_code h pressed []).
    { apply hoare_modify. intros g0 (? & ? & ? & ?).
      split; [apply Manager_empty_wf|]. split; [apply grouped_empty|].
      split; [reflexivity|auto]. }
    intros [].
    eapply hoare_bind with
      (Q := fun _ => built hash_code h pressed (grid (seqZ 0 brkCountX))).
    { eapply hoare_consequence.
      - apply (hoare_for_each
          (fun rest g0 => exists done, seqZ 0 brkCountX = done ++ rest
                                       /\ built hash_code h pressed (grid done) g0)).
        intros doneX iX restX HeX.
        eapply hoare_consequence.
        + apply (hoare_for_each
            (fun rest g0 => exists doneC done,
               seqZ 0 brkCountX = doneC ++ iX :: restX
               /\ seqZ 0 brkCountY = done ++ rest
               /\ built hash_code h pressed (grid doneC ++ grid_column iX done) g0)).
          intros doneY iY restY HeY g0 (doneC & done & EC & ER & Hb).
          destruct (built_place h pressed _ iX iY g0 Hb) as ([] & g1 & E1 & Hb1).
          exists tt, g1. split; [exact E1|].
          exists doneC, (done ++ [iY]). split; [exact EC|].
          split; [rewrite <- app_assoc; exact ER|].
          unfold grid_column. rewrite fmap_app, app_assoc. exact Hb1.
        + intros g0 (done & EC & Hb). exists done, [].
          split; [exact EC|]. split; [reflexivity|].
          unfold grid_column. cbn [fmap list_fmap]. rewrite app_nil_r. exact Hb.
        + intros [] g0 (doneC & done & EC & ER & Hb).
          exists (doneC ++ [iX]). split; [rewrite <- app_assoc; exact EC|].
          rewrite app_nil_r in ER. subst done.
          unfold grid. rewrite bind_app. cbn [mbind list_bind].
          rewrite app_nil_r. exact Hb.
      - intros g0 Hb. exists []. split; [reflexivity|exact Hb].
      - intros [] g0 (done & EC & Hb). rewrite app_nil_r in EC. subst done.
        exact Hb. }
    intros [].
    eapply hoare_bind; [apply built_create|]. intros ?.
    eapply hoare_bind; [apply built_create|]. intros ?.
    apply hoare_ret. intros g0. unfold start_objects.
    rewrite <- app_assoc. auto. }
  destruct (Hr g (conj eq_refl eq_refl)) as ([] & g' & E & Hb).
  exists g'. split; [exact E|exact Hb].
Qed.


(** X16.  [restart] is defined on every game, whatever the hash of the
    classes.  It forgets the entities there were and leaves, in the order
    of [entities]: the 44 bricks column by column, the brick of column
    [iX] and row [iY] at (22 + (iX + 1) * 63, (iY + 2) * 23) with
    [requiredHits = 1 + (iX * iY) % 3]; then the ball in the middle of
    the field; then the paddle.  The manager is well formed, every vector
    of [groupedEntities] lists the owned objects of its key in that order,
    the game is paused with three lives, and [pausePressedLastFrame] is
    left as it was. *)
Theorem restart_builds_the_level g :
  exists g',
    restart hash_code g = Some (tt, g')
    /\ objects (manager g') = Some <$> start_objects
    /\ length (entities (manager g')) = 46%nat
    /\ Manager_wf (manager g')
    /\ grouped_by_type hash_code (manager g')
    /\ state g' = Paused /\ remainingLives g' = 3%Z
    /\ pausePressedLastFrame g' = pausePressedLastFrame g
    /\ history g' = history g.
Proof.
  destruct (restart_run g) as (g' & E & Hwf & Hg & Ho & Hs & Hl & Hp & Hh).
  exists g'. split; [exact E|]. split; [exact Ho|].
  split; [|repeat (split; [assumption|]); assumption].
  assert (El : length (objects (manager g')) = 46%nat)
    by (rewrite Ho, length_fmap; reflexivity).
  unfold objects in El. rewrite length_fmap in El. exact El.
Qed.

End Level.


Section Play.
Context {F : Type} `{Arith F}.
Variable hash_code : EntityType -> N.
Implicit Types (g : Game F) (p : ptr) (e : Entity F).

Lemma frame_continue_inv k g g' :
  frame hash_code k g = Some (Continue, g') ->
  key_Escape k = false
  /\ exists g1,
       (if key_R k then restart hash_code else mret tt) (input_toggled k g)
       = Some (tt, g1)
       /\ ((state g1 <> InProgress /\ g' = g1)
           \/ (state g1 = InProgress
               /\ physics hash_code k (judged hash_code (spawned hash_code g1))
                  = Some (tt, g'))).
Proof.
  unfold frame. destruct (key_Escape k); [discriminate|].
  intros E. split; [reflexivity|].
  apply bind_inv in E. destruct E as ([] & g1 & E1 & E).
  rewrite handle_input_eq in E1. exists g1. split; [exact E1|].
  apply bind_inv in E. destruct E as (st & g2 & E2 & E).
  injection E2 as <- <-.
  destruct (decide (state g1 <> InProgress)) as [Hs|Hs].
  - injection E as <-. auto.
  - right. split; [destruct (decide (state g1 = InProgress)); tauto|].
    apply bind_inv in E. destruct E as ([] & g3 & E3 & E).
    injection E as <-. rewrite simulate_eq in E3. exact E3.
Qed.

Lemma restart_result g g' :
  restart hash_code g = Some (tt, g') ->
  objects (manager g') = Some <$> start_objects
  /\ Manager_wf (manager g')
  /\ grouped_by_type hash_code (manager g')
  /\ state g' = Paused /\ remainingLives g' = 3%Z
  /\ pausePressedLastFrame g' = pausePressedLastFrame g
  /\ history g' = history g.
Proof.
  destruct (restart_run hash_code g) as (g'' & E & Hwf & Hg & Ho & Hr).
  rewrite E. intros [= <-]. split; [exact Ho|]. split; [exact Hwf|].
  split; [exact Hg|exact Hr].
Qed.

(** Induction over the frames of a run. *)
Lemma reachable_invariant (J : Game F -> Prop) :
  (forall g g', restart hash_code g = Some (tt, g') -> J g') ->
  (forall k g, J g -> J (input_toggled k g)) ->
  (forall k g g', J g -> state g = InProgress ->
     physics hash_code k (judged hash_code (spawned hash_code g)) = Some (tt, g') ->
     J g') ->
  forall g, reachable hash_code g -> J g.
Proof.
  intros Hrestart Hinput Hsim g Hr. induction Hr as [g E|k g g' _ IH E].
  - eapply Hrestart, E.
  - apply frame_continue_inv in E. destruct E as (_ & g1 & E1 & Hcase).
    assert (J1 : J g1).
    { destruct (key_R k).
      - eapply Hrestart, E1.
      - injection E1 as <-. apply Hinput, IH. }
    destruct Hcase as [[_ ->]|[Hs E2]]; [exact J1|].
    eapply Hsim; eauto.
Qed.

Lemma physics_scalars k g g' :
  physics hash_code k g = Some (tt, g') -> scalars g' = scalars g.
Proof.
  intros E.
  apply (physics_keeps hash_code (fun g0 => scalars g0 = scalars g))
    with (k := k) (s := g) (a := tt); auto.
Qed.

Lemma scalars_spawned g :
  state (spawned hash_code g) = state g
  /\ pausePressedLastFrame (spawned hash_code g) = pausePressedLastFrame g
  /\ remainingLives (spawned hash_code g)
     = if decide (bucket hash_code TBall (manager g) = [])
       then int_pred (remainingLives g) else remainingLives g.
Proof.
  unfold spawned. destruct (decide _); auto.
Qed.

Lemma scalars_judged g :
  pausePressedLastFrame (judged hash_code g) = pausePressedLastFrame g
  /\ remainingLives (judged hash_code g) = remainingLives g
  /\ state (judged hash_code g)
     = if (remainingLives g <=? 0)%Z then GameOver
       else if decide (bucket hash_code TBrick (manager g) = []) then Victory
       else state g.
Proof.
  unfold judged. destruct (decide _); cbn [remainingLives set_state set_manager];
    destruct (remainingLives g <=? 0)%Z; auto.
Qed.

End Play.


Section PlayInvariants.
Context {F : Type} `{Arith F}.
Variable hash_code : EntityType -> N.
Implicit Types (g : Game F) (p : ptr) (e : Entity F).

(** ** The manager stays well formed and indexed, whatever the hash *)

Lemma indexed_getAll T g :
  indexed hash_code g ->
  indexed hash_code (set_manager (Manager_getAll hash_code T (manager g)).2 g).
Proof.
  intros [Hwf Hg]. unfold indexed. cbn [manager set_manager].
  split; [apply getAll_wf, Hwf|apply grouped_getAll, Hg].
Qed.

Lemma indexed_updated k p e g :
  indexed hash_code g -> store (manager g) !! p = Some e ->
  indexed hash_code (updated_entity k p e g).
Proof.
  intros [Hwf Hg] He. unfold indexed, updated_entity.
  cbn [manager set_manager record]. split.
  - apply store_set_wf; [rewrite He; eauto|exact Hwf].
  - eapply grouped_store_set; [exact He| |exact Hg].
    destruct e; reflexivity.
Qed.

Lemma indexed_brick ball brick br ba g :
  indexed hash_code g -> store (manager g) !! brick = Some (EBrick br) ->
  store (manager g) !! ball = Some (EBall ba) ->
  indexed hash_code (brick_ball_resolved ball brick br ba g).
Proof.
  intros [Hwf Hg] Hbr Hba. unfold indexed, brick_ball_resolved.
  cbn [manager set_manager record].
  assert (Hne : brick <> ball) by (intros ->; congruence).
  assert (Hba' : store (store_set brick
                   (EBrick (solveBrickBallCollision br ba).1) (manager g)) !! ball
                 = Some (EBall ba)).
  { cbn [store store_set]. rewrite lookup_insert_ne by exact Hne. exact Hba. }
  split.
  - apply store_set_wf; [rewrite Hba'; eauto|].
    apply store_set_wf; [rewrite Hbr; eauto|exact Hwf].
  - eapply grouped_store_set; [exact Hba'|reflexivity|].
    eapply grouped_store_set; [exact Hbr|reflexivity|exact Hg].
Qed.

Lemma indexed_paddle ball paddle pd ba g :
  indexed hash_code g -> store (manager g) !! paddle = Some (EPaddle pd) ->
  store (manager g) !! ball = Some (EBall ba) ->
  indexed hash_code (paddle_ball_resolved ball paddle pd ba g).
Proof.
  intros [Hwf Hg] Hpd Hba. unfold indexed, paddle_ball_resolved.
  cbn [manager set_manager record]. split.
  - apply store_set_wf; [rewrite Hba; eauto|exact Hwf].
  - eapply grouped_store_set; [exact Hba|reflexivity|exact Hg].
Qed.

Lemma indexed_refresh g m :
  indexed hash_code g -> Manager_refresh (manager g) = Some m ->
  m = refreshed (manager g) /\ indexed hash_code (set_manager m g).
Proof.
  intros [Hwf Hg] E. rewrite Manager_refresh_wf in E by exact Hwf.
  injection E as <-. split; [reflexivity|]. unfold indexed.
  cbn [manager set_manager].
  split; [apply refreshed_wf, Hwf|apply grouped_refreshed; assumption].
Qed.

(** The updates and the collisions, without the refresh that follows. *)
Lemma indexed_motion k g g1 g2 :
  indexed hash_code g -> update k g = Some (tt, g1) ->
  forEach hash_code TBall (fun mBall =>
    forEach hash_code TBrick (fun mBrick => resolveBrickBall mBall mBrick) ;;
    forEach hash_code TPaddle (fun mPaddle => resolvePaddleBall mBall mPaddle)) g1
  = Some (tt, g2) ->
  indexed hash_code g2.
Proof.
  intros Hi E1 E2.
  eapply (collisions_keep hash_code (indexed hash_code));
    [apply indexed_getAll|apply indexed_brick|apply indexed_paddle| |exact E2].
  eapply (update_keeps (indexed hash_code)); [apply indexed_updated|exact Hi|exact E1].
Qed.

Lemma indexed_keeps k :
  partial (indexed hash_code) (physics hash_code k) (fun _ => indexed hash_code).
Proof.
  apply physics_keeps.
  - apply indexed_getAll.
  - apply indexed_updated.
  - apply indexed_brick.
  - apply indexed_paddle.
  - intros g m Hi E. eapply indexed_refresh; eauto.
Qed.

Lemma indexed_spawned g :
  indexed hash_code g -> indexed hash_code (spawned hash_code g).
Proof.
  intros [Hwf Hg]. unfold spawned, indexed.
  assert (Hwf1 := getAll_wf hash_code TBall _ Hwf).
  assert (Hg1 := grouped_getAll hash_code TBall _ Hg).
  destruct (decide _); cbn [manager set_manager set_remainingLives].
  - split; [apply create_wf, Hwf1|apply grouped_create; assumption].
  - auto.
Qed.

Lemma indexed_judged g :
  indexed hash_code g -> indexed hash_code (judged hash_code g).
Proof.
  intros [Hwf Hg]. unfold judged, indexed.
  assert (Hwf1 := getAll_wf hash_code TBrick _ Hwf).
  assert (Hg1 := grouped_getAll hash_code TBrick _ Hg).
  destruct (decide _), (_ <=? 0)%Z; cbn [manager set_manager set_state]; auto.
Qed.

Lemma reachable_indexed g :
  reachable hash_code g -> indexed hash_code g.
Proof.
  revert g. apply (reachable_invariant hash_code (indexed hash_code)).
  - intros g0 g' E. apply restart_result in E. unfold indexed. tauto.
  - intros k g0 Hi. exact Hi.
  - intros k g0 g' Hi _ E.
    eapply (indexed_keeps k); [|exact E].
    apply indexed_judged, indexed_spawned, Hi.
Qed.

(** ** Lives and the end of the game *)

(** X17.  In every state the game can reach, whatever the hash of the
    classes: [remainingLives] is between 0 and 3, and the state is
    [GameOver] exactly when no life is left. *)
Theorem lives_stay_within_bounds g :
  reachable hash_code g ->
  (0 <= remainingLives g <= 3)%Z
  /\ (state g = GameOver <-> remainingLives g = 0%Z).
Proof.
  revert g.
  apply (reachable_invariant hash_code
           (fun g => (0 <= remainingLives g <= 3)%Z
                     /\ (state g = GameOver <-> remainingLives g = 0%Z))).
  - intros g0 g' E. apply restart_result in E.
    destruct E as (_ & _ & _ & -> & -> & _). split; [lia|]. split; [discriminate|lia].
  - intros k g0 [Hl Hs]. cbn [input_toggled remainingLives state].
    split; [exact Hl|]. rewrite <- Hs. unfold toggled.
    destruct (key_P k && negb (pausePressedLastFrame g0)); [|reflexivity].
    destruct (state g0); split; congruence.
  - intros k g0 g' [Hl Hs] Hst E. apply physics_scalars in E.
    unfold scalars in E. injection E as E1 _ E3. rewrite E1, E3.
    destruct (scalars_judged hash_code (spawned hash_code g0)) as (_ & -> & ->).
    destruct (scalars_spawned hash_code g0) as (Hs' & _ & ->).
    assert (Hpos : (1 <= remainingLives g0)%Z).
    { destruct (decide (remainingLives g0 = 0%Z)) as [E0|E0]; [|lia].
      apply Hs in E0. congruence. }
    assert (Hp : int_pred (remainingLives g0) = (remainingLives g0 - 1)%Z).
    { apply int_pred_exact. unfold int_min, int_max. lia. }
    destruct (decide (bucket hash_code TBall (manager g0) = [])); rewrite ?Hp.
    + destruct (Z.leb_spec (remainingLives g0 - 1) 0).
      * split; [lia|]. split; [lia|reflexivity].
      * split; [lia|]. rewrite Hs', Hst.
        destruct (decide _); split; (discriminate || lia).
    + destruct (Z.leb_spec (remainingLives g0) 0); [lia|].
      split; [lia|]. rewrite Hs', Hst.
      destruct (decide _); split; (discriminate || lia).
Qed.

End PlayInvariants.

Section PlayTheorems.
Context {F : Type} `{Arith F}.
Variable hash_code : EntityType -> N.
Implicit Types (g : Game F) (p : ptr) (e : Entity F).

Lemma bucket_spawned (T : EntityType) g :
  hash_code T <> hash_code TBall ->
  bucket hash_code T (manager (spawned hash_code g)) = bucket hash_code T (manager g).
Proof.
  intros HT. unfold spawned.
  destruct (decide _); cbn [manager set_manager set_remainingLives].
  - rewrite create_bucket, decide_False by exact HT.
    rewrite app_nil_r. apply getAll_bucket.
  - apply getAll_bucket.
Qed.

(** X18.  What a simulated frame does to the lives and the state (the
    hashes of [Brick] and [Ball] being different): a life is lost exactly
    when the frame starts without a ball; the frame ends in [GameOver] if
    no life is left then, else in [Victory] if it started without a
    brick, else in [InProgress]; and [pausePressedLastFrame] is the
    reading of the pause key. *)
Theorem simulated_frame_outcome k g g' :
  hash_code TBrick <> hash_code TBall ->
  frame hash_code k g = Some (Continue, g') ->
  gate_state k (pausePressedLastFrame g) (state g) = InProgress ->
  remainingLives g'
    = (if decide (bucket hash_code TBall (manager g) = [])
       then int_pred (remainingLives g) else remainingLives g)
  /\ state g'
    = (if (remainingLives g' <=? 0)%Z then GameOver
       else if decide (bucket hash_code TBrick (manager g) = []) then Victory
       else InProgress)
  /\ pausePressedLastFrame g' = key_P k.
Proof.
  intros Hh E Hgate. apply frame_continue_inv in E. destruct E as (_ & g1 & E1 & Hcase).
  unfold gate_state in Hgate. destruct (key_R k); [discriminate|].
  injection E1 as <-.
  destruct Hcase as [[Hs _]|[_ E]]; [contradiction|].
  apply physics_scalars in E. unfold scalars in E. injection E as E1 E2 E3.
  rewrite E1, E2, E3.
  destruct (scalars_judged hash_code (spawned hash_code (input_toggled k g)))
    as (-> & -> & ->).
  destruct (scalars_spawned hash_code (input_toggled k g)) as (-> & -> & ->).
  rewrite bucket_spawned by exact Hh.
  cbn [input_toggled manager remainingLives state pausePressedLastFrame].
  rewrite Hgate. auto.
Qed.

(** Without a brick in its vector a simulated frame declares victory, and
    from then on no brick is owned. *)
Lemma victory_invariant g :
  reachable hash_code g ->
  state g = Victory ->
  store_all (fun e => entity_type e <> TBrick) g.
Proof.
  intros Hr. 
  assert (G : indexed hash_code g
              /\ (state g = Victory ->
                  store_all (fun e => entity_type e <> TBrick) g)); [|tauto].
  revert g Hr.
  apply (reachable_invariant hash_code
           (fun g => indexed hash_code g
                     /\ (state g = Victory ->
                         store_all (fun e => entity_type e <> TBrick) g))).
  - intros g0 g' E. apply restart_result in E.
    destruct E as (_ & Hwf & Hg & Hs & _). split; [split; auto|]. congruence.
  - intros k g0 [Hi Hv]. split; [exact Hi|].
    cbn [input_toggled state]. unfold toggled. intros Hs. apply Hv.
    destruct (key_P k && negb (pausePressedLastFrame g0)); [|exact Hs].
    destruct (state g0); congruence.
  - intros k g0 g' [Hi _] Hst E.
    pose proof (indexed_spawned hash_code g0 Hi) as Hi1.
    pose proof (indexed_judged hash_code _ Hi1) as Hi2.
    split; [eapply (indexed_keeps hash_code k); eauto|].
    intros Hv. pose proof (physics_scalars hash_code _ _ _ E) as Es.
    unfold scalars in Es. injection Es as Es _ _. rewrite Hv in Es.
    destruct (scalars_judged hash_code (spawned hash_code g0)) as (_ & _ & Ej).
    rewrite Ej in Es. destruct (_ <=? 0)%Z; [discriminate|].
    destruct (decide _) as [Hnil|_].
    2:{ destruct (scalars_spawned hash_code g0) as (Hs' & _). congruence. }
    (* no brick is owned when the test finds the vector empty *)
    assert (Hnone : store_all (fun e => entity_type e <> TBrick)
                      (judged hash_code (spawned hash_code g0))).
    { intros p e He Ht.
      assert (Hp : p ∈ bucket hash_code TBrick
                     (manager (judged hash_code (spawned hash_code g0)))).
      { unfold bucket. rewrite (proj2 Hi2). apply list_elem_of_filter. split.
        - unfold key_at. rewrite He. cbn. rewrite Ht. reflexivity.
        - apply (wf_owned _ (proj1 Hi2)). rewrite He. eauto. }
      assert (Hb : bucket hash_code TBrick
                     (manager (judged hash_code (spawned hash_code g0))) = []).
      { rewrite <- Hnil. unfold judged.
        destruct (decide _), (_ <=? 0)%Z; cbn [manager set_manager set_state];
          apply getAll_bucket. }
      rewrite Hb in Hp. inversion Hp. }
    eapply (physics_keeps hash_code
              (store_all (fun e => entity_type e <> TBrick))); [..|exact Hnone|exact E].
    + intros T g1 Hg1 p e. cbn [manager set_manager]. rewrite getAll_store.
      apply Hg1.
    + intros k0 p e g1 Hg1 He q e0. unfold updated_entity.
      cbn [manager set_manager store store_set record].
      intros Hq. apply lookup_insert_Some in Hq.
      destruct Hq as [[_ <-]|[_ Hq]]; [|eapply Hg1, Hq].
      rewrite Entity_update_type. eapply Hg1, He.
    + intros ball brick br ba g1 Hg1 Hbr Hba. exfalso. exact (Hg1 _ _ Hbr eq_refl).
    + intros ball paddle pd ba g1 Hg1 Hpd Hba q e0. unfold paddle_ball_resolved.
      cbn [manager set_manager store store_set record].
      intros Hq. apply lookup_insert_Some in Hq.
      destruct Hq as [[_ <-]|[_ Hq]]; [discriminate|eapply Hg1, Hq].
    + intros g1 m Hg1 E1 q e0. cbn [manager set_manager]. intros Hq.
      unfold Manager_refresh in E1.
      destruct (refresh_groups (manager g1)) as [gs|]; [|discriminate].
      cbn in E1.
      destruct (erase_remove_if _ (entities (manager g1))) as [es|]; [|discriminate].
      injection E1 as <-. cbn [store] in Hq. rewrite release_lookup in Hq.
      destruct (decide _); [discriminate|]. eapply Hg1, Hq.
Qed.

(** X19.  In every state the game can reach, whatever the hash of the
    classes: as long as a brick is owned, the state is not [Victory]. *)
Theorem no_victory_while_a_brick_is_owned g p (b : Brick F) :
  reachable hash_code g ->
  store (manager g) !! p = Some (EBrick b) ->
  state g <> Victory.
Proof.
  intros Hr Hp Hv.
  exact (victory_invariant g Hr Hv p (EBrick b) Hp eq_refl).
Qed.

End PlayTheorems.

Section StoreInvariant.
Context {F : Type} `{Arith F}.
Variable hash_code : EntityType -> N.
Variable phi : Entity F -> Prop.
Implicit Types (g : Game F) (p : ptr) (e : Entity F).

Hypothesis phi_start : forall e, e ∈ start_objects -> phi e.
Hypothesis phi_update : forall k e, phi e -> phi (Entity_update k e).
Hypothesis phi_brick : forall br ba,
  phi (EBrick br) -> phi (EBall ba) ->
  phi (EBrick (solveBrickBallCollision br ba).1)
  /\ phi (EBall (solveBrickBallCollision br ba).2).
Hypothesis phi_paddle : forall pd ba,
  phi (EPaddle pd) -> phi (EBall ba) ->
  phi (EBall (solvePaddleBallCollision pd ba)).

Lemma refresh_store_sub (m m' : Manager F) p e :
  Manager_refresh m = Some m' -> store m' !! p = Some e -> store m !! p = Some e.
Proof.
  unfold Manager_refresh. intros E.
  destruct (refresh_groups m) as [gs|]; [|discriminate]. cbn in E.
  destruct (erase_remove_if _ (entities m)) as [es|]; [|discriminate].
  injection E as <-. cbn [store]. rewrite release_lookup.
  destruct (decide _); [discriminate|auto].
Qed.

Lemma store_all_keeps k :
  partial (store_all phi) (physics hash_code k) (fun _ => store_all phi).
Proof.
  apply physics_keeps.
  - intros T g Hg p e. cbn [manager set_manager]. rewrite getAll_store. apply Hg.
  - intros k0 p e g Hg He q e0. unfold updated_entity.
    cbn [manager set_manager store store_set record].
    intros Hq. apply lookup_insert_Some in Hq.
    destruct Hq as [[_ <-]|[_ Hq]]; [|eapply Hg, Hq].
    eapply phi_update, Hg, He.
  - intros ball brick br ba g Hg Hbr Hba q e0. unfold brick_ball_resolved.
    cbn [manager set_manager store store_set record].
    destruct (phi_brick br ba (Hg _ _ Hbr) (Hg _ _ Hba)) as [H1 H2].
    intros Hq. apply lookup_insert_Some in Hq.
    destruct Hq as [[_ <-]|[_ Hq]]; [exact H2|].
    apply lookup_insert_Some in Hq.
    destruct Hq as [[_ <-]|[_ Hq]]; [exact H1|eapply Hg, Hq].
  - intros ball paddle pd ba g Hg Hpd Hba q e0. unfold paddle_ball_resolved.
    cbn [manager set_manager store store_set record].
    intros Hq. apply lookup_insert_Some in Hq.
    destruct Hq as [[_ <-]|[_ Hq]]; [|eapply Hg, Hq].
    eapply phi_paddle; eauto.
  - intros g m Hg E q e0. cbn [manager set_manager]. intros Hq.
    eapply Hg, refresh_store_sub; eauto.
Qed.

Lemma reachable_store_all g : reachable hash_code g -> store_all phi g.
Proof.
  revert g. apply (reachable_invariant hash_code (store_all phi)).
  - intros g0 g' E p e He. apply restart_result in E.
    destruct E as (Ho & Hwf & _). apply phi_start.
    assert (Hp : p ∈ entities (manager g'))
      by (apply (wf_owned _ Hwf); rewrite He; eauto).
    assert (Hin : Some e ∈ objects (manager g')).
    { unfold objects. rewrite <- He.
      apply (list_elem_of_fmap_2 (fun q => store (manager g') !! q)). exact Hp. }
    rewrite Ho in Hin. apply list_elem_of_fmap in Hin.
    destruct Hin as (e' & [= <-] & Hin). exact Hin.
  - intros k g0 Hg. exact Hg.
  - intros k g0 g' Hg _ E. eapply (store_all_keeps k); [|exact E].
    assert (Hs : store_all phi (spawned hash_code g0)).
    { unfold spawned.
      destruct (decide _) as [Hnil|Hnil]; unfold store_all;
        cbn [manager set_manager set_remainingLives].
      - intros p e. rewrite create_store. intros Hq. apply lookup_insert_Some in Hq.
        destruct Hq as [[_ <-]|[_ Hq]].
        + apply phi_start. unfold start_objects. apply elem_of_app. right. left.
        + rewrite getAll_store in Hq. eapply Hg, Hq.
      - intros p e. cbn [manager set_manager]. rewrite getAll_store. apply Hg. }
    unfold judged. intros p e.
    destruct (decide _) as [Hnil|Hnil], (_ <=? 0)%Z;
      cbn [manager set_manager set_state];
      rewrite getAll_store; apply Hs.
Qed.

End StoreInvariant.

(* ===================================================================== *)
(** * The entities in play, on binary32 *)
(* ===================================================================== *)

(** The 93 positions of the track, checked by computation. *)
Lemma track_checked :
  Forall (fun j => Track.track_ok j = true) (seqZ (-46) 93).
Proof.
  refine (bool_decide_eq_true_1 _ _). vm_compute. reflexivity.
Qed.


Section StartObjects.
Context {F : Type} `{Arith F}.

Lemma elem_of_start_objects (e : Entity F) :
  e ∈ start_objects ->
  (exists iX iY, (0 <= iX < brkCountX)%Z /\ (0 <= iY < brkCountY)%Z
                 /\ e = EBrick (grid_brick iX iY))
  \/ e = spare_ball \/ e = start_paddle.
Proof.
  unfold start_objects. rewrite elem_of_app. intros [Hin|Hin].
  - left. unfold grid in Hin. apply list_elem_of_bind in Hin.
    destruct Hin as (iX & Hin & HX). unfold grid_column in Hin.
    apply list_elem_of_fmap in Hin. destruct Hin as (iY & -> & HY).
    apply elem_of_seqZ in HX, HY. exists iX, iY.
    split; [lia|]. split; [lia|reflexivity].
  - right. apply elem_of_cons in Hin. destruct Hin as [->|Hin]; [auto|].
    apply list_elem_of_singleton in Hin. auto.
Qed.

Lemma grid_brick_hits (iX iY : Z) :
  (0 <= iX)%Z -> (0 <= iY)%Z ->
  (1 <= requiredHits (grid_brick (F:=F) iX iY) <= 3)%Z.
Proof.
  intros HX HY. cbn [grid_brick requiredHits Brick_set_requiredHits].
  assert (0 <= Z.rem (iX * iY) 3 < 3)%Z.
  { split; [apply Z.rem_nonneg; lia|apply Z.rem_bound_pos; lia]. }
  lia.
Qed.

Lemma Paddle_update_ignores_velocity_x kl kr d r (vx vx' vy : F) :
  Paddle_update kl kr (mkPaddle d r (mkVec vx vy))
  = Paddle_update kl kr (mkPaddle d r (mkVec vx' vy)).
Proof.
  unfold Paddle_update, Paddle_processPlayerInput.
  cbn [left right Paddle_bounded paddle_rect].
  destruct (kl && _); [reflexivity|]. destruct (kr && _); reflexivity.
Qed.

End StartObjects.

Lemma on_track j :
  (-46 <= j <= 46)%Z -> Track.track_ok j = true.
Proof.
  intros Hj. pose proof track_checked as Hall.
  rewrite Forall_forall in Hall. apply Hall. apply elem_of_seqZ. lia.
Qed.

Lemma paddle_track_step kl kr j v :
  (-46 <= j <= 46)%Z ->
  Paddle_update kl kr (Track.paddle_on_grid j v)
  = Track.paddle_on_grid (Track.grid_next kl kr j)
      (8 * (Track.grid_next kl kr j - j)).
Proof.
  intros Hj. pose proof (on_track j Hj) as Hok. unfold Track.track_ok in Hok.
  repeat (apply andb_prop in Hok; destruct Hok as [Hok ?]).
  unfold Track.paddle_on_grid at 1.
  rewrite (Paddle_update_ignores_velocity_x kl kr _ _ _ (Fixtures.f32 0)).
  destruct kl, kr; eapply bool_decide_eq_true_1; eassumption.
Qed.

Lemma grid_next_range kl kr j :
  (-46 <= j <= 46)%Z ->
  (-46 <= Track.grid_next kl kr j <= 46)%Z
  /\ (8 * (Track.grid_next kl kr j - j) = -8
      \/ 8 * (Track.grid_next kl kr j - j) = 0
      \/ 8 * (Track.grid_next kl kr j - j) = 8)%Z.
Proof.
  intros Hj. unfold Track.grid_next.
  destruct kl, kr; cbn [andb];
    repeat match goal with
           | |- context [(?a <? ?b)%Z] => destruct (Z.ltb_spec a b)
           end; lia.
Qed.

Section InPlay.
Variable hash_code : EntityType -> N.

Lemma reachable_in_play (g : Game F32.t) :
  reachable hash_code g -> store_all in_play g.
Proof.
  apply reachable_store_all.
  - intros e He. apply elem_of_start_objects in He.
    destruct He as [(iX & iY & HX & HY & ->)|[-> | ->]].
    + exists iX, iY. split; [exact HX|]. split; [exact HY|].
      split; [reflexivity|]. intros _.
      pose proof (grid_brick_hits (F:=F32.t) iX iY ltac:(lia) ltac:(lia)). lia.
    + reflexivity.
    + exists 0%Z, 0%Z. split; [lia|]. split; [auto|]. reflexivity.
  - intros k [b|pd|b]; cbn [Entity_update in_play].
    + intros Hr. rewrite Ball_update_circle. exact Hr.
    + intros (j & v & Hj & Hv & ->).
      rewrite (paddle_track_step _ _ j v Hj).
      destruct (grid_next_range (key_Left k) (key_Right k) j Hj) as [Hj' Hv'].
      eauto.
    + intros (iX & iY & HX & HY & Hr & Hh). exists iX, iY. auto.
  - intros br ba (iX & iY & HX & HY & Hr & Hh) Hba. split.
    + exists iX, iY. split; [exact HX|]. split; [exact HY|].
      split; [rewrite solve_brick_rect; exact Hr|].
      unfold solveBrickBallCollision.
      destruct (isIntersecting br ba); cbn [negb fst]; [|exact Hh].
      cbn [requiredHits Brick_set_requiredHits].
      destruct (Z.leb_spec (int_pred (requiredHits br)) 0) as [Hle|Hgt];
        cbn [brick_destroyed Brick_set_destroyed Brick_set_requiredHits
             requiredHits]; [discriminate|].
      intros Hd. specialize (Hh Hd).
      rewrite int_pred_exact in * by (unfold int_min, int_max;
        pose proof (grid_brick_hits (F:=F32.t) iX iY ltac:(lia) ltac:(lia)); lia).
      lia.
    + cbn [in_play]. rewrite solve_ball_circle. exact Hba.
  - intros pd ba _ Hba. cbn [in_play] in *. unfold solvePaddleBallCollision.
    destruct (isIntersecting pd ba); cbn [negb]; [|exact Hba]. exact Hba.
Qed.

End InPlay.

Section Unmarked.
Context {F : Type} `{Arith F}.
Variable hash_code : EntityType -> N.
Implicit Types (g : Game F) (p : ptr) (e : Entity F).

(** At the top of the loop no entity is marked, whatever the hash. *)
Lemma reachable_unmarked g :
  reachable hash_code g -> store_all (fun e => destroyed e = false) g.
Proof.
  intros Hr.
  assert (G : indexed hash_code g
              /\ store_all (fun e => destroyed e = false) g); [|tauto].
  revert g Hr.
  apply (reachable_invariant hash_code
           (fun g => indexed hash_code g
                     /\ store_all (fun e => destroyed e = false) g)).
  - intros g0 g' E. apply restart_result in E.
    destruct E as (Ho & Hwf & Hg & _). split; [split; auto|].
    intros p e He.
    assert (Hp : p ∈ entities (manager g'))
      by (apply (wf_owned _ Hwf); rewrite He; eauto).
    assert (Hin : Some e ∈ objects (manager g')).
    { unfold objects. rewrite <- He.
      apply (list_elem_of_fmap_2 (fun q => store (manager g') !! q)). exact Hp. }
    rewrite Ho in Hin. apply list_elem_of_fmap in Hin.
    destruct Hin as (e' & [= <-] & Hin).
    apply elem_of_start_objects in Hin.
    destruct Hin as [(iX & iY & _ & _ & ->)|[-> | ->]]; reflexivity.
  - intros k g0 Hg. exact Hg.
  - intros k g0 g' [Hi _] _ E.
    pose proof (indexed_judged hash_code _ (indexed_spawned hash_code g0 Hi)) as Hi2.
    unfold physics in E. apply bind_inv in E. destruct E as ([] & g1 & E1 & E).
    apply bind_inv in E. destruct E as ([] & g2 & E2 & E3).
    pose proof (indexed_motion hash_code k _ _ _ Hi2 E1 E2) as Hi3.
    unfold refresh, try_modify in E3.
    destruct (Manager_refresh (manager g2)) as [m|] eqn:Em; [|discriminate].
    injection E3 as <-.
    destruct (indexed_refresh hash_code g2 m Hi3 Em) as [-> Hi4].
    split; [exact Hi4|].
    intros p e. cbn [manager set_manager].
    apply refreshed_nothing_destroyed, Hi3.
Qed.

End Unmarked.

(** X20.  On binary32, in every state the game can reach (whatever the
    hash of the classes), a paddle is on its track: it is not marked, it
    is 75 by 20 at height 550, its centre is at 400 + 8 j for some j
    between -46 and 46, its velocity is (-8, 0), (0, 0) or (8, 0); its
    left edge is at least -5.5 and its right edge at most 805.5; and one
    more update takes it one step along the track, or leaves it where it
    is, as [Track.grid_next] says. *)
Theorem paddle_stays_on_its_track (hash_code : EntityType -> N)
    (g : Game F32.t) (p : ptr) (pd : Paddle F32.t) :
  reachable hash_code g ->
  store (manager g) !! p = Some (EPaddle pd) ->
  exists j v,
    (-46 <= j <= 46)%Z /\ (v = -8 \/ v = 0 \/ v = 8)%Z
    /\ pd = Track.paddle_on_grid j v
    /\ fge (left pd) (fdiv (of_int (-11)) (of_int 2)) = true
    /\ fle (right pd) (fdiv (of_int 1611) (of_int 2)) = true
    /\ forall kl kr,
         Paddle_update kl kr pd
         = Track.paddle_on_grid (Track.grid_next kl kr j)
             (8 * (Track.grid_next kl kr j - j)).
Proof.
  intros Hr Hp.
  destruct (reachable_in_play hash_code g Hr p _ Hp) as (j & v & Hj & Hv & ->).
  exists j, v. split; [exact Hj|]. split; [exact Hv|]. split; [reflexivity|].
  pose proof (on_track j Hj) as Hok. unfold Track.track_ok in Hok.
  apply andb_prop in Hok. destruct Hok as [_ Hok].
  unfold Track.paddle_edges_ok in Hok. apply andb_prop in Hok.
  destruct Hok as [H1 H2].
  split; [exact H1|]. split; [exact H2|].
  intros kl kr. apply paddle_track_step, Hj.
Qed.

(** X21.  On binary32, in every state the game can reach (whatever the
    hash of the classes), a brick is not marked, it is where [restart]
    put it (the brick of some column [iX] and row [iY]), and it needs at
    least one hit and at most the [1 + (iX * iY) % 3] it started with;
    so its next [update] gives it the third colour exactly when it needs
    three hits. *)
Theorem bricks_stay_on_the_grid (hash_code : EntityType -> N)
    (g : Game F32.t) (p : ptr) (b : Brick F32.t) :
  reachable hash_code g ->
  store (manager g) !! p = Some (EBrick b) ->
  brick_destroyed b = false
  /\ exists iX iY,
       (0 <= iX < brkCountX)%Z /\ (0 <= iY < brkCountY)%Z
       /\ brick_rect b = brick_rect (new_brick iX iY)
       /\ (1 <= requiredHits b <= 1 + Z.rem (iX * iY) 3)%Z
       /\ (requiredHits b <= 3)%Z
       /\ (brick_fill (Brick_update b) = Some defColorHits3
           <-> requiredHits b = 3%Z).
Proof.
  intros Hr Hp.
  pose proof (reachable_unmarked hash_code g Hr p _ Hp) as Hd. cbn in Hd.
  split; [exact Hd|].
  destruct (reachable_in_play hash_code g Hr p _ Hp)
    as (iX & iY & HX & HY & Hrect & Hh).
  specialize (Hh Hd). exists iX, iY.
  pose proof (grid_brick_hits (F:=F32.t) iX iY ltac:(lia) ltac:(lia)) as Hg.
  cbn [grid_brick requiredHits Brick_set_requiredHits] in Hh, Hg.
  split; [exact HX|]. split; [exact HY|]. split; [exact Hrect|].
  split; [exact Hh|]. split; [lia|].
  cbn [Brick_update brick_fill].
  destruct (Z.eqb_spec (requiredHits b) 1); [split; [discriminate|lia]|].
  destruct (Z.eqb_spec (requiredHits b) 2); [split; [discriminate|lia]|].
  split; [lia|reflexivity].
Qed.

(* ===================================================================== *)
(** * Whole frames and whole runs *)
(* ===================================================================== *)

Section UpdateAll.
Context {F : Type} `{Arith F}.
Implicit Types (g : Game F) (p : ptr) (e : Entity F).

Lemma for_each_update_run k (ps : list ptr) g :
  NoDup ps -> (forall p, p ∈ ps -> is_Some (store (manager g) !! p)) ->
  exists g',
    for_each ps (update_entity k) g = Some (tt, g')
    /\ (forall q, store (manager g') !! q
                  = if decide (q ∈ ps) then Entity_update k <$> store (manager g) !! q
                    else store (manager g) !! q)
    /\ entities (manager g') = entities (manager g)
    /\ groupedEntities (manager g') = groupedEntities (manager g)
    /\ history g' = history g ++ (EvUpdate <$> ps)
    /\ scalars g' = scalars g.
Proof.
  revert g. induction ps as [|p ps IH]; intros g Hnd Hall.
  - exists g. split; [reflexivity|]. split.
    { intros q. rewrite decide_False; [reflexivity|]. intros Hq. inversion Hq. }
    rewrite app_nil_r. auto.
  - apply NoDup_cons in Hnd. destruct Hnd as [Hp Hnd].
    destruct (Hall p ltac:(left)) as [e He].
    cbn [for_each]. rewrite (bind_run _ _ _ _ _ (update_entity_run k p e g He)).
    destruct (IH (updated_entity k p e g) Hnd) as (g' & E & Hst & He' & Hg & Hh & Hs).
    { intros q Hq. unfold updated_entity. cbn [manager set_manager store store_set].
      rewrite lookup_insert_is_Some. destruct (decide (p = q)); [auto|].
      right. split; [assumption|]. apply Hall. right. exact Hq. }
    exists g'. split; [exact E|]. split; [|split; [exact He'|split; [exact Hg|split]]].
    + intros q. rewrite Hst. unfold updated_entity.
      cbn [manager set_manager store store_set record].
      destruct (decide (q = p)) as [->|Hqp].
      * rewrite decide_False by exact Hp. rewrite decide_True by left.
        rewrite lookup_insert_eq, He. reflexivity.
      * rewrite lookup_insert_ne by congruence.
        destruct (decide (q ∈ ps)) as [Hq|Hq].
        -- rewrite decide_True by (right; exact Hq). reflexivity.
        -- rewrite decide_False; [reflexivity|].
           intros Hq'. apply elem_of_cons in Hq'. tauto.
    + rewrite Hh. unfold updated_entity. cbn [history set_manager record].
      rewrite <- app_assoc. reflexivity.
    + rewrite Hs. reflexivity.
Qed.

(** X22.  [Manager::update] on a well-formed manager is defined and
    calls [update()] on every owned entity exactly once, in the order of
    [entities]: the objects afterwards are the updated objects, at the
    same addresses; the vectors, the state, the lives and the pause flag
    are unchanged. *)
Theorem update_updates_every_entity_once (k : Keys) g :
  Manager_wf (manager g) ->
  exists g',
    update k g = Some (tt, g')
    /\ store (manager g') = Entity_update k <$> store (manager g)
    /\ entities (manager g') = entities (manager g)
    /\ groupedEntities (manager g') = groupedEntities (manager g)
    /\ history g' = history g ++ (EvUpdate <$> entities (manager g))
    /\ scalars g' = scalars g.
Proof.
  intros Hwf.
  destruct (for_each_update_run k (entities (manager g)) g (wf_nodup _ Hwf))
    as (g' & E & Hst & Hrest).
  { intros p Hp. apply (wf_owned _ Hwf), Hp. }
  exists g'. split; [exact E|]. split; [|exact Hrest].
  apply map_eq. intros q. rewrite Hst, lookup_fmap.
  destruct (decide (q ∈ entities (manager g))) as [Hq|Hq]; [reflexivity|].
  destruct (store (manager g) !! q) as [e|] eqn:He; [|reflexivity].
  exfalso. apply Hq, (wf_owned _ Hwf). rewrite He. eauto.
Qed.

End UpdateAll.

Section WholeRuns.
Context {F : Type} `{Arith F}.
Variable hash_code : EntityType -> N.
Implicit Types (g : Game F).

Lemma run_defined (ks : list Keys) g :
  (forall T T', hash_code T = hash_code T' -> T = T') ->
  reachable hash_code g ->
  exists g', run hash_code ks g = Some (tt, g').
Proof.
  intros Hinj. revert g. induction ks as [|k ks IH]; intros g Hr.
  - exists g. reflexivity.
  - cbn [run]. destruct (key_Escape k) eqn:Ek.
    + rewrite (bind_run _ _ _ _ _ (frame_break hash_code k g Ek)). eauto.
    + destruct (reachable_inv hash_code Hinj g Hr) as [Hi Hok].
      destruct (frame_run hash_code Hinj k g Ek Hi Hok) as (g1 & g' & _ & Ef & _).
      rewrite (bind_run _ _ _ _ _ Ef). apply IH.
      eapply reachable_frame; eauto.
Qed.

(** X23.  When the hashes of the three classes are distinct, the program
    is defined on every finite sequence of keyboard readings: no frame
    dereferences a released address or takes an object for one of another
    class.  The state it ends in is a state of the loop, its manager is
    well formed and none of its entities is marked. *)
Theorem main_is_always_defined (ks : list Keys) :
  (forall T T', hash_code T = hash_code T' -> T = T') ->
  exists g : Game F,
    main hash_code ks = Some g
    /\ reachable hash_code g
    /\ Manager_wf (manager g)
    /\ (forall p e, store (manager g) !! p = Some e -> destroyed e = false).
Proof.
  intros Hinj. unfold main.
  destruct (restart_run hash_code (Game_new (F:=F))) as (g0 & E0 & _).
  destruct (run_defined ks g0 Hinj (reachable_restart _ _ E0)) as (g' & E).
  assert (Em : main hash_code ks = Some g').
  { unfold main. rewrite (bind_run _ _ _ _ _ E0), E. reflexivity. }
  exists g'. split; [exact Em|].
  pose proof (main_reachable hash_code ks g' Em) as Hr.
  split; [exact Hr|].
  split; [apply (reachable_indexed hash_code g' Hr)|].
  apply (reachable_unmarked hash_code g' Hr).
Qed.

Lemma run_app (ks ks' : list Keys) g :
  Forall (fun k => key_Escape k = false) ks ->
  run hash_code (ks ++ ks') g
  = (run hash_code ks ;; run hash_code ks') g.
Proof.
  intros Hks. revert g. induction Hks as [|k ks Hk _ IH]; intros g.
  - reflexivity.
  - change ((k :: ks) ++ ks') with (k :: (ks ++ ks')). cbn [run].
    destruct (frame hash_code k g) as [[flow g1]|] eqn:Ef.
    + rewrite (bind_run _ _ _ _ _ Ef).
      unfold mbind at 1, SE_bind at 1. rewrite (bind_run _ _ _ _ _ Ef).
      destruct flow; [|apply IH].
      exfalso. unfold frame in Ef. rewrite Hk in Ef.
      apply bind_inv in Ef. destruct Ef as (? & ? & _ & Ef).
      apply bind_inv in Ef. destruct Ef as (? & ? & _ & Ef).
      destruct (decide _); [discriminate|].
      apply bind_inv in Ef. destruct Ef as (? & ? & _ & Ef). discriminate.
    + unfold mbind, SE_bind. rewrite Ef. reflexivity.
Qed.

(** X24.  The loop ends at the first frame that reads the quit key: that
    frame changes nothing, and the readings that follow are not looked
    at.  (Whatever the hash of the classes, and also when the run is
    undefined.) *)
Theorem keys_after_escape_are_ignored (ks ks' : list Keys) (k : Keys) :
  Forall (fun k => key_Escape k = false) ks ->
  key_Escape k = true ->
  main (F:=F) hash_code (ks ++ k :: ks') = main hash_code ks.
Proof.
  intros Hks Hk. unfold main. unfold mbind at 1 2, SE_bind at 1 2.
  destruct (restart hash_code Game_new) as [[[] g0]|]; [|reflexivity].
  rewrite run_app by exact Hks. unfold mbind at 1, SE_bind at 1.
  destruct (run hash_code ks g0) as [[[] g1]|]; [|reflexivity].
  cbn [run]. rewrite (bind_run _ _ _ _ _ (frame_break hash_code k g1 Hk)).
  reflexivity.
Qed.

End WholeRuns.

Section Index.
Context {F : Type} `{Arith F}.
Variable hash_code : EntityType -> N.
Hypothesis hash_inj : forall T T', hash_code T = hash_code T' -> T = T'.
Implicit Types (g : Game F) (m : Manager F) (p : ptr).

Lemma indexed_bucket m (T : EntityType) :
  grouped_by_type hash_code m ->
  bucket hash_code T m
  = filter (fun p => entity_type <$> store m !! p = Some T) (entities m).
Proof.
  intros Hg. unfold bucket. rewrite Hg. apply list_filter_iff. intros p.
  unfold key_at. destruct (store m !! p) as [e|]; cbn; [|split; discriminate].
  split; intros [= E]; [apply hash_inj in E|]; congruence.
Qed.

(** X25.  In every state the game can reach, with distinct hashes:
    [getAll<T>()] is the list of the owned addresses whose object is of
    class [T], in the order of [entities]; no address is owned twice, and
    the owned addresses are exactly the ones that resolve. *)
Theorem getAll_lists_the_entities_of_a_type g (T : EntityType) :
  reachable hash_code g ->
  (Manager_getAll hash_code T (manager g)).1
  = filter (fun p => entity_type <$> store (manager g) !! p = Some T)
           (entities (manager g))
  /\ NoDup (entities (manager g))
  /\ (forall p, p ∈ entities (manager g) <-> is_Some (store (manager g) !! p)).
Proof.
  intros Hr. destruct (reachable_indexed hash_code g Hr) as [Hwf Hg].
  rewrite getAll_fst. split; [apply indexed_bucket, Hg|].
  split; [apply Hwf|apply Hwf].
Qed.

End Index.

Section CallSequence.
Context {F : Type} `{Arith F}.
Variable hash_code : EntityType -> N.
Implicit Types (g : Game F) (p : ptr).


Lemma same_vectors_refl g : same_vectors hash_code g g.
Proof. split; auto. Qed.

Lemma same_vectors_trans g1 g2 g3 :
  same_vectors hash_code g1 g2 -> same_vectors hash_code g2 g3 ->
  same_vectors hash_code g1 g3.
Proof.
  intros [E1 B1] [E2 B2]. split; [congruence|].
  intros T. rewrite B2. apply B1.
Qed.

Lemma updates_inv k (ps : list ptr) g g' :
  for_each ps (update_entity k) g = Some (tt, g') ->
  history g' = history g ++ (EvUpdate <$> ps) /\ same_vectors hash_code g g'.
Proof.
  revert g. induction ps as [|p ps IH]; intros g.
  - intros [= <-]. rewrite app_nil_r. split; [reflexivity|apply same_vectors_refl].
  - cbn [for_each]. intros E. apply bind_inv in E.
    destruct E as ([] & g1 & E1 & E). apply update_entity_inv in E1.
    destruct E1 as (e & _ & ->). apply IH in E. destruct E as [Hh Hv].
    split.
    + rewrite Hh. unfold updated_entity. cbn [history set_manager record].
      rewrite <- app_assoc. reflexivity.
    + eapply same_vectors_trans; [|exact Hv]. split; [reflexivity|]. intros T.
      reflexivity.
Qed.

Lemma brick_calls_inv ball (bricks : list ptr) g g' :
  for_each bricks (fun mBrick => resolveBrickBall ball mBrick) g = Some (tt, g') ->
  exists evs,
    history g' = history g ++ evs
    /\ Forall2 (fun ev brick => exists hits hit, ev = EvBrickBall brick ball hits hit)
               evs bricks
    /\ same_vectors hash_code g g'.
Proof.
  revert g. induction bricks as [|brick bricks IH]; intros g.
  - intros [= <-]. exists []. rewrite app_nil_r.
    split; [reflexivity|]. split; [constructor|apply same_vectors_refl].
  - cbn [for_each]. intros E. apply bind_inv in E.
    destruct E as ([] & g1 & E1 & E). apply resolveBrickBall_inv in E1.
    destruct E1 as (br & ba & _ & _ & ->). apply IH in E.
    destruct E as (evs & Hh & Hf & Hv).
    eexists (_ :: evs). split; [|split].
    + rewrite Hh. unfold brick_ball_resolved. cbn [history set_manager record].
      rewrite <- app_assoc. reflexivity.
    + constructor; [eauto|exact Hf].
    + eapply same_vectors_trans; [|exact Hv]. split; [reflexivity|]. intros T.
      reflexivity.
Qed.

Lemma paddle_calls_inv ball (paddles : list ptr) g g' :
  for_each paddles (fun mPaddle => resolvePaddleBall ball mPaddle) g
  = Some (tt, g') ->
  exists evs,
    history g' = history g ++ evs
    /\ Forall2 (fun ev paddle => exists hit, ev = EvPaddleBall paddle ball hit)
               evs paddles
    /\ same_vectors hash_code g g'.
Proof.
  revert g. induction paddles as [|paddle paddles IH]; intros g.
  - intros [= <-]. exists []. rewrite app_nil_r.
    split; [reflexivity|]. split; [constructor|apply same_vectors_refl].
  - cbn [for_each]. intros E. apply bind_inv in E.
    destruct E as ([] & g1 & E1 & E). apply resolvePaddleBall_inv in E1.
    destruct E1 as (pd & ba & _ & _ & ->). apply IH in E.
    destruct E as (evs & Hh & Hf & Hv).
    eexists (_ :: evs). split; [|split].
    + rewrite Hh. unfold paddle_ball_resolved. cbn [history set_manager record].
      rewrite <- app_assoc. reflexivity.
    + constructor; [eauto|exact Hf].
    + eapply same_vectors_trans; [|exact Hv]. split; [reflexivity|]. intros T.
      reflexivity.
Qed.

Lemma forEach_inv T (mFunc : ptr -> SE (Game F) unit) g g' :
  forEach hash_code T mFunc g = Some (tt, g') ->
  exists g1, same_vectors hash_code g g1 /\ history g1 = history g
             /\ for_each (bucket hash_code T (manager g)) mFunc g1 = Some (tt, g').
Proof.
  unfold forEach. intros E. apply bind_inv in E.
  destruct E as (v & g1 & E1 & E). apply getAll_inv in E1. destruct E1 as [-> ->].
  eexists. split; [|split; [|exact E]]; [|reflexivity].
  split; cbn [manager set_manager]; [apply getAll_entities|].
  intros T'. apply getAll_bucket.
Qed.

Lemma physics_inv k g g' ball :
  bucket hash_code TBall (manager g) = [ball] ->
  physics hash_code k g = Some (tt, g') ->
  exists brick_calls paddle_calls,
    history g'
    = history g ++ (EvUpdate <$> entities (manager g)) ++ brick_calls ++ paddle_calls
    /\ Forall2 (fun ev brick => exists hits hit, ev = EvBrickBall brick ball hits hit)
               brick_calls (bucket hash_code TBrick (manager g))
    /\ Forall2 (fun ev paddle => exists hit, ev = EvPaddleBall paddle ball hit)
               paddle_calls (bucket hash_code TPaddle (manager g)).
Proof.
  intros Hball E. unfold physics in E. apply bind_inv in E.
  destruct E as ([] & g1 & E1 & E). unfold update in E1.
  apply bind_inv in E1. destruct E1 as (ps & g0 & E0 & E1).
  injection E0 as <- <-. apply updates_inv in E1. destruct E1 as [Hh1 Hv1].
  apply bind_inv in E. destruct E as ([] & g2 & E2 & E3).
  apply forEach_inv in E2. destruct E2 as (g1a & Hva & Hha & E2).
  rewrite (proj2 Hv1), Hball in E2. cbn [for_each] in E2.
  apply bind_inv in E2. destruct E2 as ([] & g2a & E2 & Eret).
  injection Eret as <-.
  apply bind_inv in E2. destruct E2 as ([] & g1b & Eb & Ep).
  apply forEach_inv in Eb. destruct Eb as (g1c & Hvc & Hhc & Eb).
  apply brick_calls_inv in Eb. destruct Eb as (bcalls & Hhb & Hfb & Hvb).
  apply forEach_inv in Ep. destruct Ep as (g1d & Hvd & Hhd & Ep).
  apply paddle_calls_inv in Ep. destruct Ep as (pcalls & Hhp & Hfp & Hvp).
  assert (Hh3 : history g' = history g2a).
  { unfold refresh, try_modify in E3.
    destruct (Manager_refresh (manager g2a)); [|discriminate].
    cbn in E3. injection E3 as <-. reflexivity. }
  exists bcalls, pcalls. split; [|split].
  - rewrite Hh3, Hhp, Hhd, Hhb, Hhc, Hha, Hh1. rewrite <- !app_assoc. reflexivity.
  - rewrite (proj2 Hva), (proj2 Hv1) in Hfb. exact Hfb.
  - rewrite (proj2 Hvb), (proj2 Hvc), (proj2 Hva), (proj2 Hv1) in Hfp. exact Hfp.
Qed.

End CallSequence.

Section FrameCalls.
Context {F : Type} `{Arith F}.
Variable hash_code : EntityType -> N.
Hypothesis hash_inj : forall T T', hash_code T = hash_code T' -> T = T'.
Implicit Types (g : Game F) (p : ptr).

Lemma vectors_judged g :
  entities (manager (judged hash_code g)) = entities (manager g)
  /\ forall T, bucket hash_code T (manager (judged hash_code g))
               = bucket hash_code T (manager g).
Proof.
  unfold judged.
  destruct (decide _) as [Hnil|Hnil], (_ <=? 0)%Z;
    cbn [manager set_manager set_state];
    (split; [apply getAll_entities|intros T; apply getAll_bucket]).
Qed.

(** X26.  The calls of a simulated frame, in order (distinct hashes, from
    a state the game can reach): first [update()] on every owned entity,
    in the order of [entities], the ball the frame has just created, if
    it started without one, coming last; then [solveBrickBallCollision]
    on the one ball and every brick of [getAll<Brick>()], in order; then
    [solvePaddleBallCollision] on the ball and every paddle of
    [getAll<Paddle>()].  Nothing else is recorded. *)
Theorem frame_call_sequence (k : Keys) g g' :
  reachable hash_code g ->
  frame hash_code k g = Some (Continue, g') ->
  gate_state k (pausePressedLastFrame g) (state g) = InProgress ->
  exists ball updated brick_calls paddle_calls,
    ((bucket hash_code TBall (manager g) = [ball]
      /\ updated = entities (manager g))
     \/ (bucket hash_code TBall (manager g) = []
         /\ store (manager g) !! ball = None
         /\ updated = entities (manager g) ++ [ball]))
    /\ history g'
       = history g ++ (EvUpdate <$> updated) ++ brick_calls ++ paddle_calls
    /\ Forall2 (fun ev brick => exists hits hit, ev = EvBrickBall brick ball hits hit)
               brick_calls (bucket hash_code TBrick (manager g))
    /\ Forall2 (fun ev paddle => exists hit, ev = EvPaddleBall paddle ball hit)
               paddle_calls (bucket hash_code TPaddle (manager g)).
Proof.
  intros Hr E Hgate. apply frame_continue_inv in E. destruct E as (_ & g1 & E1 & Hcase).
  unfold gate_state in Hgate. destruct (key_R k); [discriminate|].
  injection E1 as <-.
  destruct Hcase as [[Hs _]|[_ E]]; [contradiction|].
  set (g1 := input_toggled k g) in *.
  destruct (vectors_judged (spawned hash_code g1)) as [Hje Hjb].
  destruct (reachable_inv hash_code hash_inj g Hr) as [[Hf _] _].
  pose proof (fi_one_ball _ _ Hf) as Hone.
  assert (Hcases :
    exists ball updated,
      ((bucket hash_code TBall (manager g) = [ball]
        /\ updated = entities (manager g))
       \/ (bucket hash_code TBall (manager g) = []
           /\ store (manager g) !! ball = None
           /\ updated = entities (manager g) ++ [ball]))
      /\ bucket hash_code TBall (manager (spawned hash_code g1)) = [ball]
      /\ entities (manager (spawned hash_code g1)) = updated).
  { unfold spawned. change (manager g1) with (manager g).
    destruct (decide (bucket hash_code TBall (manager g) = [])) as [Hnil|Hnil];
      cbn [manager set_manager set_remainingLives].
    - eexists _, _. split; [right; split; [exact Hnil|split; [|reflexivity]]|].
      + rewrite <- (getAll_store hash_code TBall (manager g)).
        apply create_fresh.
      + split.
        * rewrite create_bucket, getAll_bucket, Hnil.
          rewrite decide_True by reflexivity. reflexivity.
        * rewrite create_entities, getAll_entities. reflexivity.
    - destruct (bucket hash_code TBall (manager g)) as [|ball [|? ?]] eqn:Eb;
        [congruence| |cbn in Hone; lia].
      exists ball, (entities (manager g)). split; [left; auto|].
      split; [rewrite getAll_bucket; exact Eb|apply getAll_entities]. }
  destruct Hcases as (ball & updated & Hc & Hb & He).
  destruct (physics_inv hash_code k _ g' ball ltac:(rewrite Hjb; exact Hb) E)
    as (bcalls & pcalls & Hh & Hfb & Hfp).
  exists ball, updated, bcalls, pcalls. split; [exact Hc|].
  rewrite Hje, He in Hh. rewrite !Hjb in Hfb, Hfp.
  rewrite !(bucket_spawned hash_code) in Hfb, Hfp
    by (intros Eh; apply hash_inj in Eh; discriminate).
  split; [|split; assumption].
  rewrite Hh. unfold judged, spawned.
  destruct (decide _), (decide _), (_ <=? 0)%Z; reflexivity.
Qed.

End FrameCalls.

(* ===================================================================== *)
(** * When the hash does not tell the classes apart *)
(* ===================================================================== *)

Section WrongClass.
Context {F : Type} `{Arith F}.
Variable hash_code : EntityType -> N.
Implicit Types (g : Game F) (p : ptr).

Lemma for_each_fails {A} (x : A) (l : list A) (body : A -> SE (Game F) unit) g :
  body x g = None -> for_each (x :: l) body g = None.
Proof. intros E. cbn [for_each]. unfold mbind, SE_bind. rewrite E. reflexivity. Qed.

Lemma bind_fails {A B} (c : SE (Game F) A) (f : A -> SE (Game F) B) g :
  c g = None -> (c ≫= f) g = None.
Proof. intros E. unfold mbind, SE_bind. rewrite E. reflexivity. Qed.

Lemma resolveBrickBall_not_a_ball ball brick g :
  type_at g brick = Some TBrick -> type_at g ball <> Some TBall ->
  resolveBrickBall ball brick g = None.
Proof.
  unfold type_at. intros Hb Ha.
  destruct (store (manager g) !! brick) as [[| |br]|] eqn:Eb; try discriminate.
  unfold resolveBrickBall.
  rewrite (bind_run _ _ _ _ _ (deref_brick_run _ _ _ Eb)).
  apply bind_fails. unfold deref_ball, deref, mbind, SE_bind.
  destruct (store (manager g) !! ball) as [[| |]|]; try reflexivity.
  exfalso. apply Ha. reflexivity.
Qed.

Lemma resolveBrickBall_not_a_brick ball brick g :
  type_at g brick <> Some TBrick -> resolveBrickBall ball brick g = None.
Proof.
  unfold type_at. intros Hb. unfold resolveBrickBall. apply bind_fails.
  unfold deref_brick, deref, mbind, SE_bind.
  destruct (store (manager g) !! brick) as [[| |]|]; try reflexivity.
  exfalso. apply Hb. reflexivity.
Qed.

Lemma resolvePaddleBall_not_a_paddle ball paddle g :
  type_at g paddle <> Some TPaddle -> resolvePaddleBall ball paddle g = None.
Proof.
  unfold type_at. intros Hb. unfold resolvePaddleBall. apply bind_fails.
  unfold deref_paddle, deref, mbind, SE_bind.
  destruct (store (manager g) !! paddle) as [[| |]|]; try reflexivity.
  exfalso. apply Hb. reflexivity.
Qed.


Lemma alike_refl g : alike hash_code g g.
Proof. split; [auto|apply same_vectors_refl]. Qed.

Lemma alike_trans g1 g2 g3 :
  alike hash_code g1 g2 -> alike hash_code g2 g3 -> alike hash_code g1 g3.
Proof.
  intros [T1 V1] [T2 V2]. split; [|eapply same_vectors_trans; eauto].
  intros p. rewrite T2. apply T1.
Qed.

Lemma alike_getAll T g :
  alike hash_code g (set_manager (Manager_getAll hash_code T (manager g)).2 g).
Proof.
  split; [|split]; cbn [manager set_manager].
  - intros p. unfold type_at. cbn [manager set_manager]. rewrite getAll_store.
    reflexivity.
  - apply getAll_entities.
  - intros T'. apply getAll_bucket.
Qed.

Lemma for_each_app {A} (l1 l2 : list A) (body : A -> SE (Game F) unit) g :
  for_each (l1 ++ l2) body g
  = match for_each l1 body g with
    | Some (_, g1) => for_each l2 body g1
    | None => None
    end.
Proof.
  revert g. induction l1 as [|x l1 IH]; intros g; [reflexivity|].
  cbn [app for_each]. unfold mbind, SE_bind.
  destruct (body x g) as [[[] g1]|]; [apply IH|reflexivity].
Qed.

(** A pass over bricks only is defined and changes no class. *)
Lemma brick_pass_defined ball (bricks : list ptr) g :
  type_at g ball = Some TBall ->
  Forall (fun p => type_at g p = Some TBrick) bricks ->
  exists g',
    for_each bricks (fun mBrick => resolveBrickBall ball mBrick) g = Some (tt, g')
    /\ alike hash_code g g'.
Proof.
  revert g. induction bricks as [|brick bricks IH]; intros g Ha Hb.
  - exists g. split; [reflexivity|apply alike_refl].
  - apply Forall_cons in Hb. destruct Hb as [Hbr Hb].
    unfold type_at in Ha, Hbr.
    destruct (store (manager g) !! brick) as [[| |br]|] eqn:Ebr; try discriminate.
    destruct (store (manager g) !! ball) as [[ba| |]|] eqn:Eba; try discriminate.
    cbn [for_each].
    rewrite (bind_run _ _ _ _ _ (resolveBrickBall_run ball brick br ba g Ebr Eba)).
    set (g1 := brick_ball_resolved ball brick br ba g).
    assert (Hlike : alike hash_code g g1).
    { split; [|split; [reflexivity|intros T; reflexivity]].
      intros p. unfold type_at, g1, brick_ball_resolved.
      cbn [manager set_manager store store_set record].
      destruct (decide (ball = p)) as [<-|Hp1].
      - rewrite lookup_insert_eq, Eba. reflexivity.
      - rewrite lookup_insert_ne by exact Hp1.
        destruct (decide (brick = p)) as [<-|Hp2].
        + rewrite lookup_insert_eq, Ebr. reflexivity.
        + rewrite lookup_insert_ne by exact Hp2. reflexivity. }
    destruct (IH g1) as (g' & E & Hl).
    + rewrite (proj1 Hlike). unfold type_at. rewrite Eba. reflexivity.
    + eapply Forall_impl; [exact Hb|]. intros p Hp. cbn beta.
      rewrite (proj1 Hlike). exact Hp.
    + exists g'. split; [exact E|]. eapply alike_trans; eauto.
Qed.

Lemma brick_pass_fails ball (bricks rest : list ptr) q g :
  type_at g ball = Some TBall ->
  Forall (fun p => type_at g p = Some TBrick) bricks ->
  type_at g q <> Some TBrick ->
  for_each (bricks ++ q :: rest) (fun mBrick => resolveBrickBall ball mBrick) g
  = None.
Proof.
  intros Ha Hb Hq. rewrite for_each_app.
  destruct (brick_pass_defined ball bricks g Ha Hb) as (g' & -> & Hl).
  apply for_each_fails, resolveBrickBall_not_a_brick.
  rewrite (proj1 Hl). exact Hq.
Qed.

End WrongClass.

Section CollidingHash.
Context {F : Type} `{Arith F}.
Variable hash_code : EntityType -> N.
Implicit Types (g : Game F) (p : ptr).

Lemma grid_is_bricks (e : Entity F) (columns : list Z) :
  e ∈ grid columns -> entity_type e = TBrick.
Proof.
  unfold grid. intros Hin. apply list_elem_of_bind in Hin.
  destruct Hin as (iX & Hin & _). unfold grid_column in Hin.
  apply list_elem_of_fmap in Hin. destruct Hin as (iY & -> & _). reflexivity.
Qed.

Lemma grid_length : length (grid (F:=F) (seqZ 0 brkCountX)) = 44%nat.
Proof. reflexivity. Qed.

(** The entities [restart] leaves: bricks (at least one), then the ball,
    then the paddle. *)
Lemma start_classes g g0 :
  restart hash_code g = Some (tt, g0) ->
  exists first bricks ball paddle,
    entities (manager g0) = (first :: bricks) ++ [ball; paddle]
    /\ length (first :: bricks) = 44%nat
    /\ Forall (fun p => type_at g0 p = Some TBrick) (first :: bricks)
    /\ type_at g0 ball = Some TBall
    /\ type_at g0 paddle = Some TPaddle.
Proof.
  intros E. apply restart_result in E. destruct E as (Ho & _).
  unfold objects, start_objects in Ho. rewrite fmap_app in Ho.
  apply fmap_app_inv in Ho. destruct Ho as (bs & rest & Hbs & Hrest & He).
  destruct rest as [|ball [|paddle [|? ?]]]; try discriminate Hrest.
  injection Hrest as Hball Hpaddle.
  assert (Hlen : length bs = 44%nat).
  { rewrite <- grid_length, <- (length_fmap Some (grid _)), Hbs, length_fmap.
    reflexivity. }
  assert (Hall : Forall (fun p => type_at g0 p = Some TBrick) bs).
  { apply Forall_forall. intros p Hp.
    apply list_elem_of_lookup in Hp. destruct Hp as [i Hi].
    assert (Hl : ((fun q => store (manager g0) !! q) <$> bs) !! i
                 = Some (store (manager g0) !! p))
      by (rewrite list_lookup_fmap, Hi; reflexivity).
    rewrite <- Hbs, list_lookup_fmap in Hl.
    destruct (grid (seqZ 0 brkCountX) !! i) as [e|] eqn:Ee; [|discriminate].
    injection Hl as Hl. unfold type_at. rewrite <- Hl. cbn. f_equal.
    eapply grid_is_bricks, list_elem_of_lookup_2, Ee. }
  destruct bs as [|first bricks]; [discriminate|].
  exists first, bricks, ball, paddle. split; [exact He|]. split; [exact Hlen|].
  split; [exact Hall|].
  unfold type_at. rewrite <- Hball, <- Hpaddle. auto.
Qed.

Lemma filter_same_key (m : Manager F) (c key : N) (l : list ptr) :
  Forall (fun p => key_at hash_code m p = Some c) l ->
  filter (fun p => key_at hash_code m p = Some key) l
  = if decide (c = key) then l else [].
Proof.
  induction 1 as [|p l Hp _ IH]; [destruct (decide _); reflexivity|].
  rewrite filter_cons, IH, Hp.
  destruct (decide (Some c = Some key)) as [E|E], (decide (c = key)) as [E'|E'];
    congruence.
Qed.

Lemma key_at_type g p (T : EntityType) :
  type_at g p = Some T -> key_at hash_code (manager g) p = Some (hash_code T).
Proof.
  unfold type_at, key_at. destruct (store (manager g) !! p); [|discriminate].
  cbn. intros [= ->]. reflexivity.
Qed.

(** The vector of a class, from the classes of the owned objects. *)
Lemma start_bucket g (bricks : list ptr) ball paddle (T : EntityType) :
  grouped_by_type hash_code (manager g) ->
  entities (manager g) = bricks ++ [ball; paddle] ->
  Forall (fun p => type_at g p = Some TBrick) bricks ->
  type_at g ball = Some TBall -> type_at g paddle = Some TPaddle ->
  bucket hash_code T (manager g)
  = (if decide (hash_code TBrick = hash_code T) then bricks else [])
    ++ (if decide (hash_code TBall = hash_code T) then [ball] else [])
    ++ (if decide (hash_code TPaddle = hash_code T) then [paddle] else []).
Proof.
  intros Hg He Hb Hball Hpaddle. unfold bucket. rewrite Hg, He.
  change [ball; paddle] with ([ball] ++ [paddle]). rewrite !filter_app.
  rewrite (filter_same_key _ (hash_code TBrick)).
  2:{ eapply Forall_impl; [exact Hb|]. intros p. apply key_at_type. }
  rewrite (filter_same_key _ (hash_code TBall))
    by (constructor; [apply key_at_type, Hball|constructor]).
  rewrite (filter_same_key _ (hash_code TPaddle))
    by (constructor; [apply key_at_type, Hpaddle|constructor]).
  reflexivity.
Qed.

End CollidingHash.

Section CollidingHashMain.
Context {F : Type} `{Arith F}.
Variable hash_code : EntityType -> N.
Implicit Types (g : Game F) (p : ptr).

Lemma forEach_fails T (mFunc : ptr -> SE (Game F) unit) g x l :
  bucket hash_code T (manager g) = x :: l ->
  (forall g', alike hash_code g g' -> mFunc x g' = None) ->
  forEach hash_code T mFunc g = None.
Proof.
  intros Hb Hf. unfold forEach.
  rewrite (bind_run _ _ _ _ _ (getAll_run hash_code T g)), Hb.
  apply for_each_fails, Hf, alike_getAll.
Qed.

Lemma forEach_bricks_defined ball g :
  type_at g ball = Some TBall ->
  Forall (fun p => type_at g p = Some TBrick) (bucket hash_code TBrick (manager g)) ->
  exists g',
    forEach hash_code TBrick (fun mBrick => resolveBrickBall ball mBrick) g
    = Some (tt, g')
    /\ alike hash_code g g'.
Proof.
  intros Ha Hb. unfold forEach.
  rewrite (bind_run _ _ _ _ _ (getAll_run hash_code TBrick g)).
  pose proof (alike_getAll hash_code TBrick g) as Hl.
  set (g1 := set_manager _ g) in *.
  destruct (brick_pass_defined hash_code ball (bucket hash_code TBrick (manager g)) g1)
    as (g' & E & Hl').
  - rewrite (proj1 Hl). exact Ha.
  - eapply Forall_impl; [exact Hb|]. intros p Hp. cbn beta.
    rewrite (proj1 Hl). exact Hp.
  - exists g'. split; [exact E|]. eapply alike_trans; eauto.
Qed.

Lemma forEach_bricks_fails ball g (bricks rest : list ptr) q :
  type_at g ball = Some TBall ->
  bucket hash_code TBrick (manager g) = bricks ++ q :: rest ->
  Forall (fun p => type_at g p = Some TBrick) bricks ->
  type_at g q <> Some TBrick ->
  forEach hash_code TBrick (fun mBrick => resolveBrickBall ball mBrick) g = None.
Proof.
  intros Ha Hb Hbr Hq. unfold forEach.
  rewrite (bind_run _ _ _ _ _ (getAll_run hash_code TBrick g)), Hb.
  pose proof (alike_getAll hash_code TBrick g) as Hl.
  apply (brick_pass_fails hash_code).
  - rewrite (proj1 Hl). exact Ha.
  - eapply Forall_impl; [exact Hbr|]. intros p Hp. cbn beta.
    rewrite (proj1 Hl). exact Hp.
  - rewrite (proj1 Hl). exact Hq.
Qed.

(** X27.  When two of the three classes have the same hash, the first
    simulated frame is undefined: with the pause key down in the first
    frame (and neither the quit key nor the restart key), [forEach] hands
    an object to a resolver as an object of another class, whatever the
    readings that follow. *)
Theorem colliding_hash_codes_are_undefined (k : Keys) (ks : list Keys) :
  (exists T T', T <> T' /\ hash_code T = hash_code T') ->
  key_Escape k = false -> key_P k = true -> key_R k = false ->
  main (F:=F) hash_code (k :: ks) = None.
Proof.
  intros Hcol Hesc HP HR.
  destruct (restart_run hash_code (Game_new (F:=F)))
    as (g0 & E0 & Hwf0 & Hg0 & _ & Hs0 & Hl0 & Hp0 & _).
  destruct (start_classes hash_code _ _ E0)
    as (first & bricks & ball & paddle & He0 & _ & Hbr0 & Hball0 & Hpaddle0).
  pose proof (fun T => start_bucket hash_code g0 _ ball paddle T Hg0 He0 Hbr0
                         Hball0 Hpaddle0) as Hbucket0.
  unfold main. rewrite (bind_run _ _ _ _ _ E0). cbn [run].
  assert (Ef : frame hash_code k g0 = None);
    [|rewrite (bind_fails _ _ _ Ef); reflexivity].
  unfold frame. rewrite Hesc.
  assert (Ein : handle_input hash_code k g0 = Some (tt, input_toggled k g0))
    by (rewrite handle_input_eq, HR; reflexivity).
  rewrite (bind_run _ _ _ _ _ Ein).
  set (g1 := input_toggled k g0).
  assert (Hs1 : state g1 = InProgress).
  { unfold g1. cbn [input_toggled state]. unfold toggled.
    rewrite HP, Hp0, Hs0. reflexivity. }
  rewrite (bind_run _ _ g1 (state g1) g1 eq_refl).
  rewrite decide_False by (rewrite Hs1; auto).
  apply bind_fails. rewrite simulate_eq.
  (* no ball is created, and the game goes on *)
  assert (Hnb : bucket hash_code TBall (manager g1) <> []).
  { change (manager g1) with (manager g0). rewrite Hbucket0.
    rewrite (decide_True (P := hash_code TBall = hash_code TBall)) by reflexivity.
    destruct (decide _); intros Hnil; apply app_eq_nil in Hnil;
      destruct Hnil as [_ Hnil]; discriminate. }
  set (g5 := judged hash_code (spawned hash_code g1)).
  assert (Hl5 : alike hash_code g0 g5 /\ Manager_wf (manager g5)).
  { assert (Hl2 : alike hash_code g0 (spawned hash_code g1)
                  /\ Manager_wf (manager (spawned hash_code g1))).
    { unfold spawned. rewrite decide_False by exact Hnb. split.
      - apply (alike_getAll hash_code TBall g1).
      - cbn [manager set_manager]. apply getAll_wf, Hwf0. }
    destruct Hl2 as [Hl2 Hwf2]. unfold g5, judged.
    set (g2 := spawned hash_code g1) in *.
    pose proof (alike_getAll hash_code TBrick g2) as Hl3.
    split.
    - eapply alike_trans; [exact Hl2|].
      destruct (decide _), (_ <=? 0)%Z; exact Hl3.
    - destruct (decide _), (_ <=? 0)%Z; cbn [manager set_manager set_state];
        apply getAll_wf, Hwf2. }
  destruct Hl5 as [Hl5 Hwf5].
  destruct (for_each_update_run k (entities (manager g5)) g5 (wf_nodup _ Hwf5))
    as (g6 & E6 & Hst6 & He6 & Hgr6 & _).
  { intros p Hp. apply (wf_owned _ Hwf5), Hp. }
  change (update k g5 = Some (tt, g6)) in E6.
  assert (Hl6 : alike hash_code g0 g6).
  { eapply alike_trans; [exact Hl5|]. split; [|split].
    - intros p. unfold type_at. rewrite Hst6.
      destruct (decide _) as [Hin|Hin]; [|reflexivity].
      destruct (store (manager g5) !! p) as [e|]; [|reflexivity].
      cbn. rewrite Entity_update_type. reflexivity.
    - exact He6.
    - intros T. unfold bucket. rewrite Hgr6. reflexivity. }
  unfold physics. rewrite (bind_run _ _ _ _ _ E6). apply bind_fails.
  (* the classes and the vectors at the collisions *)
  assert (Hty : forall g', alike hash_code g6 g' ->
            Forall (fun p => type_at g' p = Some TBrick) (first :: bricks)
            /\ type_at g' ball = Some TBall /\ type_at g' paddle = Some TPaddle
            /\ forall T, bucket hash_code T (manager g')
                         = bucket hash_code T (manager g0)).
  { intros g' Hl'. pose proof (alike_trans _ _ _ _ Hl6 Hl') as [Ht [_ Hb]].
    split; [|split; [|split]].
    - eapply Forall_impl; [exact Hbr0|]. intros p Hp. cbn beta.
      rewrite Ht. exact Hp.
    - rewrite Ht. exact Hball0.
    - rewrite Ht. exact Hpaddle0.
    - exact Hb. }
  destruct (decide (hash_code TBrick = hash_code TBall)) as [HKB|HKB].
  { (* a brick is handed to the loop over the balls *)
    destruct (Hty g6 (alike_refl _ _)) as (_ & _ & _ & Hb6).
    eapply (forEach_fails TBall _ g6 first).
    - rewrite Hb6, Hbucket0, decide_True by exact HKB. reflexivity.
    - intros g7 Hl7. apply bind_fails.
      destruct (Hty g7 Hl7) as (Hbr7 & _ & _ & Hb7).
      eapply (forEach_fails TBrick _ g7 first).
      + rewrite Hb7, Hbucket0, decide_True by reflexivity. reflexivity.
      + intros g8 Hl8. apply resolveBrickBall_not_a_ball.
        * destruct (Hty g8 (alike_trans _ _ _ _ Hl7 Hl8)) as (Hbr8 & _).
          apply Forall_cons in Hbr8. apply Hbr8.
        * destruct (Hty g8 (alike_trans _ _ _ _ Hl7 Hl8)) as (Hbr8 & _).
          apply Forall_cons in Hbr8. destruct Hbr8 as [-> _]. discriminate. }
  destruct (decide (hash_code TPaddle = hash_code TBall)) as [HPB|HPB].
  { (* the ball is handed to the paddle resolver as a paddle *)
    destruct (Hty g6 (alike_refl _ _)) as (_ & _ & _ & Hb6).
    eapply (forEach_fails TBall _ g6 ball).
    - rewrite Hb6, Hbucket0, decide_False by exact HKB.
      rewrite decide_True by reflexivity. reflexivity.
    - intros g7 Hl7. destruct (Hty g7 Hl7) as (Hbr7 & Hball7 & _ & Hb7).
      destruct (forEach_bricks_defined ball g7 Hball7) as (g8 & E8 & Hl8).
      { rewrite Hb7, Hbucket0, decide_True by reflexivity.
        rewrite decide_False by congruence. rewrite decide_False by congruence.
        rewrite !app_nil_r. exact Hbr7. }
      rewrite (bind_run _ _ _ _ _ E8).
      destruct (Hty g8 (alike_trans _ _ _ _ Hl7 Hl8)) as (_ & Hball8 & _ & Hb8).
      eapply (forEach_fails TPaddle _ g8 ball).
      + rewrite Hb8, Hbucket0. rewrite decide_False by congruence.
        rewrite decide_True by congruence. reflexivity.
      + intros g9 Hl9. apply resolvePaddleBall_not_a_paddle.
        destruct (Hty g9 (alike_trans _ _ _ _ (alike_trans _ _ _ _ Hl7 Hl8) Hl9))
          as (_ & -> & _). discriminate. }
  (* the paddle is handed to the brick resolver as a brick *)
  assert (HKP : hash_code TBrick = hash_code TPaddle).
  { destruct Hcol as (T & T' & Hne & Eh).
    destruct T, T'; congruence. }
  destruct (Hty g6 (alike_refl _ _)) as (_ & _ & _ & Hb6).
  eapply (forEach_fails TBall _ g6 ball).
  - rewrite Hb6, Hbucket0, decide_False by exact HKB.
    rewrite decide_True by reflexivity. reflexivity.
  - intros g7 Hl7. destruct (Hty g7 Hl7) as (Hbr7 & Hball7 & Hpaddle7 & Hb7).
    apply bind_fails.
    eapply (forEach_bricks_fails ball g7 (first :: bricks) [] paddle).
    + exact Hball7.
    + rewrite Hb7, Hbucket0, decide_True by reflexivity.
      rewrite decide_False by congruence. rewrite decide_True by congruence.
      reflexivity.
    + exact Hbr7.
    + rewrite Hpaddle7. discriminate.
Qed.

End CollidingHashMain.

(* ===================================================================== *)
(** * How many entities there are *)
(* ===================================================================== *)

Section Census.
Context {F : Type} `{Arith F}.
Variable hash_code : EntityType -> N.
Hypothesis hash_inj : forall T T', hash_code T = hash_code T' -> T = T'.
Implicit Types (g : Game F) (p : ptr) (e : Entity F).


Lemma census_same_vectors g g' :
  indexed hash_code g' -> store_all paddle_alive g' ->
  (forall T, T <> TBall ->
     bucket hash_code T (manager g') = bucket hash_code T (manager g)) ->
  census hash_code g -> census hash_code g'.
Proof.
  intros Hi Hs Hb (_ & _ & Hp & Hk). split; [exact Hi|]. split; [exact Hs|].
  rewrite !Hb by discriminate. auto.
Qed.

Lemma census_keeps k :
  partial (census hash_code) (physics hash_code k) (fun _ => census hash_code).
Proof.
  apply physics_keeps.
  - intros T g Hc. pose proof Hc as (Hi & Hs & _).
    eapply (census_same_vectors g);
      [apply indexed_getAll, Hi| |intros T0 _; apply getAll_bucket|exact Hc].
    intros p e. cbn [manager set_manager]. rewrite getAll_store. apply Hs.
  - intros k0 p e g Hc He. pose proof Hc as (Hi & Hs & _).
    eapply (census_same_vectors g);
      [apply indexed_updated; eauto| |intros T0 _; reflexivity|exact Hc].
    intros q e0. unfold updated_entity. cbn [manager set_manager store store_set record].
    intros Hq. apply lookup_insert_Some in Hq.
    destruct Hq as [[_ <-]|[_ Hq]]; [|eapply Hs, Hq].
    pose proof (Hs _ _ He) as Ha.
    destruct e as [b|pd|b]; cbn [Entity_update paddle_alive] in *; auto.
    rewrite Paddle_update_destroyed. exact Ha.
  - intros ball brick br ba g Hc Hbr Hba. pose proof Hc as (Hi & Hs & _).
    eapply (census_same_vectors g);
      [apply indexed_brick; eauto| |intros T0 _; reflexivity|exact Hc].
    intros q e0. unfold brick_ball_resolved.
    cbn [manager set_manager store store_set record].
    intros Hq. apply lookup_insert_Some in Hq.
    destruct Hq as [[_ <-]|[_ Hq]]; [exact I|].
    apply lookup_insert_Some in Hq.
    destruct Hq as [[_ <-]|[_ Hq]]; [exact I|eapply Hs, Hq].
  - intros ball paddle pd ba g Hc Hpd Hba. pose proof Hc as (Hi & Hs & _).
    eapply (census_same_vectors g);
      [apply indexed_paddle; eauto| |intros T0 _; reflexivity|exact Hc].
    intros q e0. unfold paddle_ball_resolved.
    cbn [manager set_manager store store_set record].
    intros Hq. apply lookup_insert_Some in Hq.
    destruct Hq as [[_ <-]|[_ Hq]]; [exact I|eapply Hs, Hq].
  - intros g m (Hi & Hs & [pp Hp] & Hk) E.
    destruct (indexed_refresh hash_code g m Hi E) as [-> Hi'].
    split; [exact Hi'|]. cbn [manager set_manager].
    split; [|split].
    + intros q e0. cbn [manager set_manager]. intros Hq.
      rewrite (refreshed_store _ _ (proj1 Hi)) in Hq.
      destruct (alive (manager g) q); [eapply Hs, Hq|discriminate].
    + exists pp. rewrite refreshed_bucket, Hp. apply survivors_all.
      intros q Hq. apply list_elem_of_singleton in Hq. subst q.
      assert (Hin : pp ∈ bucket hash_code TPaddle (manager g))
        by (rewrite Hp; left).
      rewrite (indexed_bucket hash_code hash_inj _ _ (proj2 Hi)) in Hin.
      apply list_elem_of_filter in Hin. destruct Hin as [Ht _].
      apply alive_Some.
      destruct (store (manager g) !! pp) as [e|] eqn:Ee; [|discriminate].
      exists e. split; [reflexivity|].
      pose proof (Hs _ _ Ee) as Ha. destruct e; try discriminate. exact Ha.
    + rewrite refreshed_bucket. unfold survivors.
      etransitivity; [apply length_filter|exact Hk].
Qed.

Lemma census_spawned g : census hash_code g -> census hash_code (spawned hash_code g).
Proof.
  intros Hc. pose proof Hc as (Hi & Hs & _).
  apply (census_same_vectors g).
  - apply indexed_spawned, Hi.
  - unfold spawned.
    destruct (decide _) as [Hnil|Hnil]; intros p e;
      cbn [manager set_manager set_remainingLives].
    + rewrite create_store. intros Hq. apply lookup_insert_Some in Hq.
      destruct Hq as [[_ <-]|[_ Hq]]; [exact I|].
      rewrite getAll_store in Hq. eapply Hs, Hq.
    + rewrite getAll_store. apply Hs.
  - intros T HT. apply bucket_spawned. intros E. apply hash_inj in E. auto.
  - exact Hc.
Qed.

Lemma census_judged g : census hash_code g -> census hash_code (judged hash_code g).
Proof.
  intros Hc. pose proof Hc as (Hi & Hs & _).
  apply (census_same_vectors g).
  - apply indexed_judged, Hi.
  - unfold judged. intros p e.
    destruct (decide _) as [Hnil|Hnil], (_ <=? 0)%Z;
      cbn [manager set_manager set_state]; rewrite getAll_store; apply Hs.
  - intros T _. apply (vectors_judged hash_code g).
  - exact Hc.
Qed.

Lemma census_restart g g' : restart hash_code g = Some (tt, g') -> census hash_code g'.
Proof.
  intros E. pose proof (restart_result hash_code _ _ E) as (Ho & Hwf & Hg & _).
  destruct (start_classes hash_code _ _ E)
    as (first & bricks & ball & paddle & He & Hlen & Hbr & Hball & Hpaddle).
  pose proof (fun T => start_bucket hash_code g' _ ball paddle T Hg He Hbr
                         Hball Hpaddle) as Hb.
  split; [split; assumption|]. split; [|split].
  - intros p e Hp.
    assert (Hin : p ∈ entities (manager g'))
      by (apply (wf_owned _ Hwf); rewrite Hp; eauto).
    assert (Hin' : Some e ∈ objects (manager g')).
    { unfold objects. rewrite <- Hp.
      apply (list_elem_of_fmap_2 (fun q => store (manager g') !! q)). exact Hin. }
    rewrite Ho in Hin'. apply list_elem_of_fmap in Hin'.
    destruct Hin' as (e' & [= <-] & Hin').
    apply elem_of_start_objects in Hin'.
    destruct Hin' as [(iX & iY & _ & _ & ->)|[-> | ->]]; exact I || reflexivity.
  - exists paddle. rewrite Hb.
    rewrite decide_False by (intros Eh; apply hash_inj in Eh; discriminate).
    rewrite decide_False by (intros Eh; apply hash_inj in Eh; discriminate).
    rewrite decide_True by reflexivity. reflexivity.
  - rewrite Hb. rewrite decide_True by reflexivity.
    rewrite decide_False by (intros Eh; apply hash_inj in Eh; discriminate).
    rewrite decide_False by (intros Eh; apply hash_inj in Eh; discriminate).
    rewrite !app_nil_r, Hlen. reflexivity.
Qed.

Lemma reachable_census g : reachable hash_code g -> census hash_code g.
Proof.
  revert g. apply (reachable_invariant hash_code (census hash_code)).
  - apply census_restart.
  - intros k g Hc. exact Hc.
  - intros k g g' Hc _ E. eapply (census_keeps k); [|exact E].
    apply census_judged, census_spawned, Hc.
Qed.

(** X28.  In every state the game can reach, with distinct hashes: there
    is exactly one paddle, and it is not marked; there is at most one
    ball; and there are at most 44 bricks. *)
Theorem entity_census g :
  reachable hash_code g ->
  (exists paddle pd,
     (Manager_getAll hash_code TPaddle (manager g)).1 = [paddle]
     /\ store (manager g) !! paddle = Some (EPaddle pd)
     /\ paddle_destroyed pd = false)
  /\ (length (Manager_getAll hash_code TBall (manager g)).1 <= 1)%nat
  /\ (length (Manager_getAll hash_code TBrick (manager g)).1 <= 44)%nat.
Proof.
  intros Hr. destruct (reachable_census g Hr) as (Hi & Hs & [paddle Hp] & Hk).
  rewrite !getAll_fst. split; [|split; [|exact Hk]].
  - assert (Hin : paddle ∈ bucket hash_code TPaddle (manager g))
      by (rewrite Hp; left).
    rewrite (indexed_bucket hash_code hash_inj _ _ (proj2 Hi)) in Hin.
    apply list_elem_of_filter in Hin. destruct Hin as [Ht _].
    destruct (store (manager g) !! paddle) as [e|] eqn:Ee; [|discriminate].
    destruct e as [|pd|]; try discriminate.
    exists paddle, pd. split; [exact Hp|]. split; [exact Ee|].
    exact (Hs _ _ Ee).
  - destruct (reachable_inv hash_code hash_inj g Hr) as [[Hf _] _].
    apply (fi_one_ball _ _ Hf).
Qed.

End Census.

(* ===================================================================== *)
(** * The properties above, on games that are played *)
(* ===================================================================== *)

Lemma first_frame_run :
  frame Fixtures.type_hash Fixtures.press_P Fixtures.initial_game
  = Some (Continue, Scenes.first_frame).
Proof. vm_compute. reflexivity. Qed.

Lemma first_frame_gate :
  gate_state Fixtures.press_P (pausePressedLastFrame Fixtures.initial_game)
    (state Fixtures.initial_game) = InProgress.
Proof. vm_compute. reflexivity. Qed.

Lemma first_brick_in_play :
  store (manager Fixtures.initial_game) !! 1%positive
  = Some (EBrick Fixtures.first_brick).
Proof. vm_compute. reflexivity. Qed.

Lemma lives_stay_within_bounds_witness :
  reachable Fixtures.type_hash Fixtures.played_game
  /\ (0 <= remainingLives Fixtures.played_game <= 3)%Z.
Proof.
  assert (Hr : reachable Fixtures.type_hash Fixtures.played_game).
  { apply (main_reachable Fixtures.type_hash
             (Fixtures.press_P :: repeat Fixtures.no_keys 40)).
    vm_compute. reflexivity. }
  split; [exact Hr|].
  exact (proj1 (lives_stay_within_bounds Fixtures.type_hash
                  Fixtures.played_game Hr)).
Defined.

Lemma simulated_frame_outcome_witness :
  Fixtures.type_hash TBrick <> Fixtures.type_hash TBall
  /\ frame Fixtures.type_hash Fixtures.press_P Fixtures.initial_game
     = Some (Continue, Scenes.first_frame)
  /\ state Scenes.first_frame = InProgress
  /\ remainingLives Scenes.first_frame = 3%Z.
Proof.
  assert (Hh : Fixtures.type_hash TBrick <> Fixtures.type_hash TBall)
    by discriminate.
  split; [exact Hh|]. split; [exact first_frame_run|].
  destruct (simulated_frame_outcome Fixtures.type_hash Fixtures.press_P
              Fixtures.initial_game Scenes.first_frame Hh first_frame_run
              first_frame_gate) as (Hl & Hs & _).
  split.
  - rewrite Hs. vm_compute. reflexivity.
  - rewrite Hl. vm_compute. reflexivity.
Defined.

Lemma no_victory_while_a_brick_is_owned_witness :
  reachable Fixtures.type_hash Fixtures.initial_game
  /\ store (manager Fixtures.initial_game) !! 1%positive
     = Some (EBrick Fixtures.first_brick)
  /\ state Fixtures.initial_game <> Victory.
Proof.
  split; [exact initial_game_reachable|]. split; [exact first_brick_in_play|].
  exact (no_victory_while_a_brick_is_owned Fixtures.type_hash
           Fixtures.initial_game 1%positive Fixtures.first_brick
           initial_game_reachable first_brick_in_play).
Defined.

Lemma hold_left_paddle :
  store (manager Fixtures.hold_left_game) !! 46%positive
  = Some (EPaddle (Paddle_update true false Fixtures.paddle_near_left_edge)).
Proof. vm_compute. reflexivity. Qed.

Lemma paddle_stays_on_its_track_witness :
  reachable Fixtures.type_hash Fixtures.hold_left_game
  /\ store (manager Fixtures.hold_left_game) !! 46%positive
     = Some (EPaddle (Paddle_update true false Fixtures.paddle_near_left_edge))
  /\ exists j v,
       (-46 <= j <= 46)%Z
       /\ Paddle_update true false Fixtures.paddle_near_left_edge
          = Track.paddle_on_grid j v.
Proof.
  pose proof (proj1 paddle_overshoot_in_play) as Hr.
  split; [exact Hr|]. split; [exact hold_left_paddle|].
  destruct (paddle_stays_on_its_track Fixtures.type_hash Fixtures.hold_left_game
              46%positive _ Hr hold_left_paddle) as (j & v & Hj & _ & E & _).
  exists j, v. split; [exact Hj|exact E].
Defined.

Lemma bricks_stay_on_the_grid_witness :
  reachable Fixtures.type_hash Fixtures.initial_game
  /\ store (manager Fixtures.initial_game) !! 1%positive
     = Some (EBrick Fixtures.first_brick)
  /\ (requiredHits Fixtures.first_brick <= 3)%Z.
Proof.
  split; [exact initial_game_reachable|]. split; [exact first_brick_in_play|].
  destruct (bricks_stay_on_the_grid Fixtures.type_hash Fixtures.initial_game
              1%positive Fixtures.first_brick initial_game_reachable
              first_brick_in_play) as (_ & iX & iY & _ & _ & _ & _ & H3 & _).
  exact H3.
Defined.

Lemma initial_game_wf : Manager_wf (manager Fixtures.initial_game).
Proof.
  apply (reachable_indexed Fixtures.type_hash), initial_game_reachable.
Qed.

Lemma update_updates_every_entity_once_witness :
  Manager_wf (manager Fixtures.initial_game)
  /\ exists g',
       update Fixtures.no_keys Fixtures.initial_game = Some (tt, g')
       /\ history g'
          = history Fixtures.initial_game
            ++ (EvUpdate <$> entities (manager Fixtures.initial_game)).
Proof.
  split; [exact initial_game_wf|].
  destruct (update_updates_every_entity_once Fixtures.no_keys
              Fixtures.initial_game initial_game_wf)
    as (g' & E & _ & _ & _ & Hh & _).
  exists g'. split; [exact E|exact Hh].
Defined.

Lemma main_is_always_defined_witness :
  (forall T T', Fixtures.type_hash T = Fixtures.type_hash T' -> T = T')
  /\ exists g : Game F32.t,
       main Fixtures.type_hash (Fixtures.press_P :: repeat Fixtures.no_keys 40)
       = Some g
       /\ Manager_wf (manager g).
Proof.
  split; [exact type_hash_inj|].
  destruct (main_is_always_defined (F:=F32.t) Fixtures.type_hash
              (Fixtures.press_P :: repeat Fixtures.no_keys 40) type_hash_inj)
    as (g & E & _ & Hwf & _).
  exists g. split; [exact E|exact Hwf].
Defined.

Lemma keys_after_escape_are_ignored_witness :
  Forall (fun k => key_Escape k = false) [Fixtures.press_P]
  /\ key_Escape Scenes.press_Escape = true
  /\ main (F:=F32.t) Fixtures.type_hash
       ([Fixtures.press_P] ++ Scenes.press_Escape :: [Fixtures.no_keys])
     = main Fixtures.type_hash [Fixtures.press_P].
Proof.
  assert (Hks : Forall (fun k => key_Escape k = false) [Fixtures.press_P])
    by (constructor; [reflexivity|constructor]).
  split; [exact Hks|]. split; [reflexivity|].
  exact (keys_after_escape_are_ignored (F:=F32.t) Fixtures.type_hash
           [Fixtures.press_P] [Fixtures.no_keys] Scenes.press_Escape
           Hks eq_refl).
Defined.

Lemma getAll_lists_the_entities_of_a_type_witness :
  (forall T T', Fixtures.type_hash T = Fixtures.type_hash T' -> T = T')
  /\ reachable Fixtures.type_hash Fixtures.initial_game
  /\ (Manager_getAll Fixtures.type_hash TBall (manager Fixtures.initial_game)).1
     = filter (fun p => entity_type <$> store (manager Fixtures.initial_game) !! p
                        = Some TBall)
              (entities (manager Fixtures.initial_game)).
Proof.
  split; [exact type_hash_inj|]. split; [exact initial_game_reachable|].
  exact (proj1 (getAll_lists_the_entities_of_a_type Fixtures.type_hash
                  type_hash_inj Fixtures.initial_game TBall
                  initial_game_reachable)).
Defined.

Lemma frame_call_sequence_witness :
  (forall T T', Fixtures.type_hash T = Fixtures.type_hash T' -> T = T')
  /\ reachable Fixtures.type_hash Fixtures.initial_game
  /\ frame Fixtures.type_hash Fixtures.press_P Fixtures.initial_game
     = Some (Continue, Scenes.first_frame)
  /\ exists ball updated brick_calls paddle_calls,
       history Scenes.first_frame
       = history Fixtures.initial_game ++ (EvUpdate <$> updated)
         ++ brick_calls ++ paddle_calls
       /\ Forall2 (fun ev brick => exists hits hit,
                     ev = EvBrickBall brick ball hits hit)
                  brick_calls
                  (bucket Fixtures.type_hash TBrick (manager Fixtures.initial_game)).
Proof.
  split; [exact type_hash_inj|]. split; [exact initial_game_reachable|].
  split; [exact first_frame_run|].
  destruct (frame_call_sequence Fixtures.type_hash type_hash_inj Fixtures.press_P
              Fixtures.initial_game Scenes.first_frame initial_game_reachable
              first_frame_run first_frame_gate)
    as (ball & updated & bcalls & pcalls & _ & Hh & Hb & _).
  exists ball, updated, bcalls, pcalls. split; [exact Hh|exact Hb].
Defined.

Lemma colliding_hash_codes_are_undefined_witness :
  (exists T T', T <> T' /\ Scenes.constant_hash T = Scenes.constant_hash T')
  /\ main (F:=F32.t) Scenes.constant_hash [Fixtures.press_P] = None.
Proof.
  assert (Hc : exists T T', T <> T'
                            /\ Scenes.constant_hash T = Scenes.constant_hash T').
  { exists TBall, TBrick. split; [discriminate|reflexivity]. }
  split; [exact Hc|].
  exact (colliding_hash_codes_are_undefined (F:=F32.t) Scenes.constant_hash
           Fixtures.press_P [] Hc eq_refl eq_refl eq_refl).
Defined.

Lemma entity_census_witness :
  (forall T T', Fixtures.type_hash T = Fixtures.type_hash T' -> T = T')
  /\ reachable Fixtures.type_hash Fixtures.played_game
  /\ (length (Manager_getAll Fixtures.type_hash TBrick
                (manager Fixtures.played_game)).1 <= 44)%nat.
Proof.
  assert (Hr : reachable Fixtures.type_hash Fixtures.played_game).
  { apply (main_reachable Fixtures.type_hash
             (Fixtures.press_P :: repeat Fixtures.no_keys 40)).
    vm_compute. reflexivity. }
  split; [exact type_hash_inj|]. split; [exact Hr|].
  exact (proj2 (proj2 (entity_census Fixtures.type_hash type_hash_inj
                         Fixtures.played_game Hr))).
Defined.

(* ##################################################################### *)
(** * Part IV: when a frame simulates *)
(* ##################################################################### *)

(** When the test of [run] sees [InProgress]: the restart key is up, and
    either the frame starts in [InProgress] and the pause toggle does not
    fire, or it starts in [Paused] and the toggle fires. *)
Lemma gate_state_InProgress (k : Keys) (pressed : bool) (st : State) :
  gate_state k pressed st = InProgress
  <-> key_R k = false
      /\ ((st = InProgress /\ (key_P k = false \/ pressed = true))
          \/ (st = Paused /\ key_P k = true /\ pressed = false)).
Proof.
  unfold gate_state, toggled.
  destruct (key_R k), (key_P k), pressed, st; cbn;
    split; intros; try discriminate; try reflexivity;
    intuition (try discriminate; auto).
Qed.

Section GateFacts.
Context {F : Type} `{Arith F}.
Variable hash_code : EntityType -> N.
Implicit Types (g : Game F).

(** The state a simulated frame ends in. *)
Lemma simulated_frame_state k g g' :
  hash_code TBrick <> hash_code TBall ->
  frame hash_code k g = Some (Continue, g') ->
  gate_state k (pausePressedLastFrame g) (state g) = InProgress ->
  state g'
  = (if (remainingLives g' <=? 0)%Z then GameOver
     else if decide (bucket hash_code TBrick (manager g) = []) then Victory
     else InProgress).
Proof.
  intros Hh E Hgate. apply frame_continue_inv in E. destruct E as (_ & g1 & E1 & Hcase).
  unfold gate_state in Hgate. destruct (key_R k); [discriminate|].
  injection E1 as <-.
  destruct Hcase as [[Hs _]|[_ E]]; [contradiction|].
  apply physics_scalars in E. unfold scalars in E. injection E as E1 _ E3.
  rewrite E1, E3.
  destruct (scalars_judged hash_code (spawned hash_code (input_toggled k g)))
    as (Hj1 & Hj2 & Hj3).
  destruct (scalars_spawned hash_code (input_toggled k g)) as (Hs1 & Hs2 & Hs3).
  rewrite ?Hj1, ?Hj2, ?Hj3, ?Hs1, ?Hs2, ?Hs3.
  rewrite bucket_spawned by exact Hh.
  cbn [input_toggled manager remainingLives state].
  rewrite Hgate. reflexivity.
Qed.

End GateFacts.

(** C8 (as amended).  From every state the game can reach, with distinct
    hashes, a frame is defined, and whether it simulates goes by the state
    it starts in together with the keys it reads, the state being tested
    once (line 417) after the pause toggle and the restart key have been
    handled.  A frame that starts in [GameOver] or [Victory] records no
    update and no call of a resolver.  A frame that starts in [Paused]
    records some exactly when the pause key is down and was not in the
    frame before, and neither the quit key nor the restart key is down.  A
    frame that starts in [InProgress] records none exactly when the quit
    key is down, or the restart key is, or the pause key is down and was
    not in the frame before.  A frame that records anything records
    updates of entities and calls of the paddle resolver, and it does so
    after it has set the state it ends in (lines 443-448): [GameOver] if
    no life is left, else [Victory] if it started without a brick, else
    [InProgress]. *)
Theorem simulation_gated_by_state (hash_code : EntityType -> N)
    (k : Keys) (g : Game F32.t) :
  (forall T T', hash_code T = hash_code T' -> T = T') ->
  reachable hash_code g ->
  exists flow g' evs,
    frame hash_code k g = Some (flow, g')
    /\ history g' = history g ++ evs
    /\ (state g = GameOver \/ state g = Victory -> evs = [])
    /\ (state g = Paused ->
        (evs <> [] <-> key_Escape k = false /\ key_R k = false
                       /\ key_P k = true /\ pausePressedLastFrame g = false))
    /\ (state g = InProgress ->
        (evs = [] <-> key_Escape k = true \/ key_R k = true
                      \/ (key_P k = true /\ pausePressedLastFrame g = false)))
    /\ (evs <> [] ->
        (exists p, EvUpdate p ∈ evs)
        /\ (exists paddle ball hit, EvPaddleBall paddle ball hit ∈ evs)
        /\ state g'
           = (if (remainingLives g' <=? 0)%Z then GameOver
              else if decide (bucket hash_code TBrick (manager g) = [])
                   then Victory else InProgress)).
Proof.
  intros Hinj Hr. destruct (key_Escape k) eqn:Hesc.
  - exists Break, g, []. split; [apply frame_break, Hesc|].
    split; [symmetry; apply app_nil_r|].
    split; [reflexivity|]. split; [|split].
    + intros _. split; [intros Hn; contradiction|intros [E _]; discriminate].
    + intros _. split; auto.
    + intros Hn. contradiction.
  - destruct (proj2 (frame_gated_after_input hash_code k g Hinj Hr) Hesc)
      as (g1 & g' & evs & _ & Ef & Hs1 & Eh & Hno & Hyes & _).
    exists Continue, g', evs. split; [exact Ef|]. split; [exact Eh|].
    pose proof (gate_state_InProgress k (pausePressedLastFrame g) (state g)) as Hgate.
    rewrite Hs1 in Hno, Hyes.
    destruct (decide (gate_state k (pausePressedLastFrame g) (state g) = InProgress))
      as [He|Hne].
    + destruct (Hyes He) as [Hu Hp].
      assert (Hn : evs <> []).
      { destruct Hu as [p Hin]. intros ->. inversion Hin. }
      pose proof (proj1 Hgate He) as (HR & Hcase).
      split; [|split; [|split]].
      * intros Hs. destruct Hcase as [[E _]|[E _]], Hs; congruence.
      * intros Hs. split; [intros _|intros _; exact Hn].
        destruct Hcase as [[E _]|(_ & HP & Hpp)]; [congruence|auto].
      * intros Hs. split; [intros E; contradiction|].
        intros [E|[E|[HP Hpp]]]; [discriminate|congruence|].
        destruct Hcase as [(_ & [E|E])|(E & _)]; congruence.
      * intros _. split; [exact Hu|]. split; [exact Hp|].
        apply (simulated_frame_state hash_code k g g'); [|exact Ef|exact He].
        intros E. apply Hinj in E. discriminate.
    + destruct (Hno Hne) as [-> _].
      split; [reflexivity|]. split; [|split].
      * intros Hs. split; [intros Hn; contradiction|].
        intros (_ & HR & HP & Hpp). exfalso. apply Hne, Hgate. auto.
      * intros Hs. split; [|reflexivity]. intros _.
        destruct (key_R k) eqn:HR; [auto|].
        destruct (key_P k) eqn:HP, (pausePressedLastFrame g) eqn:Hpp; auto;
          exfalso; apply Hne, Hgate; auto.
      * intros Hn. contradiction.
Qed.

Lemma simulation_gated_by_state_witness :
  (forall T T', Fixtures.type_hash T = Fixtures.type_hash T' -> T = T')
  /\ reachable Fixtures.type_hash Fixtures.initial_game
  /\ exists flow g' evs,
       frame Fixtures.type_hash Fixtures.press_P Fixtures.initial_game
       = Some (flow, g')
       /\ history g' = history Fixtures.initial_game ++ evs
       /\ exists p, EvUpdate p ∈ evs.
Proof.
  split; [exact type_hash_inj|]. split; [exact initial_game_reachable|].
  destruct (simulation_gated_by_state Fixtures.type_hash Fixtures.press_P
              Fixtures.initial_game type_hash_inj initial_game_reachable)
    as (flow & g' & evs & Ef & Eh & _ & Hp & _ & Hrun).
  exists flow, g', evs. split; [exact Ef|]. split; [exact Eh|].
  apply Hrun. apply (proj2 (Hp eq_refl)). repeat split; reflexivity.
Defined.

(** The state a frame starts in does not decide by itself.  The first
    frame of a game starts in [Paused], a state the game can reach, and
    with the pause key down it updates the entities.  And the game two
    frames in is [InProgress], and a frame with the pause key down runs
    nothing and ends in [Paused]. *)
Lemma simulation_gated_by_state_counterexample :
  (reachable Fixtures.type_hash Fixtures.initial_game
   /\ state Fixtures.initial_game = Paused
   /\ history Fixtures.initial_game = []
   /\ Fixtures.frame_updated
        (frame Fixtures.type_hash Fixtures.press_P Fixtures.initial_game) = true)
  /\ (reachable Fixtures.type_hash Scenes.running_game
      /\ state Scenes.running_game = InProgress
      /\ exists g',
           frame Fixtures.type_hash Fixtures.press_P Scenes.running_game
           = Some (Continue, g')
           /\ history g' = history Scenes.running_game
           /\ state g' = Paused).
Proof.
  split.
  - split; [exact initial_game_reachable|].
    repeat split; vm_compute; reflexivity.
  - split.
    + apply (main_reachable Fixtures.type_hash [Fixtures.press_P; Fixtures.no_keys]).
      vm_compute. reflexivity.
    + split; [vm_compute; reflexivity|].
      eexists. split; [vm_compute; reflexivity|].
      split; vm_compute; reflexivity.
Qed.
